(** * PDHG and LM-SPDHG for Poisson log-likelihood + total variation

    Shallow embedding of the numerical core of [03_lm_spdhg.ipynb]: the
    step-size cells, the PDHG cell and the listmode SPDHG cell.

    Conventions.
    - Arrays of the array API ([xp]) are flat lists of reals, in the order of
      the flattened array; arithmetic is exact (the [float32]/[float64]
      rounding of the notebook is not represented).
    - An array of shape [(ndim, n0, n1, n2)], such as the output of the
      finite-difference operator, is a list of [ndim] rows, each a flat array
      over the voxels (axis 0 is the outer list).
    - Element-wise operators pair entries by position.  The array API raises
      on operands whose shapes do not agree; the statements below therefore
      carry the shape agreements as length hypotheses.
    - A quotient by zero, which the array API evaluates to [inf] or [nan],
      has no counterpart over the reals: statements about quotients carry
      the hypotheses that make the divisors non-zero.  The step-size cells,
      which divide by sensitivities that can be zero, are given a second
      time over extended values (module [Ieee]), where the zero divisors
      are followed through.
    - The projectors of [parallelproj] ([pet_lin_op], the listmode subset
      operators, [op_G]) are library code: they enter as records of
      functions, with linearity assumed only where a proof needs it. *)

From Stdlib Require Import Reals Lra Lia List Bool Arith.
From Stdlib Require Import Permutation.
Import ListNotations.


Local Open Scope R_scope.

(** ** Array operations *)

Module Arr.

Abbreviation arr := (list R) (only parsing).

(** A stack of arrays along axis 0. *)
Abbreviation stack := (list (list R)) (only parsing).

Fixpoint zipWith {A B C : Type} (f : A -> B -> C) (a : list A) (b : list B)
  : list C :=
  match a, b with
  | u :: a', v :: b' => f u v :: zipWith f a' b'
  | _, _ => []
  end.

(** [a + b], [a - b], [a * b], [a / b] on arrays of one shape. *)
Definition vadd : arr -> arr -> arr := zipWith Rplus.
Definition vsub : arr -> arr -> arr := zipWith Rminus.
Definition vmul : arr -> arr -> arr := zipWith Rmult.
Definition vdiv : arr -> arr -> arr := zipWith Rdiv.

(** Broadcasting of a scalar: [a + s], [a - s], [s - a], [s * a], [a / s],
    [s / a]. *)
Definition vadds (a : arr) (s : R) : arr := map (fun v => v + s) a.
Definition vsubs (a : arr) (s : R) : arr := map (fun v => v - s) a.
Definition ssubv (s : R) (a : arr) : arr := map (fun v => s - v) a.
Definition smulv (s : R) (a : arr) : arr := map (fun v => s * v) a.
Definition vdivs (a : arr) (s : R) : arr := map (fun v => v / s) a.
Definition sdivv (s : R) (a : arr) : arr := map (fun v => s / v) a.

(** [a ** 2] and [xp.sqrt(a)]. *)
Definition vsquare (a : arr) : arr := map (fun v => v ^ 2) a.
Definition vsqrt (a : arr) : arr := map sqrt a.

(** [xp.ones], [xp.zeros], [xp.full] for a flat shape of [n] entries, and
    [xp.ones_like], [xp.zeros_like]. *)
Definition full (n : nat) (s : R) : arr := repeat s n.
Definition ones (n : nat) : arr := full n 1.
Definition zeros (n : nat) : arr := full n 0.
Definition ones_like (a : arr) : arr := ones (length a).
Definition zeros_like (a : arr) : arr := zeros (length a).

(** Comparisons give boolean arrays: [a < s], [a == s], [a > s]. *)
Definition Rltb (a b : R) : bool := if Rlt_dec a b then true else false.
Definition Reqb (a b : R) : bool := if Req_dec_T a b then true else false.

Definition vlts (a : arr) (s : R) : list bool := map (fun v => Rltb v s) a.
Definition veqs (a : arr) (s : R) : list bool := map (fun v => Reqb v s) a.
Definition vgts (a : arr) (s : R) : list bool := map (fun v => Rltb s v) a.

(** [xp.where(c, a, b)] with three arrays of one shape. *)
Fixpoint where_ (c : list bool) (a b : arr) : arr :=
  match c, a, b with
  | t :: c', u :: a', v :: b' => (if t then u else v) :: where_ c' a' b'
  | _, _, _ => []
  end.

(** Boolean-mask selection [a[m]]. *)
Fixpoint mask (a : arr) (m : list bool) : arr :=
  match a, m with
  | u :: a', t :: m' => if t then u :: mask a' m' else mask a' m'
  | _, _ => []
  end.

(** [xp.min(a)]: the reduction of an empty array is an error. *)
Definition amin (a : arr) : option R :=
  match a with
  | [] => None
  | u :: a' => Some (fold_left Rmin a' u)
  end.

(** Operations on stacks, row by row: [f + g], [f - g], [s * f], [f / s],
    [f * s], and [f / a] with the array [a] broadcast along axis 0. *)
Definition fadd : stack -> stack -> stack := zipWith vadd.
Definition fsub : stack -> stack -> stack := zipWith vsub.
Definition smulf (s : R) (f : stack) : stack := map (smulv s) f.
Definition fdivs (f : stack) (s : R) : stack := map (fun r => vdivs r s) f.
Definition fmuls (f : stack) (s : R) : stack := map (fun r => smulv s r) f.
Definition fdivv (f : stack) (a : arr) : stack := map (fun r => vdiv r a) f.
Definition fzeros (ndim n : nat) : stack := repeat (zeros n) ndim.

(** [xp.linalg.vector_norm(f, axis=0)] for a stack over [n] voxels: at each
    voxel the Euclidean norm of the entries across the rows. *)
Definition sumsq_axis0 (n : nat) (f : stack) : arr :=
  fold_right (fun r acc => vadd (vsquare r) acc) (zeros n) f.
Definition vector_norm_axis0 (n : nat) (f : stack) : arr :=
  vsqrt (sumsq_axis0 n f).

(** The sum of squares across the rows at voxel [j]. *)
Definition group_sumsq (f : stack) (j : nat) : R :=
  fold_right (fun r acc => nth j r 0 ^ 2 + acc) 0 f.

(** [xp.min(f, axis=0)]. *)
Definition min_axis0 (f : stack) : arr :=
  match f with
  | [] => []
  | r :: f' => fold_left (zipWith Rmin) f' r
  end.

(** The slice [a[start::step]] for a positive [step]: the entries at
    [start], [start + step], [start + 2 * step], ... *)
Fixpoint stride (fuel step : nat) (a : arr) : arr :=
  match fuel with
  | O => []
  | S fuel' =>
      match a with
      | [] => []
      | u :: _ => u :: stride fuel' step (skipn step a)
      end
  end.
Definition slice_from (start step : nat) (a : arr) : arr :=
  stride (length a) step (skipn start a).

(** Item assignment [l[k] = v] on a Python list, for [k] in range. *)
Fixpoint setitem {A : Type} (l : list A) (k : nat) (v : A) : list A :=
  match l, k with
  | [], _ => []
  | _ :: l', O => v :: l'
  | u :: l', S k' => u :: setitem l' k' v
  end.

(** Entry [j] of an array, entry [(i, j)] of a stack. *)
Definition at_ (a : arr) (j : nat) : R := nth j a 0.
Definition at2 (f : stack) (i j : nat) : R := at_ (nth i f []) j.

(** All rows of a stack have [n] entries. *)
Definition rows_of (n : nat) (f : stack) : Prop :=
  Forall (fun r => length r = n) f.

End Arr.
Import Arr.

(** ** Linear operators

    The interface of [parallelproj.LinearOperator] that the notebook uses:
    forward application [op(x)] and [op.adjoint(y)].  The finite forward
    difference operator maps an image to a stack with one row per spatial
    direction. *)

Record LinearOperator : Type := {
  apply : arr -> arr;
  adjoint : arr -> arr
}.

Record GradientOperator : Type := {
  gapply : arr -> stack;
  gadjoint : stack -> arr
}.

(** ** Proximal operators *)

(** Spec: [prox(y) = 0.5·(y + 1 − sqrt((y−1)² + 4·S·d))] on one entry. *)
Definition poisson_prox_spec (y S d : R) : R :=
  0.5 * (y + 1 - sqrt ((y - 1) ^ 2 + 4 * S * d)).

(** [0.5 * (y_plus + 1 - xp.sqrt((y_plus - 1) ** 2 + 4 * S * d))] *)
Definition prox_poisson_dual (y_plus S d : arr) : arr :=
  smulv 0.5
    (vsub (vadds y_plus 1)
          (vsqrt (vadd (vsquare (vsubs y_plus 1)) (vmul (smulv 4 S) d)))).

(** [xp.where(denom < 1, xp.ones_like(denom), denom)] *)
Definition tv_divisor (denom : arr) : arr :=
  where_ (vlts denom 1) (ones_like denom) denom.

(** The division step of the TV prox on the candidate [w_plus]:
<<
    denom = xp.linalg.vector_norm(w_plus, axis=0)
    w_plus /= xp.where(denom < 1, xp.ones_like(denom), denom)
>> *)
Definition tv_ball_project (n : nat) (w_plus : stack) : stack :=
  let denom := vector_norm_axis0 n w_plus in
  fdivv w_plus (tv_divisor denom).

(** The whole dual gradient update, [gx] being [op_G(x)]:
<<
    w_plus = (w + S_G * op_G(x)) / beta
    denom = ...; w_plus /= ...
    w_plus *= beta
>> *)
Definition tv_candidate (w : stack) (S_G : R) (gx : stack) : stack :=
  fadd w (smulf S_G gx).

Definition tv_dual_update (n : nat) (w : stack) (S_G : R) (gx : stack)
    (beta : R) : stack :=
  let w_plus := fdivs (tv_candidate w S_G gx) beta in
  let w_plus := tv_ball_project n w_plus in
  fmuls w_plus beta.

(** The primal update shared by both loops:
<<
    x -= T * zbar
    x = xp.where(x < 0, xp.zeros_like(x), x)
>> *)
Definition primal_update (x T zbar : arr) : arr :=
  let x := vsub x (vmul T zbar) in
  where_ (vlts x 0) (zeros_like x) x.

(** ** Step sizes *)

Module StepSize.

(** [tmp = xp.where(tmp == 0, xp.min(tmp[tmp > 0]), tmp)]; the reduction
    fails when no entry of [tmp] is positive. *)
Definition replace_zeros (tmp : arr) : option arr :=
  match amin (mask tmp (vgts tmp 0)) with
  | None => None
  | Some m => Some (where_ (veqs tmp 0) (full (length tmp) m) tmp)
  end.

(** The array the dual step divides by, and [S = gamma * rho / tmp], for the
    sinogram operator and for every listmode subset operator alike. *)
Definition dual_step (gamma rho : R) (op : LinearOperator) (n_img : nat)
  : option arr :=
  match replace_zeros (apply op (ones n_img)) with
  | None => None
  | Some tmp => Some (sdivv (gamma * rho) tmp)
  end.

(** [T_A = (1 / gamma) * rho / pet_lin_op.adjoint(xp.ones(out_shape))].
    Over the reals this is the value of the cell at the entries where the
    divisor is non-zero; [Ieee.T_A] follows the zero entries. *)
Definition T_A_divisor (op : LinearOperator) (n_data : nat) : arr :=
  adjoint op (ones n_data).
Definition T_A (gamma rho : R) (op : LinearOperator) (n_data : nat) : arr :=
  sdivv ((1 / gamma) * rho) (T_A_divisor op n_data).

(** [S_G = gamma * rho / op_G_norm], [T_G = (1 / gamma) * rho / op_G_norm] *)
Definition S_G (gamma rho op_G_norm : R) : R := gamma * rho / op_G_norm.
Definition T_G (gamma rho op_G_norm : R) : R := (1 / gamma) * rho / op_G_norm.

(** [T = xp.where(T_A < T_G, T_A, xp.full(in_shape, T_G))] *)
Definition T (n_img : nat) (T_A : arr) (T_G : R) : arr :=
  where_ (vlts T_A T_G) T_A (full n_img T_G).

(** Subset probabilities: [p_g = 0.5], [p_a = (1 - p_g) / num_subsets]. *)
Definition p_g : R := 0.5.
Definition p_a (num_subsets : nat) : R := (1 - p_g) / INR num_subsets.

(** [S_A_lm]: one dual step per subset operator. *)
Fixpoint S_A_lm (gamma rho : R) (ops : list LinearOperator) (n_img : nat)
  : option (list arr) :=
  match ops with
  | [] => Some []
  | lm_op :: ops' =>
      match dual_step gamma rho lm_op n_img with
      | None => None
      | Some S_k =>
          match S_A_lm gamma rho ops' n_img with
          | None => None
          | Some rest => Some (S_k :: rest)
          end
      end
  end.

(** Row [k] of [T_A_lm]:
<<
    tmp = lm_pet_subset_linop_seq[k].adjoint(1 / mu[sl])
    T_A_lm[k] = (rho * p_a / gamma) / tmp
>>
    Over the reals this is the value of the row at the entries where [tmp]
    is non-zero; [Ieee.T_A_lm_row] follows the zero entries. *)
Definition T_A_lm_divisor (lm_op : LinearOperator) (mu_sl : arr) : arr :=
  adjoint lm_op (sdivv 1 mu_sl).
Definition T_A_lm_row (gamma rho p : R) (lm_op : LinearOperator)
    (mu_sl : arr) : arr :=
  sdivv (rho * p / gamma) (T_A_lm_divisor lm_op mu_sl).

(** [T_A_lm] has one row per subset and a last row filled with [T_G];
    [T_lm = xp.min(T_A_lm, axis=0)]. *)
Definition T_A_lm (n_img : nat) (rows : stack) (T_G : R) : stack :=
  rows ++ [full n_img T_G].
Definition T_lm (n_img : nat) (rows : stack) (T_G : R) : arr :=
  min_axis0 (T_A_lm n_img rows T_G).

End StepSize.

(** ** PDHG: the deterministic full-batch loop *)

Module PDHG.

(** What the loop reads and never writes. *)
Record config : Type := {
  pet_lin_op : LinearOperator;
  op_G : GradientOperator;
  n_img : nat;                 (* number of voxels of [in_shape] *)
  ndim : nat;                  (* number of rows of [op_G.out_shape] *)
  contamination : arr;
  d : arr;
  S_A : arr;
  S_G : R;
  T : arr;
  beta : R
}.

(** The variables the loop assigns. *)
Record state : Type := {
  x_pdhg : arr;
  y : arr;
  w : stack;
  z : arr;
  zbar : arr
}.

(** The step-size cell: the values of [S_A], [S_G] and [T] that the loop
    reads.  [op_G_norm] is the result of [op_G.norm(xp, dev, num_iter=100)];
    [n_data] is the number of entries of [pet_lin_op.out_shape]. *)
Definition setup (gamma rho beta op_G_norm : R)
    (pet_lin_op : LinearOperator) (op_G : GradientOperator)
    (n_img n_data ndim : nat) (contamination d : arr) : option config :=
  match StepSize.dual_step gamma rho pet_lin_op n_img with
  | None => None
  | Some S_A =>
      let T_A := StepSize.T_A gamma rho pet_lin_op n_data in
      let T_G := StepSize.T_G gamma rho op_G_norm in
      Some {| pet_lin_op := pet_lin_op;
              op_G := op_G;
              n_img := n_img;
              ndim := ndim;
              contamination := contamination;
              d := d;
              S_A := S_A;
              S_G := StepSize.S_G gamma rho op_G_norm;
              T := StepSize.T n_img T_A T_G;
              beta := beta |}
  end.

(** Shapes of the operators and arrays of a problem with [m] measurement
    bins, and additivity of the two adjoints on arrays of the right shape. *)
Record well_formed (c : config) (m : nat) : Prop := {
  wf_apply : forall v, length v = n_img c ->
                       length (apply (pet_lin_op c) v) = m;
  wf_adjoint : forall v, length v = m ->
                         length (adjoint (pet_lin_op c) v) = n_img c;
  wf_gapply : forall v, length v = n_img c ->
                        length (gapply (op_G c) v) = ndim c
                        /\ rows_of (n_img c) (gapply (op_G c) v);
  wf_gadjoint : forall f, length f = ndim c -> rows_of (n_img c) f ->
                          length (gadjoint (op_G c) f) = n_img c;
  wf_contamination : length (contamination c) = m;
  wf_d : length (d c) = m;
  wf_S_A : length (S_A c) = m;
  wf_T : length (T c) = n_img c;
  adjoint_sub : forall a b, length a = m -> length b = m ->
      adjoint (pet_lin_op c) (vsub a b)
      = vsub (adjoint (pet_lin_op c) a) (adjoint (pet_lin_op c) b);
  gadjoint_sub : forall f g,
      length f = ndim c -> rows_of (n_img c) f ->
      length g = ndim c -> rows_of (n_img c) g ->
      gadjoint (op_G c) (fsub f g)
      = vsub (gadjoint (op_G c) f) (gadjoint (op_G c) g)
}.

(** Initialisation:
<<
    x_pdhg = 1.0 * x_mlem
    y = 1 - d / (pet_lin_op(x_pdhg) + contamination)
    w = xp.zeros(op_G.out_shape, ...)
    z = pet_lin_op.adjoint(y) + op_G.adjoint(w)
    zbar = 1.0 * z
>> *)
Definition init (c : config) (x_mlem : arr) : state :=
  let x_pdhg := smulv 1 x_mlem in
  let y :=
    ssubv 1 (vdiv (d c) (vadd (apply (pet_lin_op c) x_pdhg) (contamination c)))
  in
  let w := fzeros (ndim c) (n_img c) in
  let z := vadd (adjoint (pet_lin_op c) y) (gadjoint (op_G c) w) in
  {| x_pdhg := x_pdhg; y := y; w := w; z := z; zbar := smulv 1 z |}.

(** The loop body, one definition per assigned name. *)
Definition x_next (c : config) (s : state) : arr :=
  primal_update (x_pdhg s) (T c) (zbar s).

(** [y_plus = y + S_A * (pet_lin_op(x_pdhg) + contamination)] *)
Definition y_candidate (c : config) (s : state) : arr :=
  vadd (y s)
       (vmul (S_A c)
             (vadd (apply (pet_lin_op c) (x_next c s)) (contamination c))).

Definition y_plus (c : config) (s : state) : arr :=
  prox_poisson_dual (y_candidate c s) (S_A c) (d c).

Definition w_plus (c : config) (s : state) : stack :=
  tv_dual_update (n_img c) (w s) (S_G c) (gapply (op_G c) (x_next c s))
                 (beta c).

(** [delta_z = pet_lin_op.adjoint(y_plus - y) + op_G.adjoint(w_plus - w)] *)
Definition delta_z (c : config) (s : state) : arr :=
  vadd (adjoint (pet_lin_op c) (vsub (y_plus c s) (y s)))
       (gadjoint (op_G c) (fsub (w_plus c s) (w s))).

(** One pass of the body of [for i in range(num_iter_pdhg)]; the cost
    tracking and the copy [x_pdhg_early] do not feed back into the state. *)
Definition step (c : config) (s : state) : state :=
  let dz := delta_z c s in
  let z' := vadd (z s) dz in
  {| x_pdhg := x_next c s;
     y := smulv 1 (y_plus c s);
     w := fmuls (w_plus c s) 1;
     z := z';
     zbar := vadd z' dz |}.

(** The shapes of the loop variables. *)
Definition shaped (c : config) (m : nat) (s : state) : Prop :=
  length (x_pdhg s) = n_img c
  /\ length (y s) = m
  /\ (length (w s) = ndim c /\ rows_of (n_img c) (w s))
  /\ length (z s) = n_img c
  /\ length (zbar s) = n_img c.

(** The relation between the running sum and the dual variables. *)
Definition z_tracks_duals (c : config) (s : state) : Prop :=
  z s = vadd (adjoint (pet_lin_op c) (y s)) (gadjoint (op_G c) (w s)).

Fixpoint run (num_iter_pdhg : nat) (c : config) (s : state) : state :=
  match num_iter_pdhg with
  | O => s
  | S k => run k c (step c s)
  end.

End PDHG.

(** ** LM-SPDHG: the stochastic listmode loop *)

Module LMSPDHG.

Record config : Type := {
  lm_pet_subset_linop_seq : list LinearOperator;
  op_G : GradientOperator;
  n_img : nat;
  ndim : nat;
  contamination_list : arr;
  mu : arr;
  adjoint_ones : arr;
  S_A_lm : list arr;
  S_G : R;
  T_lm : arr;
  beta : R
}.

(** [subset_slices_lm] and [lm_pet_subset_linop_seq] are built with one entry
    per subset. *)
Definition num_subsets (c : config) : nat :=
  length (lm_pet_subset_linop_seq c).

Definition p_g : R := StepSize.p_g.
Definition p_a (c : config) : R := StepSize.p_a (num_subsets c).

Record state : Type := {
  x_lmspdhg : arr;
  ys : list arr;
  w_lm : stack;
  z : arr;
  zbar : arr
}.

Definition no_op : LinearOperator :=
  {| apply := fun _ => []; adjoint := fun _ => [] |}.

(** The step-size cell of the listmode loop; [S_G] and [T_G] are those of
    the PDHG cell. *)
Definition T_A_lm_rows (gamma rho : R) (ops : list LinearOperator)
    (mu : arr) : stack :=
  let num_subsets := length ops in
  map (fun k =>
         StepSize.T_A_lm_row gamma rho (StepSize.p_a num_subsets)
           (nth k ops no_op) (slice_from k num_subsets mu))
      (seq 0 num_subsets).

Definition setup (gamma rho beta op_G_norm : R)
    (ops : list LinearOperator) (op_G : GradientOperator)
    (n_img ndim : nat) (contamination_list mu adjoint_ones : arr)
  : option config :=
  match StepSize.S_A_lm gamma rho ops n_img with
  | None => None
  | Some S_A_lm =>
      let T_G := StepSize.T_G gamma rho op_G_norm in
      Some {| lm_pet_subset_linop_seq := ops;
              op_G := op_G;
              n_img := n_img;
              ndim := ndim;
              contamination_list := contamination_list;
              mu := mu;
              adjoint_ones := adjoint_ones;
              S_A_lm := S_A_lm;
              S_G := StepSize.S_G gamma rho op_G_norm;
              T_lm := StepSize.T_lm n_img (T_A_lm_rows gamma rho ops mu) T_G;
              beta := beta |}
  end.

(** [lm_pet_subset_linop_seq[k]], [S_A_lm[k]], [ys[k]], and the slices
    [mu[sl]], [contamination_list[sl]] for [sl = slice(k, None, num_subsets)]. *)
Definition lm_op (c : config) (k : nat) : LinearOperator :=
  nth k (lm_pet_subset_linop_seq c) no_op.
Definition S_k (c : config) (k : nat) : arr := nth k (S_A_lm c) [].
Definition ys_k (s : state) (k : nat) : arr := nth k (ys s) [].
Definition mu_sl (c : config) (k : nat) : arr :=
  slice_from k (num_subsets c) (mu c).
Definition contamination_sl (c : config) (k : nat) : arr :=
  slice_from k (num_subsets c) (contamination_list c).

(** Initialisation:
<<
    ys.append(1 - (mu[sl] / (lm_pet_subset_linop_seq[k](x_lmspdhg)
                             + contamination_list[sl])))
    z = 1.0 * adjoint_ones
    for k, sl in enumerate(subset_slices_lm):
        z += lm_pet_subset_linop_seq[k].adjoint((ys[k] - 1) / mu[sl])
    z += op_G.adjoint(w_lm)
    zbar = 1.0 * z
>> *)
Definition init (c : config) (x_mlem : arr) : state :=
  let x := smulv 1 x_mlem in
  let subsets := seq 0 (num_subsets c) in
  let ys :=
    map (fun k =>
           ssubv 1 (vdiv (mu_sl c k)
                         (vadd (apply (lm_op c k) x) (contamination_sl c k))))
        subsets in
  let w_lm := fzeros (ndim c) (n_img c) in
  let z :=
    fold_left
      (fun z k =>
         vadd z (adjoint (lm_op c k) (vdiv (vsubs (nth k ys []) 1) (mu_sl c k))))
      subsets (smulv 1 (adjoint_ones c)) in
  let z := vadd z (gadjoint (op_G c) w_lm) in
  {| x_lmspdhg := x; ys := ys; w_lm := w_lm; z := z; zbar := smulv 1 z |}.

Definition x_next (c : config) (s : state) : arr :=
  primal_update (x_lmspdhg s) (T_lm c) (zbar s).

(** Data block [k]:
<<
    y_plus = ys[k] + S_A_lm[k] * (
        lm_pet_subset_linop_seq[k](x_lmspdhg) + contamination_list[sl])
    y_plus = 0.5 * (y_plus + 1
                    - xp.sqrt((y_plus - 1) ** 2 + 4 * S_A_lm[k] * mu[sl]))
    dz = lm_pet_subset_linop_seq[k].adjoint((y_plus - ys[k]) / mu[sl])
>> *)
Definition y_candidate (c : config) (s : state) (k : nat) : arr :=
  vadd (ys_k s k)
       (vmul (S_k c k)
             (vadd (apply (lm_op c k) (x_next c s)) (contamination_sl c k))).

Definition y_plus (c : config) (s : state) (k : nat) : arr :=
  prox_poisson_dual (y_candidate c s k) (S_k c k) (mu_sl c k).

Definition dz_data (c : config) (s : state) (k : nat) : arr :=
  adjoint (lm_op c k) (vdiv (vsub (y_plus c s k) (ys_k s k)) (mu_sl c k)).

(** Gradient block. *)
Definition w_plus (c : config) (s : state) : stack :=
  tv_dual_update (n_img c) (w_lm s) (S_G c) (gapply (op_G c) (x_next c s))
                 (beta c).

Definition dz_grad (c : config) (s : state) : arr :=
  gadjoint (op_G c) (fsub (w_plus c s) (w_lm s)).

(** The two branches of [if k < num_subsets]: the new [ys], the new [w_lm],
    [dz] and [p]. *)
Definition block_update (c : config) (s : state) (k : nat)
  : list arr * stack * arr * R :=
  if (k <? num_subsets c)%nat
  then (setitem (ys s) k (y_plus c s k), w_lm s, dz_data c s k, p_a c)
  else (ys s, fmuls (w_plus c s) 1, dz_grad c s, p_g).

(** The values of [dz] and [p] when the branch is left. *)
Definition delta_z (c : config) (s : state) (k : nat) : arr :=
  let '(_, _, dz, _) := block_update c s k in dz.
Definition p_selected (c : config) (s : state) (k : nat) : R :=
  let '(_, _, _, p) := block_update c s k in p.

(** One pass of the body of [for k in subset_sequence]. *)
Definition step (c : config) (s : state) (k : nat) : state :=
  let '(ys', w', dz, p) := block_update c s k in
  let z' := vadd (z s) dz in
  {| x_lmspdhg := x_next c s;
     ys := ys';
     w_lm := w';
     z := z';
     zbar := vadd z' (vdivs dz p) |}.

Definition inner_loop (c : config) (subset_sequence : list nat) (s : state)
  : state :=
  fold_left (step c) subset_sequence s.

(** The global generator of [np.random]: a state, and
    [np.random.permutation(n)], which reads and advances it. *)
Record NpRandom : Type := {
  rng_state : Type;
  permutation : rng_state -> nat -> list nat * rng_state
}.

(** One pass of the body of [for i in range(num_iter_spdhg)]:
    [subset_sequence = np.random.permutation(2 * num_subsets)] then the
    inner loop. *)
Definition epoch (rnd : NpRandom) (c : config)
    (gs : rng_state rnd * state) : rng_state rnd * state :=
  let '(subset_sequence, g') :=
    permutation rnd (fst gs) (2 * num_subsets c) in
  (g', inner_loop c subset_sequence (snd gs)).

Fixpoint run (rnd : NpRandom) (num_iter_spdhg : nat) (c : config)
    (gs : rng_state rnd * state) : rng_state rnd * state :=
  match num_iter_spdhg with
  | O => gs
  | S i => run rnd i c (epoch rnd c gs)
  end.

(** The block sequences drawn by [num_iter_spdhg] epochs, in order. *)
Fixpoint drawn (rnd : NpRandom) (num_iter_spdhg n : nat) (g : rng_state rnd)
  : list nat :=
  match num_iter_spdhg with
  | O => []
  | S i =>
      let '(subset_sequence, g') := permutation rnd g n in
      subset_sequence ++ drawn rnd i n g'
  end.

End LMSPDHG.

(** ** A two-voxel instance

    A concrete problem on which the statements below are exercised: two
    voxels, two measurement bins, the identity as projector and a
    one-direction operator in the place of the finite difference. *)

Module Toy.

Definition id_op : LinearOperator :=
  {| apply := fun v => v; adjoint := fun v => v |}.

(** The 1 x 2 matrix [(1 0)]: one bin that sees the first voxel only. *)
Definition first_voxel_op : LinearOperator :=
  {| apply := fun v => [nth 0 v 0]; adjoint := fun u => [nth 0 u 0; 0] |}.

Definition one_row_op : GradientOperator :=
  {| gapply := fun v => [v]; gadjoint := fun f => nth 0 f [] |}.

Definition pdhg_config : PDHG.config :=
  {| PDHG.pet_lin_op := id_op;
     PDHG.op_G := one_row_op;
     PDHG.n_img := 2;
     PDHG.ndim := 1;
     PDHG.contamination := [1; 1];
     PDHG.d := [2; 0];
     PDHG.S_A := [1; 1];
     PDHG.S_G := 1;
     PDHG.T := [1; 1];
     PDHG.beta := 1 |}.

(** The same problem with a dual step that vanishes at the first bin. *)
Definition pdhg_config_zero_step : PDHG.config :=
  {| PDHG.pet_lin_op := id_op;
     PDHG.op_G := one_row_op;
     PDHG.n_img := 2;
     PDHG.ndim := 1;
     PDHG.contamination := [1; 1];
     PDHG.d := [2; 0];
     PDHG.S_A := [0; 1];
     PDHG.S_G := 1;
     PDHG.T := [1; 1];
     PDHG.beta := 1 |}.

Definition x_mlem : arr := [1; 2].

Definition pdhg_state : PDHG.state := PDHG.init pdhg_config x_mlem.

(** Two subsets of one event each. *)
Definition lm_config : LMSPDHG.config :=
  {| LMSPDHG.lm_pet_subset_linop_seq := [id_op; id_op];
     LMSPDHG.op_G := one_row_op;
     LMSPDHG.n_img := 1;
     LMSPDHG.ndim := 1;
     LMSPDHG.contamination_list := [1; 1];
     LMSPDHG.mu := [1; 2];
     LMSPDHG.adjoint_ones := [2];
     LMSPDHG.S_A_lm := [[1]; [1]];
     LMSPDHG.S_G := 1;
     LMSPDHG.T_lm := [1];
     LMSPDHG.beta := 1 |}.

Definition lm_state : LMSPDHG.state := LMSPDHG.init lm_config [1].

(** The configurations that the step-size cells produce for this problem
    with [gamma = rho = beta = op_G_norm = 1]. *)
Definition pdhg_setup : option PDHG.config :=
  PDHG.setup 1 1 1 1 id_op one_row_op 2 2 1 [1; 1] [2; 0].

Definition lm_setup : option LMSPDHG.config :=
  LMSPDHG.setup 1 1 1 1 [id_op; id_op] one_row_op 1 1 [1; 1] [1; 2] [2].

(** A generator whose state is a counter: the [g]-th draw of
    [permutation(n)] is [0, ..., n-1] rotated by [g]. *)
Definition rotating : LMSPDHG.NpRandom :=
  {| LMSPDHG.rng_state := nat;
     LMSPDHG.permutation :=
       fun g n => (map (fun i => Nat.modulo (i + g) n) (seq 0 n), S g) |}.

End Toy.

(** ** MLEM: the initialiser of both loops *)

Module MLEM.

(** [adjoint_ones = pet_lin_op.adjoint(xp.ones(pet_lin_op.out_shape))] *)
Definition adjoint_ones (pet_lin_op : LinearOperator) (n_data : nat) : arr :=
  adjoint pet_lin_op (ones n_data).

(** One pass of the body of [for i in range(num_iter_mlem)]:
<<
    dbar = pet_lin_op(x_mlem) + contamination
    x_mlem *= pet_lin_op.adjoint(d / dbar) / adjoint_ones
>> *)
Definition step (pet_lin_op : LinearOperator) (contamination d : arr)
    (adjoint_ones : arr) (x_mlem : arr) : arr :=
  let dbar := vadd (apply pet_lin_op x_mlem) contamination in
  vmul x_mlem (vdiv (adjoint pet_lin_op (vdiv d dbar)) adjoint_ones).

Fixpoint run (num_iter_mlem : nat) (pet_lin_op : LinearOperator)
    (contamination d : arr) (adjoint_ones : arr) (x_mlem : arr) : arr :=
  match num_iter_mlem with
  | O => x_mlem
  | S i =>
      run i pet_lin_op contamination d adjoint_ones
          (step pet_lin_op contamination d adjoint_ones x_mlem)
  end.

(** The whole cell, from [x_mlem = xp.ones(pet_lin_op.in_shape)]. *)
Definition x_mlem (num_iter_mlem : nat) (pet_lin_op : LinearOperator)
    (n_img n_data : nat) (contamination d : arr) : arr :=
  run num_iter_mlem pet_lin_op contamination d
      (adjoint_ones pet_lin_op n_data) (ones n_img).

End MLEM.

(** ** The cost function *)

Module Cost.

(** [xp.sum(a)] and [xp.log(a)]. *)
Definition xp_sum (a : arr) : R := fold_right Rplus 0 a.
Definition vlog (a : arr) : arr := map ln a.

(** The two terms of
<<
    def cost_function(img):
        exp = pet_lin_op(img) + contamination
        res = float(xp.sum(exp - d * xp.log(exp)))
        res += beta * float(xp.sum(xp.linalg.vector_norm(op_G(img), axis=0)))
        return res
>>
    over the globals that the PDHG cells define. *)
Definition expectation (c : PDHG.config) (img : arr) : arr :=
  vadd (apply (PDHG.pet_lin_op c) img) (PDHG.contamination c).

Definition data_term (c : PDHG.config) (img : arr) : R :=
  let exp := expectation c img in
  xp_sum (vsub exp (vmul (PDHG.d c) (vlog exp))).

Definition tv_term (c : PDHG.config) (img : arr) : R :=
  xp_sum (vector_norm_axis0 (PDHG.n_img c) (gapply (PDHG.op_G c) img)).

Definition cost_function (c : PDHG.config) (img : arr) : R :=
  let res := data_term c img in
  res + PDHG.beta c * tv_term c img.

(** The smallest value of [e - d * log e] over [e > 0], used to bound the
    data term from below. *)
Definition poisson_floor (d : R) : R :=
  if Reqb d 0 then 0 else d - d * ln d.

End Cost.

(** ** The running sum of LM-SPDHG against its dual variables *)

Module LMInvariant.

Import LMSPDHG.

(** The contribution of subset [k] to [z]:
    [lm_pet_subset_linop_seq[k].adjoint((ys[k] - 1) / mu[sl])]. *)
Definition subset_term (c : config) (s : state) (k : nat) : arr :=
  adjoint (lm_op c k) (vdiv (vsubs (ys_k s k) 1) (mu_sl c k)).

(** The value that the initialisation cell gives to [z], read with the
    current [ys] and [w_lm]. *)
Definition z_of_duals (c : config) (s : state) : arr :=
  vadd (fold_left (fun z k => vadd z (subset_term c s k))
                  (seq 0 (num_subsets c)) (smulv 1 (adjoint_ones c)))
       (gadjoint (op_G c) (w_lm s)).

Definition z_tracks_duals (c : config) (s : state) : Prop :=
  z s = z_of_duals c s.

(** Shapes of the operators and arrays of a listmode problem, and additivity
    of the adjoints on arrays of the right shape. *)
Record well_formed (c : config) : Prop := {
  wf_apply : forall k v, (k < num_subsets c)%nat -> length v = n_img c ->
      length (apply (lm_op c k) v) = length (mu_sl c k);
  wf_adjoint : forall k v, (k < num_subsets c)%nat ->
      length v = length (mu_sl c k) ->
      length (adjoint (lm_op c k) v) = n_img c;
  wf_S_k : forall k, (k < num_subsets c)%nat ->
      length (S_k c k) = length (mu_sl c k);
  wf_contamination : forall k, (k < num_subsets c)%nat ->
      length (contamination_sl c k) = length (mu_sl c k);
  wf_gapply : forall v, length v = n_img c ->
      length (gapply (op_G c) v) = ndim c
      /\ rows_of (n_img c) (gapply (op_G c) v);
  wf_gadjoint : forall f, length f = ndim c -> rows_of (n_img c) f ->
      length (gadjoint (op_G c) f) = n_img c;
  wf_adjoint_ones : length (adjoint_ones c) = n_img c;
  wf_T_lm : length (T_lm c) = n_img c;
  adjoint_add : forall k a b, (k < num_subsets c)%nat ->
      length a = length (mu_sl c k) -> length b = length (mu_sl c k) ->
      adjoint (lm_op c k) (vadd a b)
      = vadd (adjoint (lm_op c k) a) (adjoint (lm_op c k) b);
  gadjoint_sub : forall f g,
      length f = ndim c -> rows_of (n_img c) f ->
      length g = ndim c -> rows_of (n_img c) g ->
      gadjoint (op_G c) (fsub f g)
      = vsub (gadjoint (op_G c) f) (gadjoint (op_G c) g)
}.

(** The shapes of the loop variables. *)
Definition shaped (c : config) (s : state) : Prop :=
  length (x_lmspdhg s) = n_img c
  /\ length (ys s) = num_subsets c
  /\ (forall k, (k < num_subsets c)%nat ->
                length (ys_k s k) = length (mu_sl c k))
  /\ (length (w_lm s) = ndim c /\ rows_of (n_img c) (w_lm s))
  /\ length (z s) = n_img c
  /\ length (zbar s) = n_img c.

End LMInvariant.

(** ** The attenuation factors of the simulation *)

Module Simulation.

(** [xp.astype(b, xp.float32)], [-a] and [xp.exp(a)]. *)
Definition astype_float (b : list bool) : arr :=
  map (fun t : bool => if t then 1 else 0) b.
Definition vneg (a : arr) : arr := map Ropp a.
Definition vexp (a : arr) : arr := map exp a.

(** [x_att = 0.01 * xp.astype(x_true > 0, xp.float32)] *)
Definition x_att (x_true : arr) : arr :=
  smulv 0.01 (astype_float (vgts x_true 0)).

(** [att_sino = xp.exp(-proj(x_att))]; the listmode cell computes
    [subset_att_list] from each subset projector in the same way. *)
Definition att_sino (proj : LinearOperator) (x_true : arr) : arr :=
  vexp (vneg (apply proj (x_att x_true))).

End Simulation.

(** ** Quotients with a zero divisor

    The step-size cells divide by sensitivities that can be zero.  The array
    API then returns an infinity or a not-a-number, values which the
    comparison [<] and the reduction [xp.min] treat in their own way.  To
    follow a zero divisor through these cells, the quotient of two finite
    numbers is given its value in the extended set below; the numerators
    ([gamma * rho], [(1 / gamma) * rho], [rho * p_a / gamma]) are finite for
    a non-zero [gamma]. *)

Module Ieee.

Inductive xreal : Type :=
| Fin (r : R)
| PInf
| NInf
| NaN.

(** [c / v]: a non-zero divisor gives the real quotient; a zero divisor
    gives the infinity with the sign of [c], and not-a-number for [0 / 0].
    The zero is the positive one: the divisors are sums of non-negative
    weights. *)
Definition xdiv (c v : R) : xreal :=
  if Reqb v 0
  then if Rltb 0 c then PInf else if Rltb c 0 then NInf else NaN
  else Fin (c / v).

(** [a < b]: every comparison with a not-a-number is false. *)
Definition xltb (a b : xreal) : bool :=
  match a, b with
  | NaN, _ | _, NaN => false
  | Fin x, Fin y => Rltb x y
  | Fin _, PInf => true
  | Fin _, NInf => false
  | PInf, _ => false
  | NInf, NInf => false
  | NInf, _ => true
  end.

(** The minimum of two values as [xp.min] reduces them: a not-a-number
    propagates. *)
Definition xmin (a b : xreal) : xreal :=
  match a, b with
  | NaN, _ | _, NaN => NaN
  | _, _ => if xltb b a then b else a
  end.

(** [s / a] for a scalar [s] and an array [a]. *)
Definition sdivv (s : R) (a : arr) : list xreal := map (xdiv s) a.

(** [xp.where(c, a, b)] and [xp.min(f, axis=0)] on such values. *)
Fixpoint where_ (c : list bool) (a b : list xreal) : list xreal :=
  match c, a, b with
  | t :: c', u :: a', v :: b' => (if t then u else v) :: where_ c' a' b'
  | _, _, _ => []
  end.

Definition min_axis0 (f : list (list xreal)) : list xreal :=
  match f with
  | [] => []
  | r :: f' => fold_left (zipWith xmin) f' r
  end.

(** The step-size cells once more, with these quotients.
<<
    S_A = gamma * rho / tmp                      (tmp after the replacement)
    T_A = (1 / gamma) * rho / pet_lin_op.adjoint(xp.ones(out_shape))
    T_G = (1 / gamma) * rho / op_G_norm
    T = xp.where(T_A < T_G, T_A, xp.full(in_shape, T_G))
>> *)
Definition dual_step (gamma rho : R) (op : LinearOperator) (n_img : nat)
  : option (list xreal) :=
  match StepSize.replace_zeros (apply op (ones n_img)) with
  | None => None
  | Some tmp => Some (sdivv (gamma * rho) tmp)
  end.

Definition T_A (gamma rho : R) (op : LinearOperator) (n_data : nat)
  : list xreal :=
  sdivv ((1 / gamma) * rho) (adjoint op (ones n_data)).

Definition T_G (gamma rho op_G_norm : R) : xreal :=
  xdiv ((1 / gamma) * rho) op_G_norm.

Definition T (n_img : nat) (T_A : list xreal) (T_G : xreal) : list xreal :=
  where_ (map (fun a => xltb a T_G) T_A) T_A (repeat T_G n_img).

(** The listmode cell:
<<
    tmp = lm_pet_subset_linop_seq[k].adjoint(1 / mu[sl])
    T_A_lm[k] = (rho * p_a / gamma) / tmp
    T_A_lm[-1] = T_G
    T_lm = xp.min(T_A_lm, axis=0)
>>
    [mu] holds the multiplicity of every event, a count of at least one, so
    that [1 / mu[sl]] is a quotient of reals. *)
Definition T_A_lm_row (gamma rho p : R) (lm_op : LinearOperator)
    (mu_sl : arr) : list xreal :=
  sdivv (rho * p / gamma) (adjoint lm_op (Arr.sdivv 1 mu_sl)).

Definition T_A_lm_rows (gamma rho : R) (ops : list LinearOperator)
    (mu : arr) : list (list xreal) :=
  let num_subsets := length ops in
  map (fun k =>
         T_A_lm_row gamma rho (StepSize.p_a num_subsets)
           (nth k ops LMSPDHG.no_op) (slice_from k num_subsets mu))
      (seq 0 num_subsets).

Definition T_lm (n_img : nat) (rows : list (list xreal)) (T_G : xreal)
  : list xreal :=
  min_axis0 (rows ++ [repeat T_G n_img]).

(** The reduction of one non-empty column of a stack by [xmin]. *)
Definition column_min (col : list xreal) : xreal :=
  match col with
  | [] => NaN
  | a :: col' => fold_left xmin col' a
  end.

(** A strictly positive value, finite or not. *)
Definition positive_or_inf (x : xreal) : Prop :=
  match x with
  | Fin r => 0 < r
  | PInf => True
  | NInf | NaN => False
  end.

(** A finite, strictly positive value. *)
Definition finite_positive (x : xreal) : Prop :=
  exists t, x = Fin t /\ 0 < t.

End Ieee.

(** ** A problem with a voxel that no measurement sees *)

Module Blind.

(** Two voxels, one bin that sees the first voxel only; one listmode subset
    of one event. *)
Definition pdhg_setup : option PDHG.config :=
  PDHG.setup 2 0.5 1 1 Toy.first_voxel_op Toy.one_row_op 2 1 1 [1] [2].

Definition lm_setup : option LMSPDHG.config :=
  LMSPDHG.setup 2 0.5 1 1 [Toy.first_voxel_op] Toy.one_row_op 2 1
    [1] [1] [1; 0].

End Blind.

(** * Properties *)

(** ** The list operations on small inputs *)

Example slice_from_1_2 : slice_from 1 2 [10; 11; 12; 13; 14] = [11; 13].
Proof. reflexivity. Qed.

Example slice_from_0_3 : slice_from 0 3 [10; 11; 12; 13; 14] = [10; 13].
Proof. reflexivity. Qed.

Example setitem_in_range : setitem [[1]; [2]; [3]] 1 [7; 8] = [[1]; [7; 8]; [3]].
Proof. reflexivity. Qed.

Example rotating_draw :
  LMSPDHG.permutation Toy.rotating 2%nat 4 = ([2; 3; 0; 1]%nat, 3%nat).
Proof. reflexivity. Qed.

Example min_axis0_two_rows :
  length (min_axis0 [[1; 5]; [3; 2]]) = 2%nat.
Proof. reflexivity. Qed.

(** ** Facts about array operations *)

Section ArrFacts.

Lemma length_zipWith (A B C : Type) (f : A -> B -> C) a b :
  length (zipWith f a b) = Nat.min (length a) (length b).
Proof.
  revert b; induction a as [|u a IH]; intros [|v b]; simpl; auto.
Qed.

Lemma nth_zipWith (A B C : Type) (f : A -> B -> C) a b j da db dc :
  (j < length a)%nat -> (j < length b)%nat ->
  nth j (zipWith f a b) dc = f (nth j a da) (nth j b db).
Proof.
  revert b j; induction a as [|u a IH]; intros [|v b] [|j]; simpl;
    try lia; auto.
  intros Ha Hb; apply IH; lia.
Qed.

Lemma at_map (f : R -> R) a j :
  (j < length a)%nat -> at_ (map f a) j = f (at_ a j).
Proof.
  intros Hj; unfold at_.
  rewrite (nth_indep _ 0 (f 0)) by (rewrite length_map; exact Hj).
  apply map_nth.
Qed.

Lemma at_zipWith (f : R -> R -> R) a b j :
  (j < length a)%nat -> (j < length b)%nat ->
  at_ (zipWith f a b) j = f (at_ a j) (at_ b j).
Proof. intros; unfold at_; now apply nth_zipWith. Qed.

Lemma length_full n s : length (full n s) = n.
Proof. apply repeat_length. Qed.

Lemma at_full n s j : (j < n)%nat -> at_ (full n s) j = s.
Proof. intros Hj; unfold at_, full; now apply nth_repeat_lt. Qed.

Lemma length_where c a b :
  length (where_ c a b)
  = Nat.min (length c) (Nat.min (length a) (length b)).
Proof.
  revert a b; induction c as [|t c IH]; intros [|u a] [|v b]; simpl; auto.
Qed.

Lemma at_where c a b j :
  (j < length c)%nat -> (j < length a)%nat -> (j < length b)%nat ->
  at_ (where_ c a b) j = if nth j c false then at_ a j else at_ b j.
Proof.
  unfold at_; revert a b j; induction c as [|t c IH];
    intros [|u a] [|v b] [|j]; simpl; try lia; auto.
  intros Hc Ha Hb; apply IH; lia.
Qed.

Lemma nth_vlts a s j :
  (j < length a)%nat -> nth j (vlts a s) false = Rltb (at_ a j) s.
Proof.
  intros Hj; unfold vlts, at_.
  rewrite (nth_indep _ false (Rltb 0 s)) by (rewrite length_map; exact Hj).
  apply (map_nth (fun v => Rltb v s)).
Qed.

Lemma smulv_1 a : smulv 1 a = a.
Proof.
  unfold smulv; induction a as [|u a IH]; simpl; auto.
  rewrite IH; f_equal; lra.
Qed.

Lemma fmuls_1 f : fmuls f 1 = f.
Proof.
  unfold fmuls; induction f as [|r f IH]; simpl; auto.
  now rewrite IH, smulv_1.
Qed.

Lemma length_setitem (A : Type) (l : list A) k v :
  length (setitem l k v) = length l.
Proof.
  revert k; induction l as [|u l IH]; intros [|k]; simpl; auto.
Qed.

Lemma nth_setitem_same (A : Type) (l : list A) k v dflt :
  (k < length l)%nat -> nth k (setitem l k v) dflt = v.
Proof.
  revert k; induction l as [|u l IH]; intros [|k]; simpl; try lia; auto.
  intros Hk; apply IH; lia.
Qed.

End ArrFacts.

(** ** Poisson prox *)

Lemma length_prox_poisson_dual yc S d :
  length (prox_poisson_dual yc S d)
  = Nat.min (length yc) (Nat.min (length S) (length d)).
Proof.
  unfold prox_poisson_dual, smulv, vsub, vadds, vsqrt, vadd, vsquare, vsubs,
    vmul.
  repeat (rewrite ?length_map, ?length_zipWith). lia.
Qed.

(** The array expression of the loops is the scalar formula, entry by
    entry. *)
Lemma at_prox_poisson_dual yc S d j :
  (j < length yc)%nat -> (j < length S)%nat -> (j < length d)%nat ->
  at_ (prox_poisson_dual yc S d) j
  = poisson_prox_spec (at_ yc j) (at_ S j) (at_ d j).
Proof.
  intros Hy HS Hd. unfold prox_poisson_dual, poisson_prox_spec.
  unfold smulv at 1. rewrite at_map.
  2:{ unfold vsub, vadds, vsqrt, vadd, vsquare, vsubs, vmul, smulv.
      repeat (rewrite ?length_map, ?length_zipWith). lia. }
  f_equal. unfold vsub. rewrite at_zipWith.
  2:{ unfold vadds; rewrite length_map; lia. }
  2:{ unfold vsqrt, vadd, vsquare, vsubs, vmul, smulv.
      repeat (rewrite ?length_map, ?length_zipWith). lia. }
  unfold vadds at 1. rewrite at_map by lia. f_equal.
  unfold vsqrt. rewrite at_map.
  2:{ unfold vadd, vsquare, vsubs, vmul, smulv.
      repeat (rewrite ?length_map, ?length_zipWith). lia. }
  f_equal. unfold vadd. rewrite at_zipWith.
  2:{ unfold vsquare, vsubs; rewrite !length_map; lia. }
  2:{ unfold vmul, smulv; rewrite length_zipWith, length_map; lia. }
  unfold vsquare. rewrite at_map by (unfold vsubs; rewrite length_map; lia).
  unfold vsubs. rewrite at_map by lia.
  unfold vmul. rewrite at_zipWith by (unfold smulv; rewrite ?length_map; lia).
  unfold smulv. rewrite at_map by lia. reflexivity.
Qed.

(** Shape side conditions on concrete arrays. *)
Ltac shape :=
  unfold LMSPDHG.num_subsets, LMSPDHG.ys_k, LMSPDHG.S_k, LMSPDHG.mu_sl,
    LMSPDHG.contamination_sl, rows_of;
  simpl;
  repeat (apply Forall_cons || apply Forall_nil);
  try reflexivity; try lia.

(** ** The dual data update of both loops *)

Lemma pdhg_y_step c s : PDHG.y (PDHG.step c s) = PDHG.y_plus c s.
Proof. unfold PDHG.step; simpl. apply smulv_1. Qed.

Lemma lm_step_data c s k :
  (k < LMSPDHG.num_subsets c)%nat ->
  LMSPDHG.step c s k
  = let z' := vadd (LMSPDHG.z s) (LMSPDHG.dz_data c s k) in
    {| LMSPDHG.x_lmspdhg := LMSPDHG.x_next c s;
       LMSPDHG.ys := setitem (LMSPDHG.ys s) k (LMSPDHG.y_plus c s k);
       LMSPDHG.w_lm := LMSPDHG.w_lm s;
       LMSPDHG.z := z';
       LMSPDHG.zbar :=
         vadd z' (vdivs (LMSPDHG.dz_data c s k) (LMSPDHG.p_a c)) |}.
Proof.
  intros Hk. unfold LMSPDHG.step, LMSPDHG.block_update.
  apply Nat.ltb_lt in Hk. now rewrite Hk.
Qed.

Lemma lm_step_grad c s k :
  (LMSPDHG.num_subsets c <= k)%nat ->
  LMSPDHG.step c s k
  = let z' := vadd (LMSPDHG.z s) (LMSPDHG.dz_grad c s) in
    {| LMSPDHG.x_lmspdhg := LMSPDHG.x_next c s;
       LMSPDHG.ys := LMSPDHG.ys s;
       LMSPDHG.w_lm := LMSPDHG.w_plus c s;
       LMSPDHG.z := z';
       LMSPDHG.zbar :=
         vadd z' (vdivs (LMSPDHG.dz_grad c s) LMSPDHG.p_g) |}.
Proof.
  intros Hk. unfold LMSPDHG.step, LMSPDHG.block_update.
  apply Nat.ltb_ge in Hk. rewrite Hk. simpl. now rewrite fmuls_1.
Qed.

Lemma lm_ys_step_data c s k :
  (k < LMSPDHG.num_subsets c)%nat -> (k < length (LMSPDHG.ys s))%nat ->
  LMSPDHG.ys_k (LMSPDHG.step c s k) k = LMSPDHG.y_plus c s k.
Proof.
  intros Hk Hy. rewrite lm_step_data by exact Hk.
  unfold LMSPDHG.ys_k; simpl. now apply nth_setitem_same.
Qed.

(** C1. In both loops the dual data update is the Poisson conjugate prox
    applied entry by entry: with [yc] the array handed to the prox
    ([y + S_A * (A x + s)] in PDHG, the same on subset [k] in LM-SPDHG), the
    new dual entry [j] is
    [0.5 * (yc_j + 1 - sqrt ((yc_j - 1)^2 + 4 * S_j * d_j))], where the count
    [d_j] is the sinogram count in PDHG and the multiplicity [mu[sl]_j] in
    LM-SPDHG.  The expression is a closed form: no loop is involved. *)
Theorem dual_data_update_is_poisson_prox :
  (forall (c : PDHG.config) (s : PDHG.state) (j : nat),
      (j < length (PDHG.y_candidate c s))%nat ->
      (j < length (PDHG.S_A c))%nat ->
      (j < length (PDHG.d c))%nat ->
      at_ (PDHG.y (PDHG.step c s)) j
      = 0.5 * (at_ (PDHG.y_candidate c s) j + 1
               - sqrt ((at_ (PDHG.y_candidate c s) j - 1) ^ 2
                       + 4 * at_ (PDHG.S_A c) j * at_ (PDHG.d c) j)))
  /\
  (forall (c : LMSPDHG.config) (s : LMSPDHG.state) (k j : nat),
      (k < LMSPDHG.num_subsets c)%nat ->
      (k < length (LMSPDHG.ys s))%nat ->
      (j < length (LMSPDHG.y_candidate c s k))%nat ->
      (j < length (LMSPDHG.S_k c k))%nat ->
      (j < length (LMSPDHG.mu_sl c k))%nat ->
      at_ (LMSPDHG.ys_k (LMSPDHG.step c s k) k) j
      = 0.5 * (at_ (LMSPDHG.y_candidate c s k) j + 1
               - sqrt ((at_ (LMSPDHG.y_candidate c s k) j - 1) ^ 2
                       + 4 * at_ (LMSPDHG.S_k c k) j
                         * at_ (LMSPDHG.mu_sl c k) j))).
Proof.
  split.
  - intros c s j Hy HS Hd. rewrite pdhg_y_step. unfold PDHG.y_plus.
    now rewrite at_prox_poisson_dual.
  - intros c s k j Hk Hys Hy HS Hd. rewrite lm_ys_step_data by assumption.
    unfold LMSPDHG.y_plus. now rewrite at_prox_poisson_dual.
Qed.

Lemma dual_data_update_is_poisson_prox_witness :
  at_ (PDHG.y (PDHG.step Toy.pdhg_config Toy.pdhg_state)) 0
  = 0.5 * (at_ (PDHG.y_candidate Toy.pdhg_config Toy.pdhg_state) 0 + 1
           - sqrt ((at_ (PDHG.y_candidate Toy.pdhg_config Toy.pdhg_state) 0
                    - 1) ^ 2
                   + 4 * at_ (PDHG.S_A Toy.pdhg_config) 0
                     * at_ (PDHG.d Toy.pdhg_config) 0))
  /\
  at_ (LMSPDHG.ys_k (LMSPDHG.step Toy.lm_config Toy.lm_state 1) 1) 0
  = 0.5 * (at_ (LMSPDHG.y_candidate Toy.lm_config Toy.lm_state 1) 0 + 1
           - sqrt ((at_ (LMSPDHG.y_candidate Toy.lm_config Toy.lm_state 1) 0
                    - 1) ^ 2
                   + 4 * at_ (LMSPDHG.S_k Toy.lm_config 1) 0
                     * at_ (LMSPDHG.mu_sl Toy.lm_config 1) 0)).
Proof.
  split.
  - apply (proj1 dual_data_update_is_poisson_prox); shape.
  - apply (proj2 dual_data_update_is_poisson_prox); shape.
Defined.

(** ** The Poisson prox on one entry *)

Lemma poisson_prox_spec_S0 y d : poisson_prox_spec y 0 d = Rmin y 1.
Proof.
  unfold poisson_prox_spec.
  replace ((y - 1) ^ 2 + 4 * 0 * d) with (Rsqr (y - 1)) by (unfold Rsqr; ring).
  rewrite sqrt_Rsqr_abs.
  unfold Rabs, Rmin.
  destruct (Rcase_abs (y - 1)); destruct (Rle_dec y 1); lra.
Qed.

Lemma poisson_prox_spec_le_1 y S d :
  0 <= S -> 0 <= d -> poisson_prox_spec y S d <= 1.
Proof.
  intros HS Hd. unfold poisson_prox_spec.
  assert (Hsd : 0 <= 4 * S * d).
  { apply Rmult_le_pos; [lra | exact Hd]. }
  assert (Habs : Rabs (y - 1) <= sqrt ((y - 1) ^ 2 + 4 * S * d)).
  { rewrite <- sqrt_Rsqr_abs. apply sqrt_le_1_alt. unfold Rsqr. lra. }
  pose proof (Rle_abs (y - 1)). lra.
Qed.

Lemma prox_poisson_dual_cons u yc v S t d :
  prox_poisson_dual (u :: yc) (v :: S) (t :: d)
  = poisson_prox_spec u v t :: prox_poisson_dual yc S d.
Proof. reflexivity. Qed.

Lemma prox_poisson_dual_le_1 yc S d :
  Forall (fun v => 0 <= v) S -> Forall (fun v => 0 <= v) d ->
  Forall (fun v => v <= 1) (prox_poisson_dual yc S d).
Proof.
  intros HS; revert yc d.
  induction HS as [|v S Hv HS IH]; intros yc d Hd.
  - destruct yc; [constructor|]. destruct d; constructor.
  - destruct yc as [|u yc]; [constructor|].
    destruct Hd as [|t d Ht Hd]; [constructor|].
    rewrite prox_poisson_dual_cons. constructor.
    + now apply poisson_prox_spec_le_1.
    + now apply IH.
Qed.

Lemma Forall_skipn (A : Type) (P : A -> Prop) k (l : list A) :
  Forall P l -> Forall P (skipn k l).
Proof.
  revert l; induction k as [|k IH]; intros l Hl; simpl; auto.
  destruct Hl; [constructor | now apply IH].
Qed.

Lemma Forall_stride (P : R -> Prop) fuel step a :
  Forall P a -> Forall P (stride fuel step a).
Proof.
  revert a; induction fuel as [|fuel IH]; intros a Ha; simpl.
  - constructor.
  - destruct Ha as [|u a Hu Ha]; constructor; auto.
    apply IH. apply Forall_skipn. now constructor.
Qed.

Lemma Forall_slice_from (P : R -> Prop) start step a :
  Forall P a -> Forall P (slice_from start step a).
Proof.
  intros Ha. unfold slice_from. apply Forall_stride. now apply Forall_skipn.
Qed.

Lemma Forall_nth_row (P : R -> Prop) (f : stack) k :
  Forall (Forall P) f -> Forall P (nth k f []).
Proof.
  intros Hf. destruct (Nat.lt_ge_cases k (length f)) as [Hk|Hk].
  - rewrite Forall_forall in Hf. apply Hf. now apply nth_In.
  - rewrite nth_overflow by exact Hk. constructor.
Qed.

Lemma nth_setitem_other (A : Type) (l : list A) i k v dflt :
  i <> k -> nth i (setitem l k v) dflt = nth i l dflt.
Proof.
  revert i k; induction l as [|u l IH]; intros [|i] [|k] Hik; simpl; auto;
    try lia.
Qed.

Lemma setitem_overflow (A : Type) (l : list A) k v :
  (length l <= k)%nat -> setitem l k v = l.
Proof.
  revert k; induction l as [|u l IH]; intros [|k]; simpl; auto; try lia.
  intros Hk. f_equal. apply IH. lia.
Qed.

Lemma lm_ys_step c s k i :
  LMSPDHG.ys_k (LMSPDHG.step c s k) i
  = if ((k <? LMSPDHG.num_subsets c) && (i =? k)
        && (k <? length (LMSPDHG.ys s)))%nat%bool
    then LMSPDHG.y_plus c s k
    else LMSPDHG.ys_k s i.
Proof.
  destruct (Nat.ltb_spec k (LMSPDHG.num_subsets c)) as [Hk|Hk]; simpl.
  - rewrite lm_step_data by exact Hk. unfold LMSPDHG.ys_k; simpl.
    destruct (Nat.eqb_spec i k) as [->|Hik]; simpl.
    + destruct (Nat.ltb_spec k (length (LMSPDHG.ys s))) as [Hl|Hl].
      * now apply nth_setitem_same.
      * now rewrite setitem_overflow.
    + now apply nth_setitem_other.
  - rewrite lm_step_grad by exact Hk. reflexivity.
Qed.

Lemma pdhg_run_S n c s :
  PDHG.run (S n) c s = PDHG.step c (PDHG.run n c s).
Proof.
  revert s; induction n as [|n IH]; intros s; [reflexivity|].
  change (PDHG.run (S (S n)) c s) with (PDHG.run (S n) c (PDHG.step c s)).
  now rewrite IH.
Qed.

(** With a zero step entry the dual data update of the PDHG loop is
    [min (yc_j, 1)] at that entry, whatever the count. *)
Lemma pdhg_y_step_zero_step (c : PDHG.config) (s : PDHG.state) (j : nat) :
  (j < length (PDHG.y_candidate c s))%nat ->
  (j < length (PDHG.S_A c))%nat ->
  (j < length (PDHG.d c))%nat ->
  at_ (PDHG.S_A c) j = 0 ->
  at_ (PDHG.y_plus c s) j = Rmin (at_ (PDHG.y_candidate c s) j) 1.
Proof.
  intros Hy HS Hd H0. unfold PDHG.y_plus.
  rewrite at_prox_poisson_dual by assumption.
  rewrite H0. apply poisson_prox_spec_S0.
Qed.

(** C10.  For a step entry [S >= 0] and a count entry [d >= 0] the Poisson
    conjugate prox [0.5 * (y + 1 - sqrt ((y - 1)^2 + 4 * S * d))] is at most
    1 for every [y].  Hence, with non-negative steps and counts, every entry
    of [y] is at most 1 after each PDHG iteration, and every entry of the
    updated [ys[k]] is at most 1 after a data-block step of LM-SPDHG; once
    all [ys] entries are at most 1 they stay so along any block sequence. *)
Theorem poisson_dual_at_most_one :
  (forall y S d : R,
      0 <= S -> 0 <= d ->
      0.5 * (y + 1 - sqrt ((y - 1) ^ 2 + 4 * S * d)) <= 1)
  /\
  (forall (c : PDHG.config) (s : PDHG.state) (n : nat),
      Forall (fun v => 0 <= v) (PDHG.S_A c) ->
      Forall (fun v => 0 <= v) (PDHG.d c) ->
      Forall (fun v => v <= 1) (PDHG.y (PDHG.run (S n) c s)))
  /\
  (forall (c : LMSPDHG.config) (s : LMSPDHG.state) (k : nat),
      Forall (Forall (fun v => 0 <= v)) (LMSPDHG.S_A_lm c) ->
      Forall (fun v => 0 <= v) (LMSPDHG.mu c) ->
      (k < LMSPDHG.num_subsets c)%nat ->
      Forall (fun v => v <= 1) (LMSPDHG.ys_k (LMSPDHG.step c s k) k))
  /\
  (forall (c : LMSPDHG.config) (subset_sequence : list nat)
          (s : LMSPDHG.state),
      Forall (Forall (fun v => 0 <= v)) (LMSPDHG.S_A_lm c) ->
      Forall (fun v => 0 <= v) (LMSPDHG.mu c) ->
      (forall i, Forall (fun v => v <= 1) (LMSPDHG.ys_k s i)) ->
      forall i,
        Forall (fun v => v <= 1)
               (LMSPDHG.ys_k (LMSPDHG.inner_loop c subset_sequence s) i)).
Proof.
  assert (Hplus : forall c s k,
             Forall (Forall (fun v => 0 <= v)) (LMSPDHG.S_A_lm c) ->
             Forall (fun v => 0 <= v) (LMSPDHG.mu c) ->
             Forall (fun v => v <= 1) (LMSPDHG.y_plus c s k)).
  { intros c s k HS Hmu. unfold LMSPDHG.y_plus.
    apply prox_poisson_dual_le_1.
    - unfold LMSPDHG.S_k. now apply Forall_nth_row.
    - unfold LMSPDHG.mu_sl. now apply Forall_slice_from. }
  repeat split.
  - intros y S d HS Hd. now apply (poisson_prox_spec_le_1 y).
  - intros c s n HS Hd. rewrite pdhg_run_S, pdhg_y_step.
    unfold PDHG.y_plus. now apply prox_poisson_dual_le_1.
  - intros c s k HS Hmu Hk. rewrite lm_ys_step.
    apply Nat.ltb_lt in Hk. rewrite Hk, Nat.eqb_refl. simpl.
    destruct (k <? length (LMSPDHG.ys s))%nat eqn:Hl.
    + now apply Hplus.
    + apply Nat.ltb_ge in Hl. unfold LMSPDHG.ys_k.
      rewrite nth_overflow by exact Hl. constructor.
  - intros c subset_sequence.
    induction subset_sequence as [|k ks IH]; intros s HS Hmu Hinv i.
    + apply Hinv.
    + simpl. apply IH; auto. intros i'. rewrite lm_ys_step.
      destruct ((k <? LMSPDHG.num_subsets c) && (i' =? k)
                && (k <? length (LMSPDHG.ys s)))%nat%bool.
      * now apply Hplus.
      * apply Hinv.
Qed.

Lemma poisson_dual_at_most_one_witness :
  0.5 * (3 + 1 - sqrt ((3 - 1) ^ 2 + 4 * 1 * 2)) <= 1
  /\ Forall (fun v => v <= 1)
            (PDHG.y (PDHG.run 2 Toy.pdhg_config Toy.pdhg_state))
  /\ Forall (fun v => v <= 1)
            (LMSPDHG.ys_k (LMSPDHG.step Toy.lm_config Toy.lm_state 1) 1)
  /\ Forall (fun v => v <= 1)
            (LMSPDHG.ys_k
               (LMSPDHG.inner_loop Toy.lm_config [2%nat; 0%nat]
                  (LMSPDHG.step Toy.lm_config
                     (LMSPDHG.step Toy.lm_config Toy.lm_state 0) 1)) 0).
Proof.
  destruct poisson_dual_at_most_one as (H1 & H2 & H3 & H4).
  assert (HS : Forall (Forall (fun v => 0 <= v))
                      (LMSPDHG.S_A_lm Toy.lm_config)).
  { simpl. repeat constructor; lra. }
  assert (Hmu : Forall (fun v => 0 <= v) (LMSPDHG.mu Toy.lm_config)).
  { simpl. repeat constructor; lra. }
  repeat split.
  - apply H1; lra.
  - apply H2; simpl; repeat constructor; lra.
  - apply H3; [exact HS | exact Hmu | shape].
  - apply H4; [exact HS | exact Hmu |].
    intros i. destruct (Nat.eq_dec i 1) as [->|Hi1].
    + apply H3; [exact HS | exact Hmu | shape].
    + rewrite lm_ys_step.
      replace (i =? 1)%nat with false by (symmetry; now apply Nat.eqb_neq).
      rewrite andb_false_r. simpl.
      destruct (Nat.eq_dec i 0) as [->|Hi0].
      * apply H3; [exact HS | exact Hmu | shape].
      * rewrite lm_ys_step.
        replace (i =? 0)%nat with false by (symmetry; now apply Nat.eqb_neq).
        rewrite andb_false_r. simpl.
        unfold LMSPDHG.ys_k. rewrite nth_overflow by (simpl; lia).
        constructor.
Defined.

(** ** The primal update *)

Lemma Rltb_true a b : Rltb a b = true <-> a < b.
Proof. unfold Rltb; destruct (Rlt_dec a b); split; auto; discriminate. Qed.

Lemma Rltb_false a b : Rltb a b = false <-> b <= a.
Proof.
  unfold Rltb; destruct (Rlt_dec a b); split; auto; try discriminate; lra.
Qed.

Lemma clip_negative_nonneg a :
  Forall (fun v => 0 <= v) (where_ (vlts a 0) (zeros_like a) a).
Proof.
  unfold zeros_like, zeros, full.
  induction a as [|u a IH]; simpl; constructor; auto.
  destruct (Rltb u 0) eqn:E; [lra | now apply Rltb_false].
Qed.

Lemma primal_update_nonneg x T zbar :
  Forall (fun v => 0 <= v) (primal_update x T zbar).
Proof. unfold primal_update. apply clip_negative_nonneg. Qed.

Lemma lm_x_step c s k :
  LMSPDHG.x_lmspdhg (LMSPDHG.step c s k) = LMSPDHG.x_next c s.
Proof.
  unfold LMSPDHG.step. destruct (LMSPDHG.block_update c s k) as [[[? ?] ?] ?].
  reflexivity.
Qed.

Lemma lm_epoch_eq rnd c g s :
  LMSPDHG.epoch rnd c (g, s)
  = (snd (LMSPDHG.permutation rnd g (2 * LMSPDHG.num_subsets c)),
     LMSPDHG.inner_loop c
       (fst (LMSPDHG.permutation rnd g (2 * LMSPDHG.num_subsets c))) s).
Proof.
  unfold LMSPDHG.epoch; cbn [fst snd].
  now destruct (LMSPDHG.permutation rnd g (2 * LMSPDHG.num_subsets c)).
Qed.

Lemma lm_run_S rnd n c gs :
  LMSPDHG.run rnd (S n) c gs = LMSPDHG.run rnd n c (LMSPDHG.epoch rnd c gs).
Proof. reflexivity. Qed.

Lemma Forall_smulv_1 (P : R -> Prop) a : Forall P a -> Forall P (smulv 1 a).
Proof. now rewrite smulv_1. Qed.

(** C4.  The image stays entry-wise non-negative: the primal update of
    either loop ends with the projection onto the non-negative orthant, the
    value it produces is the image that the dual updates of the same pass
    read and that the pass stores, and so after any number of PDHG iterations,
    after any block sequence of LM-SPDHG and after any number of LM-SPDHG
    epochs (whatever the generator draws), a non-negative seed gives a
    non-negative image. *)
Theorem image_stays_nonnegative :
  (forall (c : PDHG.config) (s : PDHG.state),
      Forall (fun v => 0 <= v) (PDHG.x_next c s)
      /\ PDHG.x_pdhg (PDHG.step c s) = PDHG.x_next c s)
  /\
  (forall (c : LMSPDHG.config) (s : LMSPDHG.state) (k : nat),
      Forall (fun v => 0 <= v) (LMSPDHG.x_next c s)
      /\ LMSPDHG.x_lmspdhg (LMSPDHG.step c s k) = LMSPDHG.x_next c s)
  /\
  (forall (c : PDHG.config) (x_mlem : arr) (n : nat),
      Forall (fun v => 0 <= v) x_mlem ->
      Forall (fun v => 0 <= v)
             (PDHG.x_pdhg (PDHG.run n c (PDHG.init c x_mlem))))
  /\
  (forall (c : LMSPDHG.config) (x_mlem : arr) (subset_sequence : list nat),
      Forall (fun v => 0 <= v) x_mlem ->
      Forall (fun v => 0 <= v)
             (LMSPDHG.x_lmspdhg
                (LMSPDHG.inner_loop c subset_sequence
                   (LMSPDHG.init c x_mlem))))
  /\
  (forall (rnd : LMSPDHG.NpRandom) (c : LMSPDHG.config) (x_mlem : arr)
          (g : LMSPDHG.rng_state rnd) (n : nat),
      Forall (fun v => 0 <= v) x_mlem ->
      Forall (fun v => 0 <= v)
             (LMSPDHG.x_lmspdhg
                (snd (LMSPDHG.run rnd n c (g, LMSPDHG.init c x_mlem))))).
Proof.
  assert (Hp : forall c s, Forall (fun v => 0 <= v) (PDHG.x_next c s)).
  { intros; apply primal_update_nonneg. }
  assert (Hl : forall c s, Forall (fun v => 0 <= v) (LMSPDHG.x_next c s)).
  { intros; apply primal_update_nonneg. }
  assert (Hinner : forall c ks s,
             Forall (fun v => 0 <= v) (LMSPDHG.x_lmspdhg s) ->
             Forall (fun v => 0 <= v)
                    (LMSPDHG.x_lmspdhg (LMSPDHG.inner_loop c ks s))).
  { intros c ks; induction ks as [|k ks IH]; intros s Hs; simpl; auto.
    apply IH. rewrite lm_x_step. apply Hl. }
  split; [|split; [|split; [|split]]].
  - intros c s. split; [apply Hp | reflexivity].
  - intros c s k. split; [apply Hl | apply lm_x_step].
  - intros c x_mlem n Hx.
    assert (H0 : Forall (fun v => 0 <= v) (PDHG.x_pdhg (PDHG.init c x_mlem))).
    { simpl. now apply Forall_smulv_1. }
    destruct n as [|n]; [exact H0|].
    rewrite pdhg_run_S. simpl. apply Hp.
  - intros c x_mlem ks Hx. apply Hinner. simpl. now apply Forall_smulv_1.
  - intros rnd c x_mlem g n Hx.
    assert (H0 : Forall (fun v => 0 <= v)
                        (LMSPDHG.x_lmspdhg (LMSPDHG.init c x_mlem))).
    { simpl. now apply Forall_smulv_1. }
    generalize dependent (LMSPDHG.init c x_mlem). revert g.
    induction n as [|n IH]; intros g s Hs; [exact Hs|].
    rewrite lm_run_S, lm_epoch_eq. apply IH. now apply Hinner.
Qed.

Lemma image_stays_nonnegative_witness :
  Forall (fun v => 0 <= v)
         (PDHG.x_pdhg (PDHG.run 3 Toy.pdhg_config
                         (PDHG.init Toy.pdhg_config Toy.x_mlem)))
  /\ Forall (fun v => 0 <= v)
            (LMSPDHG.x_lmspdhg
               (LMSPDHG.inner_loop Toy.lm_config [1%nat; 3%nat; 0%nat]
                  (LMSPDHG.init Toy.lm_config [1])))
  /\ Forall (fun v => 0 <= v)
            (LMSPDHG.x_lmspdhg
               (snd (LMSPDHG.run Toy.rotating 2 Toy.lm_config
                       (0%nat, LMSPDHG.init Toy.lm_config [1])))).
Proof.
  destruct image_stays_nonnegative as (_ & _ & H3 & H4 & H5).
  split; [|split].
  - apply H3. unfold Toy.x_mlem. repeat constructor; lra.
  - apply H4. repeat constructor; lra.
  - apply (H5 Toy.rotating). repeat constructor; lra.
Defined.

(** ** The running sums [z] and [zbar] of LM-SPDHG *)

(** C3.  In every inner step of the LM-SPDHG loop, with [dz] the dual
    contribution of the selected block, the new [z] is [z + dz] and the new
    [zbar] is the new [z] plus [dz / p], where [p] is [p_a] when a data
    subset was updated ([k < num_subsets], [dz] from the subset adjoint) and
    [p_g] when the gradient block was updated; [p_g = 0.5] and
    [p_a = (1 - p_g) / num_subsets]. *)
Theorem lm_z_zbar_update (c : LMSPDHG.config) (s : LMSPDHG.state) (k : nat) :
  let s' := LMSPDHG.step c s k in
  let dz := LMSPDHG.delta_z c s k in
  let p := LMSPDHG.p_selected c s k in
  LMSPDHG.z s' = vadd (LMSPDHG.z s) dz
  /\ LMSPDHG.zbar s' = vadd (LMSPDHG.z s') (vdivs dz p)
  /\ dz = (if (k <? LMSPDHG.num_subsets c)%nat
           then LMSPDHG.dz_data c s k else LMSPDHG.dz_grad c s)
  /\ p = (if (k <? LMSPDHG.num_subsets c)%nat
          then LMSPDHG.p_a c else LMSPDHG.p_g)
  /\ LMSPDHG.p_g = 0.5
  /\ LMSPDHG.p_a c = (1 - LMSPDHG.p_g) / INR (LMSPDHG.num_subsets c).
Proof.
  unfold LMSPDHG.step, LMSPDHG.delta_z, LMSPDHG.p_selected,
    LMSPDHG.block_update.
  destruct (k <? LMSPDHG.num_subsets c)%nat; simpl; repeat split.
Qed.

(** ** The combined primal step *)

Lemma at_T n T_A T_G j :
  (j < n)%nat -> (j < length T_A)%nat ->
  at_ (StepSize.T n T_A T_G) j = Rmin (at_ T_A j) T_G.
Proof.
  intros Hn HA. unfold StepSize.T.
  rewrite at_where;
    [| unfold vlts; rewrite length_map; exact HA | exact HA
     | rewrite length_full; exact Hn].
  rewrite nth_vlts by exact HA. rewrite at_full by exact Hn.
  unfold Rmin. destruct (Rltb (at_ T_A j) T_G) eqn:E;
    destruct (Rle_dec (at_ T_A j) T_G); auto.
  - apply Rltb_true in E. lra.
  - apply Rltb_false in E. lra.
Qed.

Lemma fold_left_Rmin_le_init l a : fold_left Rmin l a <= a.
Proof.
  revert a; induction l as [|v l IH]; intros a; simpl; [lra|].
  eapply Rle_trans; [apply IH | apply Rmin_l].
Qed.

Lemma fold_left_Rmin_le_elem l a v :
  In v l -> fold_left Rmin l a <= v.
Proof.
  revert a; induction l as [|u l IH]; intros a Hin; simpl.
  - destruct Hin.
  - destruct Hin as [->|Hin].
    + eapply Rle_trans; [apply fold_left_Rmin_le_init | apply Rmin_r].
    + now apply IH.
Qed.

Lemma fold_left_Rmin_attained l a :
  fold_left Rmin l a = a \/ In (fold_left Rmin l a) l.
Proof.
  revert a; induction l as [|u l IH]; intros a; simpl; [now left|].
  destruct (IH (Rmin a u)) as [E|Hin]; [|now right; right].
  rewrite E. unfold Rmin. destruct (Rle_dec a u); [now left | right; now left].
Qed.

Lemma length_fold_zipWith_Rmin n f r :
  rows_of n f -> length r = n ->
  length (fold_left (zipWith Rmin) f r) = n.
Proof.
  intros Hf; revert r; induction Hf as [|q f Hq Hf IH]; intros r Hr; simpl;
    auto.
  apply IH. rewrite length_zipWith. lia.
Qed.

Lemma at_fold_zipWith_Rmin n f r j :
  rows_of n f -> length r = n -> (j < n)%nat ->
  at_ (fold_left (zipWith Rmin) f r) j
  = fold_left Rmin (map (fun q => at_ q j) f) (at_ r j).
Proof.
  intros Hf; revert r; induction Hf as [|q f Hq Hf IH]; intros r Hr Hj; simpl;
    auto.
  rewrite IH by (rewrite ?length_zipWith; lia).
  now rewrite at_zipWith by lia.
Qed.

(** [xp.min(f, axis=0)] of a non-empty stack is, at each voxel, below every
    row and equal to one of them. *)
Lemma min_axis0_spec n f j :
  rows_of n f -> f <> [] -> (j < n)%nat ->
  (forall k, (k < length f)%nat -> at_ (min_axis0 f) j <= at2 f k j)
  /\ exists k, (k < length f)%nat /\ at_ (min_axis0 f) j = at2 f k j.
Proof.
  intros Hf Hne Hj. destruct f as [|r f]; [congruence|].
  inversion Hf as [|? ? Hr Hf']; subst. simpl min_axis0.
  rewrite (at_fold_zipWith_Rmin (length r)) by auto.
  split.
  - intros [|k] Hk; unfold at2; simpl.
    + apply fold_left_Rmin_le_init.
    + apply fold_left_Rmin_le_elem.
      apply (in_map (fun q => at_ q j)). apply nth_In. simpl in Hk. lia.
  - destruct (fold_left_Rmin_attained (map (fun q => at_ q j) f) (at_ r j))
      as [E|Hin].
    + exists 0%nat. split; [simpl; lia | exact E].
    + apply in_map_iff in Hin. destruct Hin as (q & Eq & Hq).
      destruct (In_nth _ _ [] Hq) as (k & Hk & Ek).
      exists (S k). split.
      { simpl. apply Nat.succ_lt_mono in Hk. exact Hk. }
      unfold at2. cbn [nth]. rewrite <- Eq. unfold at_. f_equal.
      symmetry. exact Ek.
Qed.

Lemma Reqb_true a b : Reqb a b = true <-> a = b.
Proof. unfold Reqb; destruct (Req_dec_T a b); split; auto; discriminate. Qed.

Lemma Reqb_false a b : Reqb a b = false <-> a <> b.
Proof.
  unfold Reqb; destruct (Req_dec_T a b); split; auto; try discriminate.
  intros H; now elim H.
Qed.

(** Comparisons between numerals. *)
Ltac rcmp :=
  repeat match goal with
    | |- context [Rltb ?a ?b] =>
        first [ rewrite (proj2 (Rltb_true a b)) by lra
              | rewrite (proj2 (Rltb_false a b)) by lra ]
    | |- context [Reqb ?a ?b] =>
        first [ rewrite (proj2 (Reqb_true a b)) by lra
              | rewrite (proj2 (Reqb_false a b)) by lra ]
    end.

Lemma pdhg_setup_T gamma rho beta op_G_norm op G n n_data ndim cont d c :
  PDHG.setup gamma rho beta op_G_norm op G n n_data ndim cont d = Some c ->
  PDHG.T c
  = StepSize.T n (StepSize.T_A gamma rho op n_data)
      (StepSize.T_G gamma rho op_G_norm).
Proof.
  unfold PDHG.setup. destruct (StepSize.dual_step gamma rho op n); [|discriminate].
  intros [= <-]. reflexivity.
Qed.

Lemma lm_setup_T gamma rho beta op_G_norm ops G n ndim cl mu ao c :
  LMSPDHG.setup gamma rho beta op_G_norm ops G n ndim cl mu ao = Some c ->
  LMSPDHG.T_lm c
  = StepSize.T_lm n (LMSPDHG.T_A_lm_rows gamma rho ops mu)
      (StepSize.T_G gamma rho op_G_norm).
Proof.
  unfold LMSPDHG.setup. destruct (StepSize.S_A_lm gamma rho ops n);
    [|discriminate].
  intros [= <-]. reflexivity.
Qed.

Lemma length_T_A_lm_rows gamma rho ops mu :
  length (LMSPDHG.T_A_lm_rows gamma rho ops mu) = length ops.
Proof. unfold LMSPDHG.T_A_lm_rows. now rewrite length_map, length_seq. Qed.

Lemma nth_T_A_lm_rows gamma rho ops mu k :
  (k < length ops)%nat ->
  nth k (LMSPDHG.T_A_lm_rows gamma rho ops mu) []
  = StepSize.T_A_lm_row gamma rho (StepSize.p_a (length ops))
      (nth k ops LMSPDHG.no_op) (slice_from k (length ops) mu).
Proof.
  intros Hk. unfold LMSPDHG.T_A_lm_rows.
  set (row := fun k => StepSize.T_A_lm_row _ _ _ _ _).
  rewrite (nth_indep _ [] (row 0%nat))
    by (rewrite length_map, length_seq; exact Hk).
  rewrite (map_nth row). now rewrite seq_nth.
Qed.

Lemma rows_of_app n f g : rows_of n f -> rows_of n g -> rows_of n (f ++ g).
Proof. unfold rows_of. intros; apply Forall_app; auto. Qed.

(** [T_lm] at a voxel: below every subset row and [T_G], equal to one. *)
Lemma T_lm_spec gamma rho ops mu n T_G j :
  rows_of n (LMSPDHG.T_A_lm_rows gamma rho ops mu) ->
  (j < n)%nat ->
  let T_k := fun k =>
    StepSize.T_A_lm_row gamma rho (StepSize.p_a (length ops))
      (nth k ops LMSPDHG.no_op) (slice_from k (length ops) mu) in
  let T := StepSize.T_lm n (LMSPDHG.T_A_lm_rows gamma rho ops mu) T_G in
  (forall k, (k < length ops)%nat -> at_ T j <= at_ (T_k k) j)
  /\ at_ T j <= T_G
  /\ (at_ T j = T_G
      \/ exists k, (k < length ops)%nat /\ at_ T j = at_ (T_k k) j).
Proof.
  intros Hrows Hj. simpl.
  unfold StepSize.T_lm, StepSize.T_A_lm.
  set (rows := LMSPDHG.T_A_lm_rows gamma rho ops mu) in *.
  assert (Hlen : length rows = length ops) by apply length_T_A_lm_rows.
  destruct (min_axis0_spec n (rows ++ [full n T_G]) j) as [Hle Hex].
  { apply rows_of_app; [exact Hrows|].
    repeat constructor. apply length_full. }
  { intros E. apply app_eq_nil in E. destruct E; discriminate. }
  { exact Hj. }
  assert (Hlast : at2 (rows ++ [full n T_G]) (length rows) j = T_G).
  { unfold at2. rewrite app_nth2 by lia. rewrite Nat.sub_diag. simpl.
    now apply at_full. }
  assert (Hrow : forall k, (k < length ops)%nat ->
            at2 (rows ++ [full n T_G]) k j
            = at_ (StepSize.T_A_lm_row gamma rho
                     (StepSize.p_a (length ops))
                     (nth k ops LMSPDHG.no_op)
                     (slice_from k (length ops) mu)) j).
  { intros k Hk. unfold at2. rewrite app_nth1 by lia.
    unfold rows. now rewrite nth_T_A_lm_rows. }
  split; [|split].
  - intros k Hk. rewrite <- Hrow by exact Hk. apply Hle.
    rewrite length_app; simpl; lia.
  - rewrite <- Hlast at 2. apply Hle. rewrite length_app; simpl; lia.
  - destruct Hex as (k & Hk & Ek). rewrite length_app in Hk; simpl in Hk.
    destruct (Nat.eq_dec k (length rows)) as [->|Hne].
    + left. now rewrite Ek.
    + right. exists k. split; [lia|]. rewrite Ek. apply Hrow. lia.
Qed.

(** C2.  The primal step that each loop uses is a pointwise minimum.  In
    PDHG, [T] is at every voxel the smaller of [T_A] and [T_G].  In
    LM-SPDHG, [T_lm] is at every voxel below the step [T_A_lm[k]] of every
    subset and below [T_G], and equal to one of them. *)
Theorem combined_primal_step_is_pointwise_min :
  (forall gamma rho beta op_G_norm op G n n_data ndim cont d c j,
      PDHG.setup gamma rho beta op_G_norm op G n n_data ndim cont d = Some c ->
      length (StepSize.T_A gamma rho op n_data) = n ->
      (j < n)%nat ->
      let T_A := StepSize.T_A gamma rho op n_data in
      let T_G := StepSize.T_G gamma rho op_G_norm in
      at_ (PDHG.T c) j = Rmin (at_ T_A j) T_G
      /\ at_ (PDHG.T c) j <= at_ T_A j
      /\ at_ (PDHG.T c) j <= T_G)
  /\
  (forall gamma rho beta op_G_norm ops G n ndim cl mu ao c j,
      LMSPDHG.setup gamma rho beta op_G_norm ops G n ndim cl mu ao = Some c ->
      rows_of n (LMSPDHG.T_A_lm_rows gamma rho ops mu) ->
      (j < n)%nat ->
      let T_k := fun k =>
        StepSize.T_A_lm_row gamma rho (StepSize.p_a (length ops))
          (nth k ops LMSPDHG.no_op) (slice_from k (length ops) mu) in
      let T_G := StepSize.T_G gamma rho op_G_norm in
      (forall k, (k < length ops)%nat ->
                 at_ (LMSPDHG.T_lm c) j <= at_ (T_k k) j)
      /\ at_ (LMSPDHG.T_lm c) j <= T_G
      /\ (at_ (LMSPDHG.T_lm c) j = T_G
          \/ exists k, (k < length ops)%nat
                       /\ at_ (LMSPDHG.T_lm c) j = at_ (T_k k) j)).
Proof.
  split.
  - intros gamma rho beta op_G_norm op G n n_data ndim cont d c j Hc Hlen Hj.
    simpl. rewrite (pdhg_setup_T _ _ _ _ _ _ _ _ _ _ _ _ Hc).
    rewrite at_T by lia.
    repeat split; [apply Rmin_l | apply Rmin_r].
  - intros gamma rho beta op_G_norm ops G n ndim cl mu ao c j Hc Hrows Hj.
    simpl. rewrite (lm_setup_T _ _ _ _ _ _ _ _ _ _ _ _ Hc).
    now apply T_lm_spec.
Qed.

(** Evaluation of the step-size cells on a concrete problem. *)
Ltac run_setup :=
  unfold Toy.pdhg_setup, Toy.lm_setup, PDHG.setup, LMSPDHG.setup,
    StepSize.S_A_lm, StepSize.dual_step, StepSize.replace_zeros;
  simpl; rcmp; simpl; rcmp; simpl; reflexivity.

Lemma combined_primal_step_is_pointwise_min_witness :
  (exists c, Toy.pdhg_setup = Some c
             /\ at_ (PDHG.T c) 0 <= at_ (StepSize.T_A 1 1 Toy.id_op 2) 0
             /\ at_ (PDHG.T c) 0 <= StepSize.T_G 1 1 1)
  /\
  (exists c, Toy.lm_setup = Some c
             /\ at_ (LMSPDHG.T_lm c) 0 <= StepSize.T_G 1 1 1).
Proof.
  split.
  - eexists. split; [run_setup|].
    eapply (proj1 combined_primal_step_is_pointwise_min
              1 1 1 1 Toy.id_op Toy.one_row_op 2%nat 2%nat 1%nat
              [1; 1] [2; 0] _ 0%nat); [run_setup | reflexivity | lia].
  - eexists. split; [run_setup|].
    eapply (proj2 combined_primal_step_is_pointwise_min
              1 1 1 1 [Toy.id_op; Toy.id_op] Toy.one_row_op 1%nat 1%nat
              [1; 1] [1; 2] [2] _ 0%nat); [run_setup | shape | lia].
Defined.

(** ** Shapes *)

Lemma arr_ext (a b : arr) :
  length a = length b ->
  (forall j, (j < length a)%nat -> at_ a j = at_ b j) ->
  a = b.
Proof. intros Hl H. apply (nth_ext a b 0 0); auto. Qed.

Lemma length_zipWith_same (f : R -> R -> R) a b n :
  length a = n -> length b = n -> length (zipWith f a b) = n.
Proof. intros; rewrite length_zipWith; lia. Qed.

Lemma length_clip a : length (where_ (vlts a 0) (zeros_like a) a) = length a.
Proof.
  rewrite length_where. unfold vlts, zeros_like, zeros.
  rewrite length_map, length_full. lia.
Qed.

Lemma length_primal_update x T zbar n :
  length x = n -> length T = n -> length zbar = n ->
  length (primal_update x T zbar) = n.
Proof.
  intros Hx HT Hz. unfold primal_update. rewrite length_clip.
  unfold vsub, vmul. rewrite !length_zipWith. lia.
Qed.

Lemma rows_of_map n (h : list R -> list R) f :
  (forall r, length r = n -> length (h r) = n) ->
  rows_of n f -> rows_of n (map h f).
Proof.
  intros Hh Hf. induction Hf as [|r f Hr Hf IH]; simpl; constructor; auto.
Qed.

Lemma rows_of_zipWith n (h : list R -> list R -> list R) f g :
  (forall r q, length r = n -> length q = n -> length (h r q) = n) ->
  rows_of n f -> rows_of n g -> rows_of n (zipWith h f g).
Proof.
  intros Hh Hf; revert g. induction Hf as [|r f Hr Hf IH]; intros g Hg.
  - constructor.
  - destruct Hg as [|q g Hq Hg]; simpl; constructor; auto.
    now apply IH.
Qed.

Lemma length_sumsq_axis0 n f :
  rows_of n f -> length (sumsq_axis0 n f) = n.
Proof.
  intros Hf. induction Hf as [|r f Hr Hf IH]; simpl.
  - apply length_full.
  - change (length (vadd (vsquare r) (sumsq_axis0 n f)) = n).
    apply length_zipWith_same; [|exact IH].
    unfold vsquare. now rewrite length_map.
Qed.

Lemma length_vector_norm_axis0 n f :
  rows_of n f -> length (vector_norm_axis0 n f) = n.
Proof.
  intros Hf. unfold vector_norm_axis0, vsqrt.
  rewrite length_map. now apply length_sumsq_axis0.
Qed.

Lemma length_tv_divisor denom : length (tv_divisor denom) = length denom.
Proof.
  unfold tv_divisor. rewrite length_where. unfold vlts, ones_like, ones.
  rewrite length_map, length_full. lia.
Qed.

Lemma shape_tv_candidate n ndim w S_G gx :
  length w = ndim -> rows_of n w -> length gx = ndim -> rows_of n gx ->
  length (tv_candidate w S_G gx) = ndim
  /\ rows_of n (tv_candidate w S_G gx).
Proof.
  intros Hw Hrw Hg Hrg. unfold tv_candidate, fadd, smulf. split.
  - rewrite length_zipWith, length_map. lia.
  - apply rows_of_zipWith; auto.
    + intros; now apply length_zipWith_same.
    + apply rows_of_map; auto. intros r Hr. unfold smulv.
      now rewrite length_map.
Qed.

Lemma shape_tv_ball_project n f :
  rows_of n f ->
  length (tv_ball_project n f) = length f
  /\ rows_of n (tv_ball_project n f).
Proof.
  intros Hf. unfold tv_ball_project, fdivv. split.
  - apply length_map.
  - apply rows_of_map; auto. intros r Hr. unfold vdiv.
    apply length_zipWith_same; auto.
    rewrite length_tv_divisor. now apply length_vector_norm_axis0.
Qed.

Lemma shape_fdivs n f s : rows_of n f -> rows_of n (fdivs f s).
Proof.
  intros Hf. unfold fdivs. apply rows_of_map; auto.
  intros r Hr. unfold vdivs. now rewrite length_map.
Qed.

Lemma shape_fmuls n f s : rows_of n f -> rows_of n (fmuls f s).
Proof.
  intros Hf. unfold fmuls. apply rows_of_map; auto.
  intros r Hr. unfold smulv. now rewrite length_map.
Qed.

Lemma shape_tv_dual_update n ndim w S_G gx beta :
  length w = ndim -> rows_of n w -> length gx = ndim -> rows_of n gx ->
  length (tv_dual_update n w S_G gx beta) = ndim
  /\ rows_of n (tv_dual_update n w S_G gx beta).
Proof.
  intros Hw Hrw Hg Hrg.
  destruct (shape_tv_candidate n ndim w S_G gx Hw Hrw Hg Hrg) as [Hl Hr].
  pose proof (shape_fdivs n _ beta Hr) as Hr'.
  destruct (shape_tv_ball_project n _ Hr') as [Hl2 Hr2].
  unfold tv_dual_update. split.
  - unfold fmuls at 1. rewrite length_map, Hl2. unfold fdivs.
    now rewrite length_map.
  - now apply shape_fmuls.
Qed.

Lemma rows_of_fzeros ndim n : rows_of n (fzeros ndim n).
Proof.
  unfold fzeros, rows_of. apply Forall_forall. intros r Hr.
  apply repeat_spec in Hr. subst r. apply length_full.
Qed.

Section PDHGShapes.

Variables (c : PDHG.config) (m : nat).
Hypothesis Hwf : PDHG.well_formed c m.

Lemma pdhg_length_x_next s :
  PDHG.shaped c m s -> length (PDHG.x_next c s) = PDHG.n_img c.
Proof.
  intros (Hx & _ & _ & _ & Hzb). unfold PDHG.x_next.
  apply length_primal_update; auto. apply (PDHG.wf_T c m Hwf).
Qed.

Lemma pdhg_length_y_plus s :
  PDHG.shaped c m s -> length (PDHG.y_plus c s) = m.
Proof.
  intros Hs. pose proof (pdhg_length_x_next s Hs) as Hx.
  destruct Hs as (_ & Hy & _).
  unfold PDHG.y_plus. rewrite length_prox_poisson_dual.
  unfold PDHG.y_candidate, vadd, vmul. rewrite !length_zipWith.
  rewrite (PDHG.wf_apply c m Hwf) by exact Hx.
  rewrite (PDHG.wf_contamination c m Hwf), (PDHG.wf_S_A c m Hwf),
    (PDHG.wf_d c m Hwf). lia.
Qed.

Lemma pdhg_shape_w_plus s :
  PDHG.shaped c m s ->
  length (PDHG.w_plus c s) = PDHG.ndim c
  /\ rows_of (PDHG.n_img c) (PDHG.w_plus c s).
Proof.
  intros Hs. pose proof (pdhg_length_x_next s Hs) as Hx.
  destruct Hs as (_ & _ & (Hw & Hrw) & _).
  destruct (PDHG.wf_gapply c m Hwf _ Hx) as [Hg Hrg].
  unfold PDHG.w_plus. now apply shape_tv_dual_update.
Qed.

Lemma pdhg_length_delta_z s :
  PDHG.shaped c m s -> length (PDHG.delta_z c s) = PDHG.n_img c.
Proof.
  intros Hs. pose proof (pdhg_length_y_plus s Hs) as Hy.
  destruct (pdhg_shape_w_plus s Hs) as [Hw Hrw].
  destruct Hs as (_ & Hy0 & (Hw0 & Hrw0) & _).
  unfold PDHG.delta_z. apply length_zipWith_same.
  - apply (PDHG.wf_adjoint c m Hwf). now apply length_zipWith_same.
  - apply (PDHG.wf_gadjoint c m Hwf).
    + unfold fsub. rewrite length_zipWith. lia.
    + unfold fsub. apply rows_of_zipWith; auto.
      intros; now apply length_zipWith_same.
Qed.

Lemma pdhg_shaped_init x_mlem :
  length x_mlem = PDHG.n_img c -> PDHG.shaped c m (PDHG.init c x_mlem).
Proof.
  intros Hx. unfold PDHG.shaped, PDHG.init; simpl.
  assert (Hx1 : length (smulv 1 x_mlem) = PDHG.n_img c).
  { unfold smulv. now rewrite length_map. }
  assert (Hy : length (ssubv 1 (vdiv (PDHG.d c)
                 (vadd (apply (PDHG.pet_lin_op c) (smulv 1 x_mlem))
                       (PDHG.contamination c)))) = m).
  { unfold ssubv, vdiv, vadd. rewrite length_map, !length_zipWith.
    rewrite (PDHG.wf_apply c m Hwf) by exact Hx1.
    rewrite (PDHG.wf_contamination c m Hwf), (PDHG.wf_d c m Hwf). lia. }
  assert (Hw : length (fzeros (PDHG.ndim c) (PDHG.n_img c)) = PDHG.ndim c).
  { apply repeat_length. }
  assert (Hz : length (vadd (adjoint (PDHG.pet_lin_op c)
                 (ssubv 1 (vdiv (PDHG.d c)
                    (vadd (apply (PDHG.pet_lin_op c) (smulv 1 x_mlem))
                          (PDHG.contamination c)))))
                 (gadjoint (PDHG.op_G c)
                    (fzeros (PDHG.ndim c) (PDHG.n_img c))))
               = PDHG.n_img c).
  { apply length_zipWith_same.
    - now apply (PDHG.wf_adjoint c m Hwf).
    - apply (PDHG.wf_gadjoint c m Hwf); [exact Hw | apply rows_of_fzeros]. }
  repeat split; auto.
  - apply rows_of_fzeros.
  - unfold smulv. now rewrite length_map.
Qed.

Lemma pdhg_shaped_step s :
  PDHG.shaped c m s -> PDHG.shaped c m (PDHG.step c s).
Proof.
  intros Hs.
  pose proof (pdhg_length_x_next s Hs) as Hx.
  pose proof (pdhg_length_y_plus s Hs) as Hy.
  destruct (pdhg_shape_w_plus s Hs) as [Hw Hrw].
  pose proof (pdhg_length_delta_z s Hs) as Hdz.
  destruct Hs as (_ & _ & _ & Hz & _).
  unfold PDHG.shaped, PDHG.step; simpl.
  rewrite smulv_1, fmuls_1.
  assert (Hz' : length (vadd (PDHG.z s) (PDHG.delta_z c s)) = PDHG.n_img c).
  { now apply length_zipWith_same. }
  repeat split; auto. now apply length_zipWith_same.
Qed.

Lemma pdhg_shaped_run n s :
  PDHG.shaped c m s -> PDHG.shaped c m (PDHG.run n c s).
Proof.
  revert s; induction n as [|n IH]; intros s Hs; simpl; auto.
  apply IH. now apply pdhg_shaped_step.
Qed.

(** The incremental update keeps [z = A^T y + grad^T w]. *)
Lemma pdhg_step_tracks s :
  PDHG.shaped c m s -> PDHG.z_tracks_duals c s ->
  PDHG.z_tracks_duals c (PDHG.step c s).
Proof.
  intros Hs Hz.
  pose proof (pdhg_length_y_plus s Hs) as Hy.
  destruct (pdhg_shape_w_plus s Hs) as [Hw Hrw].
  destruct Hs as (_ & Hy0 & (Hw0 & Hrw0) & Hlz & _).
  unfold PDHG.z_tracks_duals in *. unfold PDHG.step; simpl.
  rewrite smulv_1, fmuls_1. unfold PDHG.delta_z.
  rewrite (PDHG.adjoint_sub c m Hwf) by assumption.
  rewrite (PDHG.gadjoint_sub c m Hwf) by assumption.
  rewrite Hz.
  pose proof (PDHG.wf_adjoint c m Hwf _ Hy0) as La.
  pose proof (PDHG.wf_adjoint c m Hwf _ Hy) as La'.
  pose proof (PDHG.wf_gadjoint c m Hwf _ Hw0 Hrw0) as Lb.
  pose proof (PDHG.wf_gadjoint c m Hwf _ Hw Hrw) as Lb'.
  set (a := adjoint (PDHG.pet_lin_op c) (PDHG.y s)) in *.
  set (a' := adjoint (PDHG.pet_lin_op c) (PDHG.y_plus c s)) in *.
  set (b := gadjoint (PDHG.op_G c) (PDHG.w s)) in *.
  set (b' := gadjoint (PDHG.op_G c) (PDHG.w_plus c s)) in *.
  apply arr_ext.
  - unfold vadd, vsub. rewrite !length_zipWith. lia.
  - intros j Hj. unfold vadd, vsub in Hj. rewrite !length_zipWith in Hj.
    unfold vadd, vsub.
    repeat (rewrite at_zipWith; rewrite ?length_zipWith; try lia).
    lra.
Qed.

End PDHGShapes.

(** C9.  In PDHG the running sum [z] is the adjoint image of the current
    dual variables: [z = A^T y + grad^T w] holds after the initialisation,
    the update [z <- z + (A^T (y_plus - y) + grad^T (w_plus - w))] keeps it,
    and so it holds after every iteration.  Arithmetic is exact; the
    adjoints are additive and all arrays have the shapes of the problem. *)
Theorem pdhg_z_is_adjoint_of_duals
    (c : PDHG.config) (m : nat) (x_mlem : arr) :
  PDHG.well_formed c m ->
  length x_mlem = PDHG.n_img c ->
  PDHG.z_tracks_duals c (PDHG.init c x_mlem)
  /\ (forall s, PDHG.shaped c m s -> PDHG.z_tracks_duals c s ->
                PDHG.z_tracks_duals c (PDHG.step c s))
  /\ (forall n,
        let s := PDHG.run n c (PDHG.init c x_mlem) in
        PDHG.z s
        = vadd (adjoint (PDHG.pet_lin_op c) (PDHG.y s))
               (gadjoint (PDHG.op_G c) (PDHG.w s))).
Proof.
  intros Hwf Hx.
  assert (H0 : PDHG.z_tracks_duals c (PDHG.init c x_mlem)) by reflexivity.
  split; [exact H0|]. split.
  - intros s. now apply pdhg_step_tracks.
  - intros n. simpl.
    pose proof (pdhg_shaped_init c m Hwf x_mlem Hx) as Hs.
    generalize dependent (PDHG.init c x_mlem). clear Hx.
    induction n as [|n IH]; intros s H0 Hs; [exact H0|].
    simpl. apply IH.
    + now apply (pdhg_step_tracks c m).
    + now apply (pdhg_shaped_step c m).
Qed.

Lemma toy_pdhg_well_formed : PDHG.well_formed Toy.pdhg_config 2.
Proof.
  constructor; simpl; auto.
  - intros v Hv. split; [reflexivity | repeat constructor; exact Hv].
  - intros [|r [|q f]] Hl Hr; try discriminate. simpl.
    now inversion Hr.
  - intros [|r [|q f]] [|r' [|q' g]] Hl Hr Hl' Hr'; try discriminate.
    reflexivity.
Qed.

Lemma pdhg_z_is_adjoint_of_duals_witness :
  let s := PDHG.run 3 Toy.pdhg_config (PDHG.init Toy.pdhg_config Toy.x_mlem) in
  PDHG.z s
  = vadd (adjoint (PDHG.pet_lin_op Toy.pdhg_config) (PDHG.y s))
         (gadjoint (PDHG.op_G Toy.pdhg_config) (PDHG.w s)).
Proof.
  apply (pdhg_z_is_adjoint_of_duals Toy.pdhg_config 2 Toy.x_mlem).
  - exact toy_pdhg_well_formed.
  - reflexivity.
Defined.

(** ** The TV prox *)

Lemma tv_divisor_ge_1 denom : Forall (fun v => 1 <= v) (tv_divisor denom).
Proof.
  unfold tv_divisor, ones_like, ones, full.
  induction denom as [|u denom IH]; simpl; constructor; auto.
  destruct (Rltb u 1) eqn:E; [lra | now apply Rltb_false].
Qed.

Lemma at_tv_divisor denom j :
  (j < length denom)%nat ->
  at_ (tv_divisor denom) j
  = if Rltb (at_ denom j) 1 then 1 else at_ denom j.
Proof.
  intros Hj. unfold tv_divisor.
  rewrite at_where;
    [| unfold vlts; rewrite length_map; exact Hj
     | unfold ones_like, ones; rewrite length_full; exact Hj
     | exact Hj].
  rewrite nth_vlts by exact Hj.
  unfold ones_like, ones. now rewrite at_full.
Qed.

Lemma tv_divisor_inside_ball denom j :
  (j < length denom)%nat -> at_ denom j <= 1 -> at_ (tv_divisor denom) j = 1.
Proof.
  intros Hj Hle. rewrite at_tv_divisor by exact Hj.
  destruct (Rltb (at_ denom j) 1) eqn:E; auto.
  apply Rltb_false in E. lra.
Qed.

Lemma at2_map (h : list R -> list R) f i j :
  (i < length f)%nat -> at2 (map h f) i j = at_ (h (nth i f [])) j.
Proof.
  intros Hi. unfold at2.
  rewrite (nth_indep _ [] (h [])) by (rewrite length_map; exact Hi).
  now rewrite (map_nth h).
Qed.

Lemma length_nth_row n f i :
  rows_of n f -> (i < length f)%nat -> length (nth i f []) = n.
Proof.
  intros Hf Hi. unfold rows_of in Hf. rewrite Forall_forall in Hf.
  apply Hf. now apply nth_In.
Qed.

Lemma at2_tv_ball_project n f i j :
  rows_of n f -> (i < length f)%nat -> (j < n)%nat ->
  at2 (tv_ball_project n f) i j
  = at2 f i j / at_ (tv_divisor (vector_norm_axis0 n f)) j.
Proof.
  intros Hf Hi Hj. unfold tv_ball_project, fdivv.
  rewrite at2_map by exact Hi. unfold vdiv. rewrite at_zipWith.
  - reflexivity.
  - rewrite (length_nth_row n) by assumption. exact Hj.
  - rewrite length_tv_divisor, length_vector_norm_axis0 by assumption.
    exact Hj.
Qed.

Lemma at_sumsq_axis0 n f j :
  rows_of n f -> (j < n)%nat ->
  at_ (sumsq_axis0 n f) j = group_sumsq f j.
Proof.
  intros Hf Hj. induction Hf as [|r f Hr Hf IH]; simpl.
  - unfold zeros. now apply at_full.
  - change (at_ (vadd (vsquare r) (sumsq_axis0 n f)) j
            = nth j r 0 ^ 2 + group_sumsq f j).
    unfold vadd. rewrite at_zipWith.
    + rewrite IH. unfold vsquare. rewrite at_map by lia. reflexivity.
    + unfold vsquare. rewrite length_map. lia.
    + rewrite length_sumsq_axis0 by exact Hf. exact Hj.
Qed.

Lemma group_sumsq_nonneg f j : 0 <= group_sumsq f j.
Proof.
  induction f as [|r f IH]; simpl; [lra|].
  pose proof (pow2_ge_0 (nth j r 0)). lra.
Qed.

Lemma group_sumsq_fdivs n f beta j :
  beta <> 0 -> rows_of n f -> (j < n)%nat ->
  group_sumsq (fdivs f beta) j = group_sumsq f j / beta ^ 2.
Proof.
  intros Hb Hf Hj. induction Hf as [|r f Hr Hf IH].
  - simpl. unfold Rdiv. ring.
  - change (at_ (vdivs r beta) j ^ 2 + group_sumsq (fdivs f beta) j
            = (at_ r j ^ 2 + group_sumsq f j) / beta ^ 2).
    rewrite IH. unfold vdivs. rewrite at_map by lia. field. exact Hb.
Qed.

Lemma at_vector_norm_axis0 n f j :
  rows_of n f -> (j < n)%nat ->
  at_ (vector_norm_axis0 n f) j = sqrt (group_sumsq f j).
Proof.
  intros Hf Hj. unfold vector_norm_axis0, vsqrt.
  rewrite at_map by (rewrite length_sumsq_axis0; assumption).
  now rewrite (at_sumsq_axis0 n).
Qed.

(** Positive homogeneity of the group norm. *)
Lemma vector_norm_axis0_fdivs n f beta j :
  0 < beta -> rows_of n f -> (j < n)%nat ->
  at_ (vector_norm_axis0 n (fdivs f beta)) j
  = at_ (vector_norm_axis0 n f) j / beta.
Proof.
  intros Hb Hf Hj.
  rewrite !(at_vector_norm_axis0 n) by (auto using shape_fdivs).
  rewrite (group_sumsq_fdivs n) by (auto; lra).
  rewrite sqrt_div_alt by (apply pow_lt; exact Hb).
  rewrite sqrt_pow2 by lra. reflexivity.
Qed.

Lemma at2_tv_dual_update_inside_ball n w S_G gx beta i j :
  0 < beta ->
  rows_of n w -> rows_of n gx ->
  (i < length w)%nat -> (i < length gx)%nat -> (j < n)%nat ->
  at_ (vector_norm_axis0 n (tv_candidate w S_G gx)) j <= beta ->
  at2 (tv_dual_update n w S_G gx beta) i j
  = at2 (tv_candidate w S_G gx) i j.
Proof.
  intros Hb Hw Hg Hiw Hig Hj Hnorm.
  set (cand := tv_candidate w S_G gx) in *.
  assert (Hc : rows_of n cand /\ (i < length cand)%nat).
  { unfold cand, tv_candidate, fadd, smulf. split.
    - apply rows_of_zipWith; auto.
      + intros; now apply length_zipWith_same.
      + apply rows_of_map; auto. intros r Hr. unfold smulv.
        now rewrite length_map.
    - rewrite length_zipWith, length_map. lia. }
  destruct Hc as [Hrc Hic].
  pose proof (shape_fdivs n cand beta Hrc) as Hrs.
  assert (His : (i < length (fdivs cand beta))%nat).
  { unfold fdivs. rewrite length_map. exact Hic. }
  destruct (shape_tv_ball_project n _ Hrs) as [Hlp Hrp].
  unfold tv_dual_update. fold cand.
  unfold fmuls at 1. rewrite at2_map by (rewrite Hlp; exact His).
  unfold smulv. rewrite at_map.
  2:{ rewrite (length_nth_row n); auto. rewrite Hlp. exact His. }
  change (at_ (nth i (tv_ball_project n (fdivs cand beta)) []) j)
    with (at2 (tv_ball_project n (fdivs cand beta)) i j).
  rewrite at2_tv_ball_project by assumption.
  rewrite tv_divisor_inside_ball.
  - unfold fdivs at 1. rewrite at2_map by exact Hic.
    unfold vdivs. rewrite at_map by (rewrite (length_nth_row n); auto).
    unfold at2. field. lra.
  - rewrite length_vector_norm_axis0 by exact Hrs. exact Hj.
  - rewrite vector_norm_axis0_fdivs by assumption.
    apply (Rmult_le_reg_r beta); [exact Hb|].
    unfold Rdiv. rewrite Rmult_assoc, Rinv_l by lra. lra.
Qed.

(** C7.  The TV prox leaves every voxel group inside the unit ball
    unchanged and never divides by zero.  The array the candidate is divided
    by has all entries at least 1, and is 1 wherever the group norm is below
    1, the norm-zero groups included.  So a group of the candidate whose
    norm is at most 1 is left as it is by the division step, and, for
    [beta > 0], a group of [w + S_G * grad x] whose norm is at most [beta] is
    returned unchanged by the whole update (division by [beta], projection,
    multiplication by [beta]), which both loops use. *)
Theorem tv_prox_identity_inside_ball :
  (forall denom, Forall (fun v => 1 <= v) (tv_divisor denom))
  /\
  (forall denom j,
      (j < length denom)%nat -> at_ denom j < 1 ->
      at_ (tv_divisor denom) j = 1)
  /\
  (forall n w_plus i j,
      rows_of n w_plus -> (i < length w_plus)%nat -> (j < n)%nat ->
      at_ (vector_norm_axis0 n w_plus) j <= 1 ->
      at2 (tv_ball_project n w_plus) i j = at2 w_plus i j)
  /\
  (forall n w S_G gx beta i j,
      0 < beta ->
      rows_of n w -> rows_of n gx ->
      (i < length w)%nat -> (i < length gx)%nat -> (j < n)%nat ->
      at_ (vector_norm_axis0 n (tv_candidate w S_G gx)) j <= beta ->
      at2 (tv_dual_update n w S_G gx beta) i j
      = at2 (tv_candidate w S_G gx) i j)
  /\
  (forall c s, PDHG.w (PDHG.step c s)
               = tv_dual_update (PDHG.n_img c) (PDHG.w s) (PDHG.S_G c)
                   (gapply (PDHG.op_G c) (PDHG.x_next c s)) (PDHG.beta c))
  /\
  (forall c s k, (LMSPDHG.num_subsets c <= k)%nat ->
      LMSPDHG.w_lm (LMSPDHG.step c s k)
      = tv_dual_update (LMSPDHG.n_img c) (LMSPDHG.w_lm s) (LMSPDHG.S_G c)
          (gapply (LMSPDHG.op_G c) (LMSPDHG.x_next c s)) (LMSPDHG.beta c)).
Proof.
  split; [exact tv_divisor_ge_1|].
  split.
  { intros denom j Hj Hlt. apply tv_divisor_inside_ball; [exact Hj | lra]. }
  split.
  { intros n w_plus i j Hr Hi Hj Hle.
    rewrite at2_tv_ball_project by assumption.
    rewrite tv_divisor_inside_ball; [field | | exact Hle].
    rewrite length_vector_norm_axis0 by exact Hr. exact Hj. }
  split; [exact at2_tv_dual_update_inside_ball|].
  split.
  { intros c s. unfold PDHG.step; simpl. now rewrite fmuls_1. }
  { intros c s k Hk. now rewrite lm_step_grad by exact Hk. }
Qed.

Lemma tv_prox_identity_inside_ball_witness :
  at_ (tv_divisor [0]) 0 = 1
  /\ at2 (tv_ball_project 1 [[0.6]; [0.8]]) 1 0 = at2 [[0.6]; [0.8]] 1 0
  /\ at2 (tv_dual_update 1 [[0]; [0]] 1 [[3]; [4]] 5) 0 0
     = at2 (tv_candidate [[0]; [0]] 1 [[3]; [4]]) 0 0.
Proof.
  destruct tv_prox_identity_inside_ball as (_ & H2 & H3 & H4 & _).
  split; [|split].
  - apply H2; [simpl; lia | unfold at_; simpl; lra].
  - apply H3; try shape.
    rewrite (at_vector_norm_axis0 1) by shape.
    apply Rle_trans with (sqrt 1); [|rewrite sqrt_1; lra].
    apply sqrt_le_1_alt. simpl. lra.
  - apply H4; try shape; try lra.
    rewrite (at_vector_norm_axis0 1) by shape.
    apply Rle_trans with (sqrt (5 * 5)); [|rewrite sqrt_square; lra].
    apply sqrt_le_1_alt. simpl. lra.
Defined.

(** ** Step sizes *)

Lemma in_mask_positive a v :
  In v (mask a (vgts a 0)) <-> In v a /\ 0 < v.
Proof.
  induction a as [|u a IH]; simpl; [tauto|].
  destruct (Rltb 0 u) eqn:E; simpl; rewrite IH.
  - apply Rltb_true in E. split.
    + intros [->|[H1 H2]]; auto.
    + intros [[->|H1] H2]; auto.
  - apply Rltb_false in E. split.
    + intros [H1 H2]; auto.
    + intros [[->|H1] H2]; auto. lra.
Qed.

Lemma amin_spec l m :
  amin l = Some m -> In m l /\ forall v, In v l -> m <= v.
Proof.
  destruct l as [|u l]; simpl; [discriminate|]. intros [= <-]. split.
  - destruct (fold_left_Rmin_attained l u) as [->|H]; auto.
  - intros v [<-|Hv].
    + apply fold_left_Rmin_le_init.
    + now apply fold_left_Rmin_le_elem.
Qed.

Lemma nth_veqs a s j :
  (j < length a)%nat -> nth j (veqs a s) false = Reqb (at_ a j) s.
Proof.
  intros Hj; unfold veqs, at_.
  rewrite (nth_indep _ false (Reqb 0 s)) by (rewrite length_map; exact Hj).
  apply (map_nth (fun v => Reqb v s)).
Qed.

Lemma Forall_at (P : R -> Prop) a :
  (forall j, (j < length a)%nat -> P (at_ a j)) -> Forall P a.
Proof.
  intros H. apply Forall_forall. intros v Hv.
  destruct (In_nth _ _ 0 Hv) as (j & Hj & <-). now apply H.
Qed.

Lemma at_Forall (P : R -> Prop) a j :
  Forall P a -> (j < length a)%nat -> P (at_ a j).
Proof.
  intros H Hj. rewrite Forall_forall in H. apply H. now apply nth_In.
Qed.

(** What [xp.where(tmp == 0, xp.min(tmp[tmp > 0]), tmp)] returns. *)
Lemma replace_zeros_spec tmp tmp' :
  StepSize.replace_zeros tmp = Some tmp' ->
  exists m,
    0 < m /\ In m tmp /\ (forall v, In v tmp -> 0 < v -> m <= v)
    /\ length tmp' = length tmp
    /\ forall j, (j < length tmp)%nat ->
                 at_ tmp' j = if Reqb (at_ tmp j) 0 then m else at_ tmp j.
Proof.
  unfold StepSize.replace_zeros.
  destruct (amin (mask tmp (vgts tmp 0))) as [m|] eqn:E; [|discriminate].
  intros [= <-]. exists m.
  destruct (amin_spec _ _ E) as [Hin Hmin].
  apply in_mask_positive in Hin. destruct Hin as [Hin Hpos].
  repeat split; auto.
  - intros v Hv Hv0. apply Hmin. now apply in_mask_positive.
  - rewrite length_where. unfold veqs.
    rewrite length_map, length_full. lia.
  - intros j Hj. rewrite at_where;
      [| unfold veqs; rewrite length_map; exact Hj
       | rewrite length_full; exact Hj | exact Hj].
    rewrite nth_veqs by exact Hj. now rewrite at_full.
Qed.

Lemma replace_zeros_positive tmp tmp' :
  Forall (fun v => 0 <= v) tmp ->
  StepSize.replace_zeros tmp = Some tmp' ->
  Forall (fun v => 0 < v) tmp'.
Proof.
  intros Hnn H. destruct (replace_zeros_spec _ _ H)
    as (m & Hm & _ & _ & Hlen & Hat).
  apply Forall_at. intros j Hj. rewrite Hlen in Hj. rewrite Hat by exact Hj.
  destruct (Reqb (at_ tmp j) 0) eqn:E; [exact Hm|].
  apply Reqb_false in E.
  pose proof (at_Forall _ tmp j Hnn Hj) as H0. simpl in H0. lra.
Qed.

Lemma replace_zeros_succeeds tmp :
  Exists (fun v => 0 < v) tmp ->
  exists tmp', StepSize.replace_zeros tmp = Some tmp'.
Proof.
  intros Hex. apply Exists_exists in Hex. destruct Hex as (v & Hv & Hpos).
  unfold StepSize.replace_zeros.
  destruct (mask tmp (vgts tmp 0)) as [|u l] eqn:E.
  - assert (Hin : In v (mask tmp (vgts tmp 0)))
      by (apply in_mask_positive; auto).
    rewrite E in Hin. destruct Hin.
  - simpl. eauto.
Qed.

Lemma sdivv_positive s a :
  0 < s -> Forall (fun v => 0 < v) a -> Forall (fun v => 0 < v) (sdivv s a).
Proof.
  intros Hs Ha. unfold sdivv. apply Forall_map.
  eapply Forall_impl; [|exact Ha]. intros v Hv. simpl.
  now apply Rdiv_lt_0_compat.
Qed.

Lemma dual_step_positive gamma rho op n S_A :
  0 < gamma * rho ->
  Forall (fun v => 0 <= v) (apply op (ones n)) ->
  StepSize.dual_step gamma rho op n = Some S_A ->
  Forall (fun v => 0 < v) S_A.
Proof.
  intros Hgr Hnn. unfold StepSize.dual_step.
  destruct (StepSize.replace_zeros (apply op (ones n))) as [tmp|] eqn:E;
    [|discriminate].
  intros [= <-]. apply sdivv_positive; auto.
  now apply (replace_zeros_positive (apply op (ones n))).
Qed.

Lemma S_A_lm_positive gamma rho ops n Ss :
  0 < gamma * rho ->
  (forall op, In op ops -> Forall (fun v => 0 <= v) (apply op (ones n))) ->
  StepSize.S_A_lm gamma rho ops n = Some Ss ->
  Forall (Forall (fun v => 0 < v)) Ss.
Proof.
  intros Hgr. revert Ss. induction ops as [|op ops IH]; intros Ss Hnn; simpl.
  - intros [= <-]. constructor.
  - destruct (StepSize.dual_step gamma rho op n) as [S_k|] eqn:E;
      [|discriminate].
    destruct (StepSize.S_A_lm gamma rho ops n) as [rest|]; [|discriminate].
    intros [= <-]. constructor.
    + apply (dual_step_positive gamma rho op n); auto. apply Hnn. now left.
    + apply IH; auto. intros op' Hop'. apply Hnn. now right.
Qed.

Lemma pdhg_setup_S_A gamma rho beta op_G_norm op G n n_data ndim cont d c :
  PDHG.setup gamma rho beta op_G_norm op G n n_data ndim cont d = Some c ->
  StepSize.dual_step gamma rho op n = Some (PDHG.S_A c).
Proof.
  unfold PDHG.setup. destruct (StepSize.dual_step gamma rho op n);
    [|discriminate].
  intros [= <-]. reflexivity.
Qed.

Lemma lm_setup_S_A_lm gamma rho beta op_G_norm ops G n ndim cl mu ao c :
  LMSPDHG.setup gamma rho beta op_G_norm ops G n ndim cl mu ao = Some c ->
  StepSize.S_A_lm gamma rho ops n = Some (LMSPDHG.S_A_lm c).
Proof.
  unfold LMSPDHG.setup. destruct (StepSize.S_A_lm gamma rho ops n);
    [|discriminate].
  intros [= <-]. reflexivity.
Qed.

Lemma T_G_positive gamma rho op_G_norm :
  0 < gamma -> 0 < rho -> 0 < op_G_norm ->
  0 < StepSize.T_G gamma rho op_G_norm.
Proof.
  intros Hg Hr Hn. unfold StepSize.T_G.
  apply Rdiv_lt_0_compat; [|exact Hn].
  apply Rmult_lt_0_compat; [|exact Hr].
  apply Rdiv_lt_0_compat; lra.
Qed.

Lemma p_a_positive n : (0 < n)%nat -> 0 < StepSize.p_a n.
Proof.
  intros Hn. unfold StepSize.p_a, StepSize.p_g.
  apply Rdiv_lt_0_compat; [lra|]. now apply lt_0_INR.
Qed.

(** C5 (as the cells compute it).  The adjoint sensitivity that [T_A]
    divides by keeps its zero entries: for the operator [(1 0)] it is
    [[1; 0]], where the replacement made for the dual step would give
    [[1; 1]]; the same holds for the array that a row of [T_A_lm] divides
    by.  The entry of [T_A], and of the row of [T_A_lm], at that voxel is
    [+inf]. *)
Lemma adjoint_zero_sensitivity_not_replaced :
  StepSize.T_A_divisor Toy.first_voxel_op 1 = [1; 0]
  /\ StepSize.replace_zeros [1; 0] = Some [1; 1]
  /\ at_ (StepSize.T_A_divisor Toy.first_voxel_op 1) 1 = 0
  /\ at_ (StepSize.T_A_lm_divisor Toy.first_voxel_op [1]) 1 = 0
  /\ nth 1 (Ieee.T_A 2 0.5 Toy.first_voxel_op 1) Ieee.NaN = Ieee.PInf
  /\ nth 1 (Ieee.T_A_lm_row 2 0.5 (StepSize.p_a 1) Toy.first_voxel_op [1])
           Ieee.NaN = Ieee.PInf
  /\ ~ (forall op n_data tmp,
          StepSize.replace_zeros (adjoint op (ones n_data)) = Some tmp ->
          StepSize.T_A_divisor op n_data = tmp).
Proof.
  assert (E : StepSize.replace_zeros [1; 0] = Some [1; 1]).
  { unfold StepSize.replace_zeros. simpl. rcmp. simpl. rcmp. reflexivity. }
  assert (Ex : forall c, 0 < c -> Ieee.xdiv c 0 = Ieee.PInf).
  { intros c Hc. unfold Ieee.xdiv. rcmp. reflexivity. }
  split; [reflexivity|]. split; [exact E|].
  split; [reflexivity|]. split; [reflexivity|].
  split.
  { unfold Ieee.T_A, Ieee.sdivv. cbn [adjoint Toy.first_voxel_op map nth].
    simpl. apply Ex. lra. }
  split.
  { unfold Ieee.T_A_lm_row, Ieee.sdivv. simpl. apply Ex.
    unfold StepSize.p_a, StepSize.p_g. simpl. lra. }
  intros H. specialize (H Toy.first_voxel_op 1%nat [1; 1] E).
  unfold StepSize.T_A_divisor in H. simpl in H.
  injection H as H. lra.
Qed.

(** ** Block selection *)

Lemma inner_loop_app c ks ks' s :
  LMSPDHG.inner_loop c (ks ++ ks') s
  = LMSPDHG.inner_loop c ks' (LMSPDHG.inner_loop c ks s).
Proof. unfold LMSPDHG.inner_loop. apply fold_left_app. Qed.

Lemma lm_run_drawn rnd n c g s :
  snd (LMSPDHG.run rnd n c (g, s))
  = LMSPDHG.inner_loop c
      (LMSPDHG.drawn rnd n (2 * LMSPDHG.num_subsets c) g) s.
Proof.
  revert g s; induction n as [|n IH]; intros g s; [reflexivity|].
  rewrite lm_run_S, lm_epoch_eq, IH.
  cbn [LMSPDHG.drawn].
  destruct (LMSPDHG.permutation rnd g (2 * LMSPDHG.num_subsets c))
    as [ks g'].
  cbn [fst snd]. now rewrite inner_loop_app.
Qed.

(** * Further properties of the cells *)

(** ** Parameters and step sizes *)

(** X1.  The selection probabilities of the [num_subsets] data blocks and of
    the gradient block add up to one. *)
Theorem subset_probabilities_sum_to_one :
  (forall num_subsets : nat,
      (0 < num_subsets)%nat ->
      INR num_subsets * StepSize.p_a num_subsets + StepSize.p_g = 1)
  /\
  (forall c : LMSPDHG.config,
      (0 < LMSPDHG.num_subsets c)%nat ->
      INR (LMSPDHG.num_subsets c) * LMSPDHG.p_a c + LMSPDHG.p_g = 1).
Proof.
  assert (H : forall n, (0 < n)%nat ->
                INR n * StepSize.p_a n + StepSize.p_g = 1).
  { intros n Hn. unfold StepSize.p_a, StepSize.p_g. field.
    apply not_0_INR. lia. }
  split; [exact H|]. intros c Hc. now apply H.
Qed.

Lemma subset_probabilities_sum_to_one_witness :
  INR 28 * StepSize.p_a 28 + StepSize.p_g = 1
  /\ INR (LMSPDHG.num_subsets Toy.lm_config) * LMSPDHG.p_a Toy.lm_config
     + LMSPDHG.p_g = 1.
Proof.
  split.
  - apply (proj1 subset_probabilities_sum_to_one). lia.
  - apply (proj2 subset_probabilities_sum_to_one). shape.
Defined.

(** X2.  The gradient steps satisfy the step-size condition of PDHG: the
    product of the dual step, the primal step and the squared operator norm
    is [rho ^ 2], below one for [0 <= rho < 1], whatever the ratio
    [gamma]. *)
Theorem gradient_step_product (gamma rho op_G_norm : R) :
  gamma <> 0 -> op_G_norm <> 0 ->
  StepSize.S_G gamma rho op_G_norm * StepSize.T_G gamma rho op_G_norm
    * op_G_norm ^ 2 = rho ^ 2
  /\ (0 <= rho < 1 ->
      StepSize.S_G gamma rho op_G_norm * StepSize.T_G gamma rho op_G_norm
        * op_G_norm ^ 2 < 1).
Proof.
  intros Hg Hn.
  assert (E : StepSize.S_G gamma rho op_G_norm
              * StepSize.T_G gamma rho op_G_norm * op_G_norm ^ 2 = rho ^ 2).
  { unfold StepSize.S_G, StepSize.T_G. field. auto. }
  split; [exact E|]. intros Hr. rewrite E. nra.
Qed.

Lemma gradient_step_product_witness :
  StepSize.S_G 10 0.9999 2 * StepSize.T_G 10 0.9999 2 * 2 ^ 2 < 1.
Proof.
  apply (gradient_step_product 10 0.9999 2); lra.
Defined.

(** X3.  The dual step of a data operator times the sensitivity of a bin is
    [gamma * rho] at every bin the operator reaches, and a bin it does not
    reach gets the largest step handed to any reached bin (the step of the
    smallest positive sensitivity). *)
Theorem dual_step_times_sensitivity
    (gamma rho : R) (op : LinearOperator) (n_img : nat) (S_A : arr) (j : nat) :
  StepSize.dual_step gamma rho op n_img = Some S_A ->
  (j < length (apply op (ones n_img)))%nat ->
  let tmp := apply op (ones n_img) in
  length S_A = length tmp
  /\ (at_ tmp j <> 0 -> at_ S_A j * at_ tmp j = gamma * rho)
  /\ (at_ tmp j = 0 ->
      exists m, 0 < m /\ In m tmp
                /\ (forall v, In v tmp -> 0 < v -> m <= v)
                /\ at_ S_A j = gamma * rho / m).
Proof.
  intros HS Hj. simpl. unfold StepSize.dual_step in HS.
  destruct (StepSize.replace_zeros (apply op (ones n_img))) as [t|] eqn:E;
    [|discriminate].
  injection HS as <-.
  destruct (replace_zeros_spec _ _ E) as (m & Hm & Hin & Hmin & Hlen & Hat).
  assert (Hjt : (j < length t)%nat) by lia.
  split; [unfold sdivv; now rewrite length_map|].
  unfold sdivv. rewrite at_map by exact Hjt. rewrite Hat by exact Hj.
  split.
  - intros Hne. rewrite (proj2 (Reqb_false _ _) Hne). field. exact Hne.
  - intros H0. rewrite (proj2 (Reqb_true _ _) H0). exists m. auto.
Qed.

Lemma dual_step_times_sensitivity_witness :
  at_ (sdivv (2 * 1) [1; 1]) 0 * at_ (apply Toy.id_op (ones 2)) 0 = 2 * 1.
Proof.
  refine (proj1 (proj2 (dual_step_times_sensitivity 2 1 Toy.id_op 2
                          (sdivv (2 * 1) [1; 1]) 0 _ _)) _).
  - unfold StepSize.dual_step, StepSize.replace_zeros. simpl. rcmp. simpl.
    rcmp. reflexivity.
  - simpl. lia.
  - unfold at_. simpl. lra.
Defined.

(** ** The proximal maps *)

(** X4.  The Poisson prox returns the root of the optimality condition of
    the conjugate: with [p] the new dual entry, [yc] the candidate entry, [S]
    the step and [d] the count, [(p - yc) * (p - 1) = S * d]; and [p] never
    exceeds the candidate. *)
Theorem poisson_prox_solves_optimality (yc S d : arr) (j : nat) :
  (j < length yc)%nat -> (j < length S)%nat -> (j < length d)%nat ->
  0 <= at_ S j -> 0 <= at_ d j ->
  let p := at_ (prox_poisson_dual yc S d) j in
  (p - at_ yc j) * (p - 1) = at_ S j * at_ d j
  /\ p <= at_ yc j.
Proof.
  intros Hy HS Hd HS0 Hd0. simpl.
  rewrite at_prox_poisson_dual by assumption. unfold poisson_prox_spec.
  set (y := at_ yc j). set (s := at_ S j) in *. set (c := at_ d j) in *.
  assert (Hsc : 0 <= s * c) by now apply Rmult_le_pos.
  assert (HD : 0 <= (y - 1) ^ 2 + 4 * s * c).
  { pose proof (pow2_ge_0 (y - 1)). lra. }
  pose proof (sqrt_sqrt _ HD) as Hr.
  pose proof (sqrt_pos ((y - 1) ^ 2 + 4 * s * c)) as Hr0.
  assert (Habs : Rabs (y - 1) <= sqrt ((y - 1) ^ 2 + 4 * s * c)).
  { rewrite <- sqrt_Rsqr_abs. apply sqrt_le_1_alt. unfold Rsqr. lra. }
  pose proof (Rle_abs (- (y - 1))) as Hneg. rewrite Rabs_Ropp in Hneg.
  set (r := sqrt ((y - 1) ^ 2 + 4 * s * c)) in *.
  split; [nra | lra].
Qed.

Lemma poisson_prox_solves_optimality_witness :
  (at_ (prox_poisson_dual [3] [1] [2]) 0 - at_ [3] 0)
  * (at_ (prox_poisson_dual [3] [1] [2]) 0 - 1) = at_ [1] 0 * at_ [2] 0
  /\ at_ (prox_poisson_dual [3] [1] [2]) 0 <= at_ [3] 0.
Proof.
  apply (poisson_prox_solves_optimality [3] [1] [2] 0);
    try (simpl; lia); unfold at_; simpl; lra.
Defined.

(** X5.  The primal update is the projection of the gradient step: at every
    voxel the new image is [max (0, x - T * zbar)], in PDHG and in
    LM-SPDHG. *)
Theorem primal_update_is_clipped_step :
  (forall x T zbar j,
      (j < length x)%nat -> (j < length T)%nat -> (j < length zbar)%nat ->
      at_ (primal_update x T zbar) j
      = Rmax 0 (at_ x j - at_ T j * at_ zbar j))
  /\
  (forall c s j,
      (j < length (PDHG.x_pdhg s))%nat -> (j < length (PDHG.T c))%nat ->
      (j < length (PDHG.zbar s))%nat ->
      at_ (PDHG.x_pdhg (PDHG.step c s)) j
      = Rmax 0 (at_ (PDHG.x_pdhg s) j
                - at_ (PDHG.T c) j * at_ (PDHG.zbar s) j))
  /\
  (forall c s k j,
      (j < length (LMSPDHG.x_lmspdhg s))%nat ->
      (j < length (LMSPDHG.T_lm c))%nat ->
      (j < length (LMSPDHG.zbar s))%nat ->
      at_ (LMSPDHG.x_lmspdhg (LMSPDHG.step c s k)) j
      = Rmax 0 (at_ (LMSPDHG.x_lmspdhg s) j
                - at_ (LMSPDHG.T_lm c) j * at_ (LMSPDHG.zbar s) j)).
Proof.
  assert (H : forall x T zbar j,
      (j < length x)%nat -> (j < length T)%nat -> (j < length zbar)%nat ->
      at_ (primal_update x T zbar) j
      = Rmax 0 (at_ x j - at_ T j * at_ zbar j)).
  { intros x T zbar j Hx HT Hz. unfold primal_update.
    assert (Hl : (j < length (vsub x (vmul T zbar)))%nat).
    { unfold vsub, vmul. rewrite !length_zipWith. lia. }
    rewrite at_where;
      [| unfold vlts; rewrite length_map; exact Hl
       | unfold zeros_like, zeros; rewrite length_full; exact Hl
       | exact Hl].
    rewrite nth_vlts by exact Hl.
    unfold zeros_like, zeros. rewrite at_full by exact Hl.
    unfold vsub. rewrite at_zipWith
      by (auto; unfold vmul; rewrite length_zipWith; lia).
    unfold vmul. rewrite at_zipWith by assumption.
    set (v := at_ x j - at_ T j * at_ zbar j).
    unfold Rmax. destruct (Rltb v 0) eqn:E; destruct (Rle_dec 0 v); auto.
    - apply Rltb_true in E. lra.
    - apply Rltb_false in E. lra. }
  split; [exact H|]. split.
  - intros c s j Hx HT Hz. simpl. now apply H.
  - intros c s k j Hx HT Hz. rewrite lm_x_step. now apply H.
Qed.

Lemma primal_update_is_clipped_step_witness :
  at_ (primal_update [1; 2] [1; 1] [3; 1]) 0 = Rmax 0 (1 - 1 * 3)
  /\ at_ (PDHG.x_pdhg (PDHG.step Toy.pdhg_config Toy.pdhg_state)) 1
     = Rmax 0 (at_ (PDHG.x_pdhg Toy.pdhg_state) 1
               - at_ (PDHG.T Toy.pdhg_config) 1
                 * at_ (PDHG.zbar Toy.pdhg_state) 1)
  /\ at_ (LMSPDHG.x_lmspdhg (LMSPDHG.step Toy.lm_config Toy.lm_state 0)) 0
     = Rmax 0 (at_ (LMSPDHG.x_lmspdhg Toy.lm_state) 0
               - at_ (LMSPDHG.T_lm Toy.lm_config) 0
                 * at_ (LMSPDHG.zbar Toy.lm_state) 0).
Proof.
  destruct primal_update_is_clipped_step as (H1 & H2 & H3).
  split; [|split].
  - apply (H1 [1; 2] [1; 1] [3; 1] 0%nat); simpl; lia.
  - apply H2; simpl; lia.
  - apply H3; simpl; lia.
Defined.

(** ** The replacement of zero sensitivities *)

Lemma where_all_false (c : list bool) (a b : arr) :
  length c = length b -> length a = length b ->
  Forall (fun t => t = false) c -> where_ c a b = b.
Proof.
  revert a b; induction c as [|t c IH]; intros [|u a] [|v b] Hc Ha Hf;
    simpl in *; try discriminate; auto.
  inversion Hf as [|? ? Ht Hf']; subst. f_equal. apply IH; auto.
Qed.

(** X6.  The replacement [xp.where(tmp == 0, xp.min(tmp[tmp > 0]), tmp)]
    fails exactly when [tmp] has no positive entry (an empty or all-zero
    sensitivity array, but also an array without zeros whose entries are all
    negative, because the minimum is taken before it is needed); it returns
    [tmp] itself when [tmp] has a positive entry and no zero; and applied to
    its own result on a non-negative array it changes nothing. *)
Theorem replace_zeros_edge_cases :
  (forall tmp,
      StepSize.replace_zeros tmp = None <-> Forall (fun v => v <= 0) tmp)
  /\
  (forall tmp,
      Exists (fun v => 0 < v) tmp -> Forall (fun v => v <> 0) tmp ->
      StepSize.replace_zeros tmp = Some tmp)
  /\
  (forall tmp tmp',
      Forall (fun v => 0 <= v) tmp ->
      StepSize.replace_zeros tmp = Some tmp' ->
      StepSize.replace_zeros tmp' = Some tmp').
Proof.
  assert (Hnone : forall tmp,
      StepSize.replace_zeros tmp = None <-> Forall (fun v => v <= 0) tmp).
  { intros tmp. split.
    - intros HN. apply Forall_forall. intros v Hv.
      destruct (Rle_dec v 0) as [|Hpos]; auto.
      destruct (replace_zeros_succeeds tmp) as [t Ht].
      + apply Exists_exists. exists v. split; [exact Hv | lra].
      + congruence.
    - intros Hall. destruct (StepSize.replace_zeros tmp) as [t|] eqn:E; auto.
      destruct (replace_zeros_spec _ _ E) as (m & Hm & Hin & _).
      rewrite Forall_forall in Hall. specialize (Hall m Hin). lra. }
  assert (Hid : forall tmp,
      Exists (fun v => 0 < v) tmp -> Forall (fun v => v <> 0) tmp ->
      StepSize.replace_zeros tmp = Some tmp).
  { intros tmp Hex Hnz. destruct (replace_zeros_succeeds tmp Hex) as [t Ht].
    rewrite Ht. f_equal. revert Ht. unfold StepSize.replace_zeros.
    destruct (amin (mask tmp (vgts tmp 0))) as [m|]; [|discriminate].
    intros [= <-]. apply where_all_false.
    - unfold veqs. now rewrite length_map.
    - apply length_full.
    - unfold veqs. apply Forall_map.
      eapply Forall_impl; [|exact Hnz]. intros v Hv. simpl.
      now apply Reqb_false. }
  split; [exact Hnone|]. split; [exact Hid|].
  intros tmp tmp' Hnn E.
  pose proof (replace_zeros_positive tmp tmp' Hnn E) as Hpos.
  destruct (replace_zeros_spec _ _ E) as (m & Hm & Hin & _ & Hlen & _).
  apply Hid.
  - destruct tmp' as [|u t]; [destruct tmp; [destruct Hin | discriminate]|].
    apply Exists_cons_hd. now inversion Hpos.
  - eapply Forall_impl; [|exact Hpos]. intros v Hv. simpl in Hv. lra.
Qed.

Lemma replace_zeros_edge_cases_witness :
  StepSize.replace_zeros [0; 0] = None
  /\ StepSize.replace_zeros [2; 3] = Some [2; 3]
  /\ StepSize.replace_zeros [1; 1] = Some [1; 1].
Proof.
  destruct replace_zeros_edge_cases as (H1 & H2 & H3).
  split; [|split].
  - apply H1. repeat constructor; lra.
  - apply H2; [constructor; lra | repeat constructor; lra].
  - apply (H3 [1; 0]); [repeat constructor; lra|].
    unfold StepSize.replace_zeros. simpl. rcmp. simpl. rcmp. reflexivity.
Defined.

(** ** The block schedule and the subset slices *)

Lemma length_filter_Permutation (f : nat -> bool) l l' :
  Permutation l l' -> length (filter f l) = length (filter f l').
Proof.
  intros H; induction H as [|x l l' H IH|x y l|l l' l'' H1 IH1 H2 IH2];
    simpl; auto.
  - destruct (f x); simpl; auto.
  - destruct (f x), (f y); simpl; auto.
  - congruence.
Qed.

Lemma filter_ltb_seq_low n start len :
  (start + len <= n)%nat ->
  filter (fun k => (k <? n)%nat) (seq start len) = seq start len.
Proof.
  revert start; induction len as [|len IH]; intros start H; simpl; auto.
  destruct (Nat.ltb_spec start n); [|lia]. f_equal. apply IH. lia.
Qed.

Lemma filter_ltb_seq_high n start len :
  (n <= start)%nat ->
  filter (fun k => (k <? n)%nat) (seq start len) = [].
Proof.
  revert start; induction len as [|len IH]; intros start H; simpl; auto.
  destruct (Nat.ltb_spec start n); [lia|]. apply IH. lia.
Qed.

Lemma count_occ_seq_in k start len :
  (start <= k < start + len)%nat ->
  count_occ Nat.eq_dec (seq start len) k = 1%nat.
Proof.
  revert start; induction len as [|len IH]; intros start H; simpl; [lia|].
  destruct (Nat.eq_dec start k) as [->|Hne].
  - f_equal. apply count_occ_not_In. rewrite in_seq. lia.
  - apply IH. lia.
Qed.

(** X7.  An epoch draws [subset_sequence = np.random.permutation (2 n)]
    ([n] the number of subsets) and runs the loop body once for each of its
    entries, in order.  The body takes the data branch, updating [ys[k]] and
    using [p_a], for every entry [k < n], and the gradient branch, updating
    [w] and using [p_g], for every other entry.  When the draw is a
    permutation of [0, ..., 2 n - 1], the epoch has [2 n] inner steps, every
    data subset is updated exactly once, and the gradient branch is taken
    exactly [n] times: half of the inner steps are gradient steps. *)
Theorem epoch_schedule_counts
    (rnd : LMSPDHG.NpRandom) (c : LMSPDHG.config) (g : LMSPDHG.rng_state rnd) :
  let n := LMSPDHG.num_subsets c in
  let subset_sequence := fst (LMSPDHG.permutation rnd g (2 * n)) in
  Permutation subset_sequence (seq 0 (2 * n)) ->
  (forall s,
      LMSPDHG.epoch rnd c (g, s)
      = (snd (LMSPDHG.permutation rnd g (2 * n)),
         fold_left (LMSPDHG.step c) subset_sequence s))
  /\ length subset_sequence = (2 * n)%nat
  /\ (forall k s, (k <? n)%nat = true ->
        LMSPDHG.step c s k
        = {| LMSPDHG.x_lmspdhg := LMSPDHG.x_next c s;
             LMSPDHG.ys := setitem (LMSPDHG.ys s) k (LMSPDHG.y_plus c s k);
             LMSPDHG.w_lm := LMSPDHG.w_lm s;
             LMSPDHG.z := vadd (LMSPDHG.z s) (LMSPDHG.dz_data c s k);
             LMSPDHG.zbar :=
               vadd (vadd (LMSPDHG.z s) (LMSPDHG.dz_data c s k))
                    (vdivs (LMSPDHG.dz_data c s k) (LMSPDHG.p_a c)) |})
  /\ (forall k s, (k <? n)%nat = false ->
        LMSPDHG.step c s k
        = {| LMSPDHG.x_lmspdhg := LMSPDHG.x_next c s;
             LMSPDHG.ys := LMSPDHG.ys s;
             LMSPDHG.w_lm := LMSPDHG.w_plus c s;
             LMSPDHG.z := vadd (LMSPDHG.z s) (LMSPDHG.dz_grad c s);
             LMSPDHG.zbar :=
               vadd (vadd (LMSPDHG.z s) (LMSPDHG.dz_grad c s))
                    (vdivs (LMSPDHG.dz_grad c s) LMSPDHG.p_g) |})
  /\ (forall k, (k < n)%nat ->
                count_occ Nat.eq_dec subset_sequence k = 1%nat)
  /\ length (filter (fun k => (k <? n)%nat) subset_sequence) = n
  /\ length (filter (fun k => negb (k <? n)%nat) subset_sequence) = n.
Proof.
  intros n ks HP.
  assert (Hlen : length ks = (2 * n)%nat).
  { rewrite (Permutation_length HP). apply length_seq. }
  assert (Hlow : length (filter (fun k => (k <? n)%nat) ks) = n).
  { rewrite (length_filter_Permutation _ _ _ HP).
    replace (2 * n)%nat with (n + n)%nat by lia.
    rewrite seq_app, filter_app.
    rewrite filter_ltb_seq_low by lia.
    rewrite filter_ltb_seq_high by lia.
    rewrite app_nil_r. apply length_seq. }
  split; [intros s; apply lm_epoch_eq|].
  split; [exact Hlen|].
  split; [intros k s Hk; apply Nat.ltb_lt in Hk; now apply lm_step_data|].
  split; [intros k s Hk; apply Nat.ltb_ge in Hk; now apply lm_step_grad|].
  split; [|split; [exact Hlow|]].
  - intros k Hk.
    rewrite (proj1 (Permutation_count_occ Nat.eq_dec _ _) HP k).
    apply count_occ_seq_in. lia.
  - pose proof (filter_length (fun k => (k <? n)%nat) ks) as Hsum.
    lia.
Qed.

Lemma epoch_schedule_counts_witness :
  (forall s,
      LMSPDHG.epoch Toy.rotating Toy.lm_config (2%nat, s)
      = (3%nat, fold_left (LMSPDHG.step Toy.lm_config) [2; 3; 0; 1]%nat s))
  /\ count_occ Nat.eq_dec
       (fst (LMSPDHG.permutation Toy.rotating 2%nat
               (2 * LMSPDHG.num_subsets Toy.lm_config))) 1%nat = 1%nat.
Proof.
  assert (HP : Permutation
                 (fst (LMSPDHG.permutation Toy.rotating 2%nat
                         (2 * LMSPDHG.num_subsets Toy.lm_config)))
                 (seq 0 (2 * LMSPDHG.num_subsets Toy.lm_config))).
  { change (Permutation [2; 3; 0; 1]%nat [0; 1; 2; 3]%nat).
    apply (Permutation_app_comm [2; 3]%nat [0; 1]%nat). }
  destruct (epoch_schedule_counts Toy.rotating Toy.lm_config 2%nat HP)
    as (H1 & _ & _ & _ & H5 & _).
  split.
  - exact H1.
  - apply H5. unfold LMSPDHG.num_subsets. simpl. lia.
Defined.

Lemma stride_spec (fuel n : nat) (a : arr) (i : nat) :
  (0 < n)%nat -> (length a <= fuel)%nat ->
  ((i < length (stride fuel n a))%nat <-> (i * n < length a)%nat)
  /\ nth i (stride fuel n a) 0 = nth (i * n) a 0.
Proof.
  intros Hn. revert a i. induction fuel as [|fuel IH]; intros a i Hf.
  - destruct a; [|simpl in Hf; lia]. cbn [stride]. split; [simpl; lia|].
    now rewrite !nth_overflow by (simpl; lia).
  - destruct a as [|u a].
    + cbn [stride]. split; [simpl; lia|].
      now rewrite !nth_overflow by (simpl; lia).
    + cbn [stride]. destruct i as [|i].
      * simpl. split; [lia | reflexivity].
      * assert (Hrest : (length (skipn n (u :: a)) <= fuel)%nat).
        { rewrite length_skipn. cbn [length] in *. lia. }
        destruct (IH (skipn n (u :: a)) i Hrest) as [Hlen Hnth].
        rewrite length_skipn in Hlen. split.
        -- cbn [length] in *. lia.
        -- replace (S i * n)%nat with (n + i * n)%nat by lia.
           rewrite <- nth_skipn, <- Hnth. reflexivity.
Qed.

Lemma slice_from_spec (k n : nat) (a : arr) (i : nat) :
  (0 < n)%nat ->
  ((i < length (slice_from k n a))%nat <-> (k + i * n < length a)%nat)
  /\ nth i (slice_from k n a) 0 = nth (k + i * n) a 0.
Proof.
  intros Hn. unfold slice_from.
  assert (Hf : (length (skipn k a) <= length a)%nat)
    by (rewrite length_skipn; lia).
  destruct (stride_spec (length a) n (skipn k a) i Hn Hf) as [Hlen Hnth].
  rewrite length_skipn in Hlen. split; [lia|].
  now rewrite Hnth, nth_skipn.
Qed.

(** X8.  The slices [a[k::n]], [k = 0, ..., n-1], split a list without loss
    or overlap: entry [i] of slice [k] is entry [k + i * n] of the list and
    exists exactly when that index is in range; entry [j] of the list is
    entry [j / n] of slice [j mod n]; and two slots of two slices below [n]
    that hold the same index are the same slot. *)
Theorem subset_slices_partition (n : nat) (a : arr) :
  (0 < n)%nat ->
  (forall k i,
      ((i < length (slice_from k n a))%nat <-> (k + i * n < length a)%nat)
      /\ at_ (slice_from k n a) i = at_ a (k + i * n))
  /\
  (forall j, (j < length a)%nat ->
      (j mod n < n)%nat
      /\ (j / n < length (slice_from (j mod n) n a))%nat
      /\ at_ (slice_from (j mod n) n a) (j / n) = at_ a j)
  /\
  (forall k k' i i',
      (k < n)%nat -> (k' < n)%nat -> (k + i * n = k' + i' * n)%nat ->
      k = k' /\ i = i').
Proof.
  intros Hn. split; [|split].
  - intros k i. unfold at_. now apply slice_from_spec.
  - intros j Hj.
    assert (Hdm : (j mod n + (j / n) * n = j)%nat).
    { pose proof (Nat.div_mod_eq j n). lia. }
    split; [apply Nat.mod_upper_bound; lia|].
    destruct (slice_from_spec (j mod n) n a (j / n) Hn) as [Hlen Hnth].
    split; [apply Hlen; lia|].
    unfold at_. rewrite Hnth. now rewrite Hdm.
  - intros k k' i i' Hk Hk' E.
    assert (Ei : i = i') by nia. subst i'. split; [lia | reflexivity].
Qed.

Lemma subset_slices_partition_witness :
  at_ (slice_from 1 2 [10; 11; 12; 13; 14]) 1 = at_ [10; 11; 12; 13; 14] 3
  /\ at_ (slice_from (4 mod 2) 2 [10; 11; 12; 13; 14]) (4 / 2)
     = at_ [10; 11; 12; 13; 14] 4.
Proof.
  destruct (subset_slices_partition 2 [10; 11; 12; 13; 14]) as (H1 & H2 & _);
    [lia|].
  split.
  - apply (H1 1%nat 1%nat).
  - apply (H2 4%nat). simpl. lia.
Defined.

Lemma length_S_A_lm gamma rho ops n Ss :
  StepSize.S_A_lm gamma rho ops n = Some Ss -> length Ss = length ops.
Proof.
  revert Ss; induction ops as [|op ops IH]; intros Ss; simpl.
  - intros [= <-]. reflexivity.
  - destruct (StepSize.dual_step gamma rho op n); [|discriminate].
    destruct (StepSize.S_A_lm gamma rho ops n) as [rest|]; [|discriminate].
    intros [= <-]. simpl. f_equal. now apply IH.
Qed.

Lemma lm_length_ys_step c s k :
  length (LMSPDHG.ys (LMSPDHG.step c s k)) = length (LMSPDHG.ys s).
Proof.
  destruct (Nat.lt_ge_cases k (LMSPDHG.num_subsets c)) as [Hk|Hk].
  - rewrite lm_step_data by exact Hk. simpl. apply length_setitem.
  - rewrite lm_step_grad by exact Hk. reflexivity.
Qed.

(** X9.  Bookkeeping of the dual variables of LM-SPDHG.  The list [ys] and
    the list [S_A_lm] have one entry per subset, at the start and after any
    block sequence, so an index that takes the data branch is always in
    range.  A step on data block [k] rewrites [ys[k]] only and leaves [w_lm]
    alone; a gradient step leaves every [ys[i]] alone. *)
Theorem lm_dual_bookkeeping :
  (forall c x_mlem subset_sequence,
      length (LMSPDHG.ys (LMSPDHG.inner_loop c subset_sequence
                            (LMSPDHG.init c x_mlem)))
      = LMSPDHG.num_subsets c)
  /\
  (forall gamma rho beta op_G_norm ops G n ndim cl mu ao c,
      LMSPDHG.setup gamma rho beta op_G_norm ops G n ndim cl mu ao = Some c ->
      length (LMSPDHG.S_A_lm c) = LMSPDHG.num_subsets c)
  /\
  (forall c s k i, i <> k ->
      LMSPDHG.ys_k (LMSPDHG.step c s k) i = LMSPDHG.ys_k s i)
  /\
  (forall c s k, (k < LMSPDHG.num_subsets c)%nat ->
      LMSPDHG.w_lm (LMSPDHG.step c s k) = LMSPDHG.w_lm s)
  /\
  (forall c s k, (LMSPDHG.num_subsets c <= k)%nat ->
      LMSPDHG.ys (LMSPDHG.step c s k) = LMSPDHG.ys s).
Proof.
  split; [|split; [|split; [|split]]].
  - intros c x_mlem ks.
    assert (H0 : length (LMSPDHG.ys (LMSPDHG.init c x_mlem))
                 = LMSPDHG.num_subsets c).
    { simpl. now rewrite length_map, length_seq. }
    generalize dependent (LMSPDHG.init c x_mlem).
    induction ks as [|k ks IH]; intros s Hs; simpl; auto.
    apply IH. now rewrite lm_length_ys_step.
  - intros gamma rho beta op_G_norm ops G n ndim cl mu ao c Hc.
    pose proof (lm_setup_S_A_lm _ _ _ _ _ _ _ _ _ _ _ _ Hc) as HS.
    apply length_S_A_lm in HS. rewrite HS.
    unfold LMSPDHG.setup in Hc.
    destruct (StepSize.S_A_lm gamma rho ops n); [|discriminate].
    injection Hc as <-. reflexivity.
  - intros c s k i Hik. rewrite lm_ys_step.
    replace (i =? k)%nat with false by (symmetry; now apply Nat.eqb_neq).
    now rewrite andb_false_r.
  - intros c s k Hk. now rewrite lm_step_data by exact Hk.
  - intros c s k Hk. now rewrite lm_step_grad by exact Hk.
Qed.

Lemma lm_dual_bookkeeping_witness :
  (exists c, Toy.lm_setup = Some c
             /\ length (LMSPDHG.S_A_lm c) = LMSPDHG.num_subsets c)
  /\ LMSPDHG.ys_k (LMSPDHG.step Toy.lm_config Toy.lm_state 1) 0
     = LMSPDHG.ys_k Toy.lm_state 0
  /\ LMSPDHG.w_lm (LMSPDHG.step Toy.lm_config Toy.lm_state 1)
     = LMSPDHG.w_lm Toy.lm_state
  /\ LMSPDHG.ys (LMSPDHG.step Toy.lm_config Toy.lm_state 2)
     = LMSPDHG.ys Toy.lm_state.
Proof.
  destruct lm_dual_bookkeeping as (_ & H2 & H3 & H4 & H5).
  split; [|split; [|split]].
  - eexists. split; [run_setup|].
    eapply (H2 1 1 1 1 [Toy.id_op; Toy.id_op] Toy.one_row_op 1%nat 1%nat
              [1; 1] [1; 2] [2]). run_setup.
  - apply H3. lia.
  - apply H4. shape.
  - apply H5. shape.
Defined.

(** ** The dual gradient variable *)

Lemma group_sumsq_fdivv n f a j :
  rows_of n f -> (j < n)%nat -> (j < length a)%nat -> at_ a j <> 0 ->
  group_sumsq (fdivv f a) j = group_sumsq f j / at_ a j ^ 2.
Proof.
  intros Hf Hj Ha Hne. induction Hf as [|r f Hr Hf IH].
  - simpl. unfold Rdiv. ring.
  - change (at_ (vdiv r a) j ^ 2 + group_sumsq (fdivv f a) j
            = (at_ r j ^ 2 + group_sumsq f j) / at_ a j ^ 2).
    rewrite IH. unfold vdiv. rewrite at_zipWith by lia. field. exact Hne.
Qed.

Lemma group_sumsq_fmuls n f beta j :
  rows_of n f -> (j < n)%nat ->
  group_sumsq (fmuls f beta) j = beta ^ 2 * group_sumsq f j.
Proof.
  intros Hf Hj. induction Hf as [|r f Hr Hf IH].
  - simpl. ring.
  - change (at_ (smulv beta r) j ^ 2 + group_sumsq (fmuls f beta) j
            = beta ^ 2 * (at_ r j ^ 2 + group_sumsq f j)).
    rewrite IH. unfold smulv. rewrite at_map by lia. ring.
Qed.

Lemma tv_ball_project_in_unit_ball n f j :
  rows_of n f -> (j < n)%nat ->
  at_ (vector_norm_axis0 n (tv_ball_project n f)) j <= 1.
Proof.
  intros Hf Hj.
  destruct (shape_tv_ball_project n f Hf) as [_ Hrp].
  rewrite (at_vector_norm_axis0 n) by assumption.
  pose proof (length_vector_norm_axis0 n f Hf) as Hld.
  pose proof (at_vector_norm_axis0 n f j Hf Hj) as Hden.
  pose proof (at_tv_divisor (vector_norm_axis0 n f) j
                ltac:(rewrite Hld; exact Hj)) as Hdiv.
  set (div := at_ (tv_divisor (vector_norm_axis0 n f)) j) in *.
  assert (Hdiv1 : 1 <= div /\ sqrt (group_sumsq f j) <= div).
  { rewrite Hden in Hdiv.
    destruct (Rltb (sqrt (group_sumsq f j)) 1) eqn:E; rewrite Hdiv.
    - apply Rltb_true in E. lra.
    - apply Rltb_false in E. lra. }
  destruct Hdiv1 as [H1 H2].
  unfold tv_ball_project.
  rewrite (group_sumsq_fdivv n);
    [| exact Hf | exact Hj | rewrite length_tv_divisor, Hld; exact Hj
     | fold div; lra].
  fold div.
  rewrite sqrt_div_alt by (apply pow_lt; lra).
  rewrite sqrt_pow2 by lra.
  apply (Rmult_le_reg_r div); [lra|].
  unfold Rdiv. rewrite Rmult_assoc, Rinv_l by lra. lra.
Qed.

Lemma norm_fmuls n f beta j :
  rows_of n f -> (j < n)%nat ->
  at_ (vector_norm_axis0 n (fmuls f beta)) j
  = Rabs beta * at_ (vector_norm_axis0 n f) j.
Proof.
  intros Hf Hj.
  rewrite !(at_vector_norm_axis0 n) by (auto using shape_fmuls).
  rewrite (group_sumsq_fmuls n) by assumption.
  rewrite sqrt_mult_alt by apply pow2_ge_0.
  f_equal. replace (beta ^ 2) with (Rsqr beta) by (unfold Rsqr; ring).
  apply sqrt_Rsqr_abs.
Qed.

Lemma tv_dual_update_norm n w S_G gx beta j :
  rows_of n w -> rows_of n gx -> (j < n)%nat ->
  at_ (vector_norm_axis0 n (tv_dual_update n w S_G gx beta)) j <= Rabs beta.
Proof.
  intros Hw Hg Hj.
  assert (Hc : rows_of n (fdivs (tv_candidate w S_G gx) beta)).
  { apply shape_fdivs. unfold tv_candidate, fadd, smulf.
    apply rows_of_zipWith; auto.
    - intros; now apply length_zipWith_same.
    - apply rows_of_map; auto. intros r Hr. unfold smulv.
      now rewrite length_map. }
  destruct (shape_tv_ball_project n _ Hc) as [_ Hrp].
  unfold tv_dual_update. rewrite norm_fmuls by assumption.
  pose proof (tv_ball_project_in_unit_ball n _ j Hc Hj) as H1.
  pose proof (Rabs_pos beta) as Hb.
  replace (Rabs beta) with (Rabs beta * 1) at 2 by ring.
  now apply Rmult_le_compat_l.
Qed.

(** X10.  The TV prox returns a dual variable inside the ball of radius
    [|beta|]: after the dual gradient update of either loop, the Euclidean
    norm of every voxel group of [w] is at most [|beta|], whatever the
    candidate was ([beta] non-zero, as the update divides by it). *)
Theorem tv_dual_stays_in_ball :
  (forall n w S_G gx beta j,
      beta <> 0 ->
      rows_of n w -> rows_of n gx -> (j < n)%nat ->
      at_ (vector_norm_axis0 n (tv_dual_update n w S_G gx beta)) j
      <= Rabs beta)
  /\
  (forall c s j,
      PDHG.beta c <> 0 ->
      rows_of (PDHG.n_img c) (PDHG.w s) ->
      rows_of (PDHG.n_img c) (gapply (PDHG.op_G c) (PDHG.x_next c s)) ->
      (j < PDHG.n_img c)%nat ->
      at_ (vector_norm_axis0 (PDHG.n_img c) (PDHG.w (PDHG.step c s))) j
      <= Rabs (PDHG.beta c))
  /\
  (forall c s k j,
      (LMSPDHG.num_subsets c <= k)%nat ->
      LMSPDHG.beta c <> 0 ->
      rows_of (LMSPDHG.n_img c) (LMSPDHG.w_lm s) ->
      rows_of (LMSPDHG.n_img c)
              (gapply (LMSPDHG.op_G c) (LMSPDHG.x_next c s)) ->
      (j < LMSPDHG.n_img c)%nat ->
      at_ (vector_norm_axis0 (LMSPDHG.n_img c)
             (LMSPDHG.w_lm (LMSPDHG.step c s k))) j
      <= Rabs (LMSPDHG.beta c)).
Proof.
  split; [|split].
  - intros n w S_G gx beta j _. apply tv_dual_update_norm.
  - intros c s j _ Hw Hg Hj. unfold PDHG.step; simpl. rewrite fmuls_1.
    now apply tv_dual_update_norm.
  - intros c s k j Hk _ Hw Hg Hj. rewrite lm_step_grad by exact Hk. simpl.
    now apply tv_dual_update_norm.
Qed.

Lemma tv_dual_stays_in_ball_witness :
  at_ (vector_norm_axis0 1 (tv_dual_update 1 [[0]; [0]] 1 [[30]; [40]] 5)) 0
  <= Rabs 5
  /\ at_ (vector_norm_axis0 (PDHG.n_img Toy.pdhg_config)
            (PDHG.w (PDHG.step Toy.pdhg_config Toy.pdhg_state))) 1
     <= Rabs (PDHG.beta Toy.pdhg_config)
  /\ at_ (vector_norm_axis0 (LMSPDHG.n_img Toy.lm_config)
            (LMSPDHG.w_lm (LMSPDHG.step Toy.lm_config Toy.lm_state 2))) 0
     <= Rabs (LMSPDHG.beta Toy.lm_config).
Proof.
  destruct tv_dual_stays_in_ball as (H1 & H2 & H3).
  split; [|split].
  - apply H1; try shape; lra.
  - apply H2; try shape; simpl; lra.
  - apply H3; try shape; simpl; lra.
Defined.

(** ** The dual data variable along a whole run *)

Lemma Forall_zipWith (P Q Rr : R -> Prop) (f : R -> R -> R) a b :
  (forall u v, P u -> Q v -> Rr (f u v)) ->
  Forall P a -> Forall Q b -> Forall Rr (zipWith f a b).
Proof.
  intros Hf Ha; revert b. induction Ha as [|u a Hu Ha IH]; intros b Hb.
  - constructor.
  - destruct Hb as [|v b Hv Hb]; simpl; constructor; auto.
Qed.

(** [1 - d / e] is at most 1 for non-negative [d] and positive [e]. *)
Lemma initial_dual_le_1 d e :
  Forall (fun v => 0 <= v) d -> Forall (fun v => 0 < v) e ->
  Forall (fun v => v <= 1) (ssubv 1 (vdiv d e)).
Proof.
  intros Hd He. unfold ssubv. apply Forall_map.
  assert (H : Forall (fun v => 0 <= v) (vdiv d e)).
  { unfold vdiv.
    apply (Forall_zipWith (fun v => 0 <= v) (fun v => 0 < v)); auto.
    intros u v Hu Hv. apply Rmult_le_pos; [exact Hu|].
    left. now apply Rinv_0_lt_compat. }
  eapply Forall_impl; [|exact H]. intros v Hv. simpl in *. lra.
Qed.

Lemma lm_y_plus_le_1 c s k :
  Forall (Forall (fun v => 0 <= v)) (LMSPDHG.S_A_lm c) ->
  Forall (fun v => 0 <= v) (LMSPDHG.mu c) ->
  Forall (fun v => v <= 1) (LMSPDHG.y_plus c s k).
Proof.
  intros HS Hmu. unfold LMSPDHG.y_plus. apply prox_poisson_dual_le_1.
  - unfold LMSPDHG.S_k. now apply Forall_nth_row.
  - unfold LMSPDHG.mu_sl. now apply Forall_slice_from.
Qed.

Lemma lm_ys_le_1_inner_loop c ks s :
  Forall (Forall (fun v => 0 <= v)) (LMSPDHG.S_A_lm c) ->
  Forall (fun v => 0 <= v) (LMSPDHG.mu c) ->
  (forall i, Forall (fun v => v <= 1) (LMSPDHG.ys_k s i)) ->
  forall i, Forall (fun v => v <= 1)
                   (LMSPDHG.ys_k (LMSPDHG.inner_loop c ks s) i).
Proof.
  intros HS Hmu. revert s. induction ks as [|k ks IH]; intros s Hinv i.
  - apply Hinv.
  - simpl. apply IH. intros i'. rewrite lm_ys_step.
    destruct ((k <? LMSPDHG.num_subsets c) && (i' =? k)
              && (k <? length (LMSPDHG.ys s)))%nat%bool.
    + now apply lm_y_plus_le_1.
    + apply Hinv.
Qed.

(** X11.  The dual data variable never exceeds 1, from the initialisation
    on.  With non-negative counts, non-negative dual steps and a positive
    expected count [A x + s] at the start image, every entry of [y] is at
    most 1 after any number of PDHG iterations (none included); likewise
    every entry of every [ys[k]] in LM-SPDHG, with the multiplicities in the
    place of the counts, after any block sequence. *)
Theorem dual_data_never_exceeds_one :
  (forall (c : PDHG.config) (x_mlem : arr) (n : nat),
      Forall (fun v => 0 <= v) (PDHG.S_A c) ->
      Forall (fun v => 0 <= v) (PDHG.d c) ->
      Forall (fun v => 0 < v)
             (vadd (apply (PDHG.pet_lin_op c) (smulv 1 x_mlem))
                   (PDHG.contamination c)) ->
      Forall (fun v => v <= 1)
             (PDHG.y (PDHG.run n c (PDHG.init c x_mlem))))
  /\
  (forall (c : LMSPDHG.config) (x_mlem : arr) (subset_sequence : list nat)
          (i : nat),
      Forall (Forall (fun v => 0 <= v)) (LMSPDHG.S_A_lm c) ->
      Forall (fun v => 0 <= v) (LMSPDHG.mu c) ->
      (forall k, (k < LMSPDHG.num_subsets c)%nat ->
         Forall (fun v => 0 < v)
                (vadd (apply (LMSPDHG.lm_op c k) (smulv 1 x_mlem))
                      (LMSPDHG.contamination_sl c k))) ->
      Forall (fun v => v <= 1)
             (LMSPDHG.ys_k
                (LMSPDHG.inner_loop c subset_sequence
                   (LMSPDHG.init c x_mlem)) i)).
Proof.
  split.
  - intros c x_mlem n HS Hd He. destruct n as [|n].
    + simpl. now apply initial_dual_le_1.
    + rewrite pdhg_run_S, pdhg_y_step. unfold PDHG.y_plus.
      now apply prox_poisson_dual_le_1.
  - intros c x_mlem ks i HS Hmu He.
    apply lm_ys_le_1_inner_loop; auto. clear i. intros i.
    unfold LMSPDHG.ys_k, LMSPDHG.init; cbn [LMSPDHG.ys].
    destruct (Nat.lt_ge_cases i (LMSPDHG.num_subsets c)) as [Hi|Hi].
    + set (f := fun k : nat => ssubv 1 _).
      rewrite (nth_indep _ [] (f 0%nat))
        by (rewrite length_map, length_seq; exact Hi).
      rewrite (map_nth f), seq_nth by exact Hi. unfold f. simpl.
      apply initial_dual_le_1; [|now apply He].
      unfold LMSPDHG.mu_sl. now apply Forall_slice_from.
    + rewrite nth_overflow by (rewrite length_map, length_seq; exact Hi).
      constructor.
Qed.

Lemma dual_data_never_exceeds_one_witness :
  Forall (fun v => v <= 1)
         (PDHG.y (PDHG.run 0 Toy.pdhg_config
                    (PDHG.init Toy.pdhg_config Toy.x_mlem)))
  /\ Forall (fun v => v <= 1)
            (LMSPDHG.ys_k
               (LMSPDHG.inner_loop Toy.lm_config [2; 0; 3; 1]%nat
                  (LMSPDHG.init Toy.lm_config [1])) 1).
Proof.
  destruct dual_data_never_exceeds_one as (H1 & H2).
  split.
  - apply H1; simpl; repeat constructor; lra.
  - apply H2; simpl; try (repeat constructor; lra).
    intros [|[|k]] Hk; unfold LMSPDHG.num_subsets in Hk; simpl in Hk;
      try lia; unfold LMSPDHG.lm_op, LMSPDHG.contamination_sl; simpl;
      repeat constructor; lra.
Defined.

(** ** MLEM *)

Lemma at_vmul_zero a b j : at_ a j = 0 -> at_ (vmul a b) j = 0.
Proof.
  unfold at_, vmul. revert b j. induction a as [|u a IH]; intros b j H.
  - simpl. now destruct j.
  - destruct b as [|v b]; [simpl; now destruct j|].
    destruct j as [|j]; simpl in *.
    + rewrite H. ring.
    + now apply IH.
Qed.

Lemma mlem_step_nonneg op cont d ao x :
  (forall v, Forall (fun t => 0 <= t) v ->
             Forall (fun t => 0 <= t) (adjoint op v)) ->
  (forall v, Forall (fun t => 0 <= t) v ->
             Forall (fun t => 0 <= t) (apply op v)) ->
  Forall (fun t => 0 < t) cont -> Forall (fun t => 0 <= t) d ->
  Forall (fun t => 0 < t) ao ->
  Forall (fun t => 0 <= t) x ->
  Forall (fun t => 0 <= t) (MLEM.step op cont d ao x).
Proof.
  intros Hadj Happ Hc Hd Hao Hx. unfold MLEM.step.
  assert (Hdiv : forall a b, Forall (fun t => 0 <= t) a ->
                   Forall (fun t => 0 < t) b ->
                   Forall (fun t => 0 <= t) (vdiv a b)).
  { intros a b Ha Hb. unfold vdiv.
    apply (Forall_zipWith (fun v => 0 <= v) (fun v => 0 < v)); auto.
    intros u v Hu Hv. apply Rmult_le_pos; [exact Hu|].
    left. now apply Rinv_0_lt_compat. }
  unfold vmul.
  apply (Forall_zipWith (fun v => 0 <= v) (fun v => 0 <= v)); auto.
  - intros u v Hu Hv. now apply Rmult_le_pos.
  - apply Hdiv; [|exact Hao]. apply Hadj. apply Hdiv; [exact Hd|].
    unfold vadd.
    apply (Forall_zipWith (fun v => 0 <= v) (fun v => 0 < v)); auto.
    intros u v Hu Hv. lra.
Qed.

(** X12.  The MLEM update is multiplicative: under the conditions that
    keep its quotients defined (an operator that maps non-negative arrays to
    non-negative arrays, positive contamination, non-negative counts,
    positive adjoint sensitivity, non-negative image), a voxel that is zero
    stays zero through every later MLEM iteration. *)
Theorem mlem_keeps_zero_voxels
    (num_iter_mlem : nat) (pet_lin_op : LinearOperator)
    (contamination d adjoint_ones x_mlem : arr) (j : nat) :
  (forall v, Forall (fun t => 0 <= t) v ->
             Forall (fun t => 0 <= t) (adjoint pet_lin_op v)) ->
  (forall v, Forall (fun t => 0 <= t) v ->
             Forall (fun t => 0 <= t) (apply pet_lin_op v)) ->
  Forall (fun t => 0 < t) contamination ->
  Forall (fun t => 0 <= t) d ->
  Forall (fun t => 0 < t) adjoint_ones ->
  Forall (fun t => 0 <= t) x_mlem ->
  at_ x_mlem j = 0 ->
  at_ (MLEM.run num_iter_mlem pet_lin_op contamination d adjoint_ones x_mlem)
      j = 0.
Proof.
  intros _ _ _ _ _ _.
  revert x_mlem. induction num_iter_mlem as [|n IH]; intros x H; simpl; auto.
  apply IH. unfold MLEM.step. now apply at_vmul_zero.
Qed.

Lemma mlem_keeps_zero_voxels_witness :
  at_ (MLEM.run 3 Toy.id_op [1; 1] [2; 0] [1; 1] [0; 1]) 0 = 0.
Proof.
  apply (mlem_keeps_zero_voxels 3 Toy.id_op [1; 1] [2; 0] [1; 1] [0; 1] 0);
    simpl; auto; try (repeat constructor; lra).
Defined.

(** X13.  MLEM hands a non-negative start image to both loops: for an
    operator whose forward and adjoint maps send non-negative arrays to
    non-negative arrays, a positive contamination, non-negative counts and a
    positive adjoint sensitivity [A^T 1], the image after any number of MLEM
    iterations from the all-ones image is non-negative, and so is the image
    [x_pdhg] after any number of PDHG iterations started from it. *)
Theorem mlem_start_image_nonnegative
    (num_iter_mlem : nat) (pet_lin_op : LinearOperator)
    (n_img n_data : nat) (contamination d : arr) :
  (forall v, Forall (fun t => 0 <= t) v ->
             Forall (fun t => 0 <= t) (adjoint pet_lin_op v)) ->
  (forall v, Forall (fun t => 0 <= t) v ->
             Forall (fun t => 0 <= t) (apply pet_lin_op v)) ->
  Forall (fun t => 0 < t) contamination ->
  Forall (fun t => 0 <= t) d ->
  Forall (fun t => 0 < t) (MLEM.adjoint_ones pet_lin_op n_data) ->
  let x_mlem :=
    MLEM.x_mlem num_iter_mlem pet_lin_op n_img n_data contamination d in
  Forall (fun t => 0 <= t) x_mlem
  /\ forall c n, Forall (fun t => 0 <= t)
                        (PDHG.x_pdhg (PDHG.run n c (PDHG.init c x_mlem))).
Proof.
  intros Hadj Happ Hc Hd Hao. simpl.
  assert (Hx : Forall (fun t => 0 <= t)
                 (MLEM.x_mlem num_iter_mlem pet_lin_op n_img n_data
                    contamination d)).
  { unfold MLEM.x_mlem.
    assert (H1 : Forall (fun t => 0 <= t) (ones n_img)).
    { unfold ones, full. apply Forall_forall. intros v Hv.
      apply repeat_spec in Hv. subst v. lra. }
    generalize dependent (ones n_img).
    induction num_iter_mlem as [|n IH]; intros x Hx; simpl; auto.
    apply IH. now apply mlem_step_nonneg. }
  split; [exact Hx|]. intros c n. destruct n as [|n].
  - simpl. now apply Forall_smulv_1.
  - rewrite pdhg_run_S. simpl. apply primal_update_nonneg.
Qed.

Lemma mlem_start_image_nonnegative_witness :
  Forall (fun t => 0 <= t) (MLEM.x_mlem 2 Toy.id_op 2 2 [1; 1] [2; 0]).
Proof.
  apply (mlem_start_image_nonnegative 2 Toy.id_op 2 2 [1; 1] [2; 0]);
    simpl; auto; repeat constructor; lra.
Defined.

(** ** The cost function *)

Lemma ln_le_minus_1 t : 0 < t -> ln t <= t - 1.
Proof.
  intros Ht. pose proof (exp_ineq1_le (ln t)) as H.
  rewrite exp_ln in H by exact Ht. lra.
Qed.

Lemma poisson_term_floor d e :
  0 <= d -> 0 < e -> Cost.poisson_floor d <= e - d * ln e.
Proof.
  intros Hd He. unfold Cost.poisson_floor.
  destruct (Reqb d 0) eqn:E.
  - apply Reqb_true in E. subst d. lra.
  - apply Reqb_false in E. assert (Hd' : 0 < d) by lra.
    assert (Ht : 0 < e / d) by now apply Rdiv_lt_0_compat.
    pose proof (ln_le_minus_1 (e / d) Ht) as H.
    unfold Rdiv in H at 1.
    rewrite ln_mult in H by (auto using Rinv_0_lt_compat).
    rewrite ln_Rinv in H by exact Hd'.
    assert (H' : d * (ln e - ln d) <= d * (e / d - 1)).
    { apply Rmult_le_compat_l; lra. }
    replace (d * (e / d - 1)) with (e - d) in H' by (field; lra).
    lra.
Qed.

Lemma xp_sum_nonneg a : Forall (fun v => 0 <= v) a -> 0 <= Cost.xp_sum a.
Proof.
  intros H; induction H as [|v a Hv Ha IH]; simpl; lra.
Qed.

Lemma data_sum_floor d e :
  length d = length e ->
  Forall (fun v => 0 <= v) d -> Forall (fun v => 0 < v) e ->
  Cost.xp_sum (map Cost.poisson_floor d)
  <= Cost.xp_sum (vsub e (vmul d (Cost.vlog e))).
Proof.
  intros Hl Hd; revert e Hl.
  induction Hd as [|u d Hu Hd IH]; intros e Hl He.
  - destruct e; [simpl; lra | discriminate].
  - destruct He as [|v e Hv He]; [discriminate|].
    change (Cost.poisson_floor u + Cost.xp_sum (map Cost.poisson_floor d)
            <= (v - u * ln v)
               + Cost.xp_sum (vsub e (vmul d (Cost.vlog e)))).
    pose proof (poisson_term_floor u v Hu Hv).
    assert (IH' := IH e ltac:(simpl in Hl; lia) He). lra.
Qed.

(** X14.  The cost function is bounded below.  Where the expected counts
    [A x + s] are positive and the measured counts non-negative, the TV term
    is non-negative, the data term is at least the sum over the bins of
    [d - d * log d] (0 for an empty bin), its value when the expectation
    equals the data, and for [beta >= 0] so is the whole cost. *)
Theorem cost_function_bounded_below (c : PDHG.config) (img : arr) :
  0 <= PDHG.beta c ->
  length (PDHG.d c) = length (Cost.expectation c img) ->
  Forall (fun v => 0 <= v) (PDHG.d c) ->
  Forall (fun v => 0 < v) (Cost.expectation c img) ->
  0 <= Cost.tv_term c img
  /\ Cost.xp_sum (map Cost.poisson_floor (PDHG.d c)) <= Cost.data_term c img
  /\ Cost.xp_sum (map Cost.poisson_floor (PDHG.d c)) <= Cost.cost_function c img.
Proof.
  intros Hb Hl Hd He.
  assert (Htv : 0 <= Cost.tv_term c img).
  { unfold Cost.tv_term, vector_norm_axis0, vsqrt. apply xp_sum_nonneg.
    apply Forall_map. apply Forall_forall. intros v _. apply sqrt_pos. }
  assert (Hdata : Cost.xp_sum (map Cost.poisson_floor (PDHG.d c))
                  <= Cost.data_term c img).
  { unfold Cost.data_term. now apply data_sum_floor. }
  split; [exact Htv|]. split; [exact Hdata|].
  unfold Cost.cost_function.
  pose proof (Rmult_le_pos _ _ Hb Htv). lra.
Qed.

Lemma cost_function_bounded_below_witness :
  Cost.xp_sum (map Cost.poisson_floor (PDHG.d Toy.pdhg_config))
  <= Cost.cost_function Toy.pdhg_config [1; 2].
Proof.
  apply (cost_function_bounded_below Toy.pdhg_config [1; 2]);
    simpl; try reflexivity; try (repeat constructor; lra).
Defined.

(** ** The running sum of LM-SPDHG *)

Lemma vadd_comm a b : vadd a b = vadd b a.
Proof.
  unfold vadd. revert b; induction a as [|u a IH]; intros [|v b]; simpl; auto.
  rewrite IH. f_equal. ring.
Qed.

Lemma vadd_assoc a b c : vadd (vadd a b) c = vadd a (vadd b c).
Proof.
  unfold vadd. revert b c; induction a as [|u a IH]; intros [|v b] [|t c];
    simpl; auto.
  rewrite IH. f_equal. ring.
Qed.

Lemma vadd_swap a b c : vadd (vadd a b) c = vadd (vadd a c) b.
Proof. now rewrite !vadd_assoc, (vadd_comm b c). Qed.

Section FoldTerms.

Variable g : nat -> list R.

Lemma fold_terms_shift l z dz :
  fold_left (fun z k => vadd z (g k)) l (vadd z dz)
  = vadd (fold_left (fun z k => vadd z (g k)) l z) dz.
Proof.
  revert z; induction l as [|i l IH]; intros z; simpl; auto.
  now rewrite vadd_swap, IH.
Qed.

Lemma fold_terms_ext (g' : nat -> list R) l z :
  (forall i, In i l -> g' i = g i) ->
  fold_left (fun z k => vadd z (g' k)) l z
  = fold_left (fun z k => vadd z (g k)) l z.
Proof.
  revert z; induction l as [|i l IH]; intros z H; simpl; auto.
  rewrite (H i) by now left. apply IH. intros j Hj. apply H. now right.
Qed.

(** Changing one term of the sum by [dz] changes the sum by [dz]. *)
Lemma fold_terms_update (g' : nat -> list R) l z k dz :
  NoDup l -> In k l ->
  (forall i, i <> k -> g' i = g i) -> g' k = vadd (g k) dz ->
  fold_left (fun z k => vadd z (g' k)) l z
  = vadd (fold_left (fun z k => vadd z (g k)) l z) dz.
Proof.
  intros Hnd; revert z. induction Hnd as [|i l Hi Hnd IH]; intros z Hin Hoth Hk.
  - destruct Hin.
  - simpl. destruct (Nat.eq_dec i k) as [->|Hne].
    + rewrite Hk, <- vadd_assoc, <- fold_terms_shift.
      apply fold_terms_ext. intros j Hj. apply Hoth. intros ->. contradiction.
    + rewrite (Hoth i Hne). apply IH; auto.
      destruct Hin as [E|Hin]; [contradiction | exact Hin].
Qed.

Lemma length_fold_terms n l z :
  (forall i, In i l -> length (g i) = n) -> length z = n ->
  length (fold_left (fun z k => vadd z (g k)) l z) = n.
Proof.
  revert z; induction l as [|i l IH]; intros z H Hz; simpl; auto.
  apply IH; [intros j Hj; apply H; now right|].
  apply length_zipWith_same; [exact Hz | apply H; now left].
Qed.

End FoldTerms.

Section LMShapes.

Variable c : LMSPDHG.config.
Hypothesis Hwf : LMInvariant.well_formed c.

Lemma lm_length_x_next s :
  LMInvariant.shaped c s -> length (LMSPDHG.x_next c s) = LMSPDHG.n_img c.
Proof.
  intros (Hx & _ & _ & _ & _ & Hzb). unfold LMSPDHG.x_next.
  apply length_primal_update; auto. apply (LMInvariant.wf_T_lm c Hwf).
Qed.

Lemma lm_length_y_plus s k :
  LMInvariant.shaped c s -> (k < LMSPDHG.num_subsets c)%nat ->
  length (LMSPDHG.y_plus c s k) = length (LMSPDHG.mu_sl c k).
Proof.
  intros Hs Hk. pose proof (lm_length_x_next s Hs) as Hx.
  destruct Hs as (_ & _ & Hys & _).
  unfold LMSPDHG.y_plus. rewrite length_prox_poisson_dual.
  unfold LMSPDHG.y_candidate, vadd, vmul. rewrite !length_zipWith.
  rewrite (LMInvariant.wf_apply c Hwf) by assumption.
  rewrite (LMInvariant.wf_contamination c Hwf),
    (LMInvariant.wf_S_k c Hwf), Hys by assumption. lia.
Qed.

Lemma lm_length_subset_term s k :
  LMInvariant.shaped c s -> (k < LMSPDHG.num_subsets c)%nat ->
  length (LMInvariant.subset_term c s k) = LMSPDHG.n_img c.
Proof.
  intros (_ & _ & Hys & _) Hk. unfold LMInvariant.subset_term.
  apply (LMInvariant.wf_adjoint c Hwf); [exact Hk|].
  unfold vdiv, vsubs. rewrite length_zipWith, length_map, Hys by exact Hk.
  lia.
Qed.

Lemma lm_length_dz_data s k :
  LMInvariant.shaped c s -> (k < LMSPDHG.num_subsets c)%nat ->
  length (LMSPDHG.dz_data c s k) = LMSPDHG.n_img c.
Proof.
  intros Hs Hk. pose proof (lm_length_y_plus s k Hs Hk) as Hy.
  destruct Hs as (_ & _ & Hys & _). unfold LMSPDHG.dz_data.
  apply (LMInvariant.wf_adjoint c Hwf); [exact Hk|].
  unfold vdiv, vsub. rewrite !length_zipWith, Hy, Hys by exact Hk. lia.
Qed.

Lemma lm_shape_w_plus s :
  LMInvariant.shaped c s ->
  length (LMSPDHG.w_plus c s) = LMSPDHG.ndim c
  /\ rows_of (LMSPDHG.n_img c) (LMSPDHG.w_plus c s).
Proof.
  intros Hs. pose proof (lm_length_x_next s Hs) as Hx.
  destruct Hs as (_ & _ & _ & (Hw & Hrw) & _).
  destruct (LMInvariant.wf_gapply c Hwf _ Hx) as [Hg Hrg].
  unfold LMSPDHG.w_plus. now apply shape_tv_dual_update.
Qed.

Lemma lm_length_dz_grad s :
  LMInvariant.shaped c s -> length (LMSPDHG.dz_grad c s) = LMSPDHG.n_img c.
Proof.
  intros Hs. destruct (lm_shape_w_plus s Hs) as [Hw Hrw].
  destruct Hs as (_ & _ & _ & (Hw0 & Hrw0) & _).
  unfold LMSPDHG.dz_grad. apply (LMInvariant.wf_gadjoint c Hwf).
  - unfold fsub. rewrite length_zipWith. lia.
  - unfold fsub. apply rows_of_zipWith; auto.
    intros; now apply length_zipWith_same.
Qed.

Lemma lm_ys_k_init x_mlem k :
  (k < LMSPDHG.num_subsets c)%nat ->
  LMSPDHG.ys_k (LMSPDHG.init c x_mlem) k
  = ssubv 1 (vdiv (LMSPDHG.mu_sl c k)
               (vadd (apply (LMSPDHG.lm_op c k) (smulv 1 x_mlem))
                     (LMSPDHG.contamination_sl c k))).
Proof.
  intros Hk. unfold LMSPDHG.ys_k, LMSPDHG.init; cbn [LMSPDHG.ys].
  set (f := fun k : nat => ssubv 1 _).
  rewrite (nth_indep _ [] (f 0%nat))
    by (rewrite length_map, length_seq; exact Hk).
  now rewrite (map_nth f), seq_nth by exact Hk.
Qed.

Lemma lm_shaped_step s k :
  LMInvariant.shaped c s -> LMInvariant.shaped c (LMSPDHG.step c s k).
Proof.
  intros Hs. pose proof (lm_length_x_next s Hs) as Hx.
  destruct (Nat.lt_ge_cases k (LMSPDHG.num_subsets c)) as [Hk|Hk].
  - pose proof (lm_length_y_plus s k Hs Hk) as Hy.
    pose proof (lm_length_dz_data s k Hs Hk) as Hdz.
    destruct Hs as (_ & Hl & Hys & Hw & Hz & _).
    assert (Hz' : length (vadd (LMSPDHG.z s) (LMSPDHG.dz_data c s k))
                  = LMSPDHG.n_img c) by now apply length_zipWith_same.
    unfold LMInvariant.shaped. rewrite lm_length_ys_step.
    rewrite lm_step_data by exact Hk. cbn zeta.
    cbn [LMSPDHG.x_lmspdhg LMSPDHG.ys LMSPDHG.w_lm LMSPDHG.z LMSPDHG.zbar].
    repeat split; auto; try tauto.
    + intros i Hi. unfold LMSPDHG.ys_k; cbn [LMSPDHG.ys].
      destruct (Nat.eq_dec i k) as [->|Hne].
      * rewrite nth_setitem_same by lia. exact Hy.
      * rewrite nth_setitem_other by exact Hne. now apply Hys.
    + apply length_zipWith_same; [exact Hz'|].
      unfold vdivs. now rewrite length_map.
  - destruct (lm_shape_w_plus s Hs) as [Hw' Hrw'].
    pose proof (lm_length_dz_grad s Hs) as Hdz.
    destruct Hs as (_ & Hl & Hys & Hw & Hz & _).
    assert (Hz' : length (vadd (LMSPDHG.z s) (LMSPDHG.dz_grad c s))
                  = LMSPDHG.n_img c) by now apply length_zipWith_same.
    unfold LMInvariant.shaped. rewrite lm_length_ys_step.
    rewrite lm_step_grad by exact Hk. cbn zeta.
    cbn [LMSPDHG.x_lmspdhg LMSPDHG.ys LMSPDHG.w_lm LMSPDHG.z LMSPDHG.zbar].
    repeat split; auto.
    apply length_zipWith_same; [exact Hz'|].
    unfold vdivs. now rewrite length_map.
Qed.

End LMShapes.

Section LMTracking.

Variable c : LMSPDHG.config.
Hypothesis Hwf : LMInvariant.well_formed c.

Lemma lm_shaped_init x_mlem :
  length x_mlem = LMSPDHG.n_img c ->
  LMInvariant.shaped c (LMSPDHG.init c x_mlem).
Proof.
  intros Hx.
  assert (Hx1 : length (smulv 1 x_mlem) = LMSPDHG.n_img c).
  { unfold smulv. now rewrite length_map. }
  assert (Hys : forall k, (k < LMSPDHG.num_subsets c)%nat ->
            length (LMSPDHG.ys_k (LMSPDHG.init c x_mlem) k)
            = length (LMSPDHG.mu_sl c k)).
  { intros k Hk. rewrite lm_ys_k_init by exact Hk.
    unfold ssubv, vdiv, vadd. rewrite length_map, !length_zipWith.
    rewrite (LMInvariant.wf_apply c Hwf) by assumption.
    rewrite (LMInvariant.wf_contamination c Hwf) by assumption. lia. }
  assert (Hw : length (fzeros (LMSPDHG.ndim c) (LMSPDHG.n_img c))
               = LMSPDHG.ndim c) by apply repeat_length.
  assert (Hz : length (LMSPDHG.z (LMSPDHG.init c x_mlem)) = LMSPDHG.n_img c).
  { change (LMSPDHG.z (LMSPDHG.init c x_mlem))
      with (LMInvariant.z_of_duals c (LMSPDHG.init c x_mlem)).
    unfold LMInvariant.z_of_duals. apply length_zipWith_same.
    - apply length_fold_terms.
      + intros k Hk. apply in_seq in Hk. unfold LMInvariant.subset_term.
        apply (LMInvariant.wf_adjoint c Hwf); [lia|].
        unfold vdiv, vsubs. rewrite length_zipWith, length_map, Hys by lia.
        lia.
      + unfold smulv. rewrite length_map.
        apply (LMInvariant.wf_adjoint_ones c Hwf).
    - apply (LMInvariant.wf_gadjoint c Hwf);
        [exact Hw | apply rows_of_fzeros]. }
  unfold LMInvariant.shaped. repeat split; auto.
  - cbn [LMSPDHG.init LMSPDHG.ys]. now rewrite length_map, length_seq.
  - apply rows_of_fzeros.
  - cbn [LMSPDHG.init LMSPDHG.zbar]. cbn [LMSPDHG.init LMSPDHG.z] in Hz.
    unfold smulv at 1. rewrite length_map. exact Hz.
Qed.

Lemma lm_shaped_inner_loop ks s :
  LMInvariant.shaped c s ->
  LMInvariant.shaped c (LMSPDHG.inner_loop c ks s).
Proof.
  revert s; induction ks as [|k ks IH]; intros s Hs; simpl; auto.
  apply IH. now apply lm_shaped_step.
Qed.

Lemma lm_init_tracks x_mlem :
  LMInvariant.z_tracks_duals c (LMSPDHG.init c x_mlem).
Proof. reflexivity. Qed.

(** A block step keeps [z] equal to the sum of the adjoint images of the
    current dual variables. *)
Lemma lm_step_tracks s k :
  LMInvariant.shaped c s -> LMInvariant.z_tracks_duals c s ->
  LMInvariant.z_tracks_duals c (LMSPDHG.step c s k).
Proof.
  intros Hs Hz. unfold LMInvariant.z_tracks_duals, LMInvariant.z_of_duals in *.
  set (z0 := smulv 1 (LMSPDHG.adjoint_ones c)) in *.
  destruct (Nat.lt_ge_cases k (LMSPDHG.num_subsets c)) as [Hk|Hk].
  - (* data block *)
    pose proof (lm_length_y_plus c Hwf s k Hs Hk) as Hy.
    destruct Hs as (_ & Hl & Hys & _).
    assert (Hterm : forall i, i <> k ->
              LMInvariant.subset_term c (LMSPDHG.step c s k) i
              = LMInvariant.subset_term c s i).
    { intros i Hi. unfold LMInvariant.subset_term. rewrite lm_ys_step.
      replace (i =? k)%nat with false by (symmetry; now apply Nat.eqb_neq).
      now rewrite andb_false_r. }
    assert (Hk' : LMInvariant.subset_term c (LMSPDHG.step c s k) k
                  = vadd (LMInvariant.subset_term c s k)
                         (LMSPDHG.dz_data c s k)).
    { unfold LMInvariant.subset_term, LMSPDHG.dz_data.
      rewrite lm_ys_step_data by lia.
      rewrite <- (LMInvariant.adjoint_add c Hwf) by
        (auto; unfold vdiv, vsubs, vsub;
         rewrite ?length_zipWith, ?length_map, ?Hy, ?Hys by exact Hk; lia).
      f_equal. specialize (Hys k Hk). apply arr_ext.
      - unfold vadd, vdiv, vsubs, vsub.
        rewrite ?length_zipWith, ?length_map, ?length_zipWith. lia.
      - intros j Hj. unfold vdiv, vsubs in Hj.
        rewrite length_zipWith, length_map in Hj.
        unfold vadd, vdiv, vsub, vsubs.
        repeat (rewrite ?at_zipWith, ?at_map;
                rewrite ?length_zipWith, ?length_map; try lia).
        unfold Rdiv. ring. }
    rewrite (fold_terms_update (LMInvariant.subset_term c s)
               (LMInvariant.subset_term c (LMSPDHG.step c s k))
               (seq 0 (LMSPDHG.num_subsets c)) z0 k (LMSPDHG.dz_data c s k));
      [| apply seq_NoDup | apply in_seq; lia | exact Hterm | exact Hk'].
    rewrite lm_step_data by exact Hk. cbn zeta.
    cbn [LMSPDHG.z LMSPDHG.w_lm]. rewrite Hz. apply vadd_swap.
  - (* gradient block *)
    destruct (lm_shape_w_plus c Hwf s Hs) as [Hw' Hrw'].
    assert (HF : length (fold_left
                   (fun z k => vadd z (LMInvariant.subset_term c s k))
                   (seq 0 (LMSPDHG.num_subsets c)) z0) = LMSPDHG.n_img c).
    { apply length_fold_terms.
      - intros i Hi. apply in_seq in Hi.
        apply (lm_length_subset_term c Hwf); [exact Hs | lia].
      - unfold z0, smulv. rewrite length_map.
        apply (LMInvariant.wf_adjoint_ones c Hwf). }
    destruct Hs as (_ & _ & _ & (Hw & Hrw) & _).
    assert (Hterm : forall i, In i (seq 0 (LMSPDHG.num_subsets c)) ->
              LMInvariant.subset_term c (LMSPDHG.step c s k) i
              = LMInvariant.subset_term c s i).
    { intros i _. unfold LMInvariant.subset_term, LMSPDHG.ys_k.
      now rewrite lm_step_grad by exact Hk. }
    rewrite (fold_terms_ext (LMInvariant.subset_term c s)
               (LMInvariant.subset_term c (LMSPDHG.step c s k)) _ z0 Hterm).
    rewrite lm_step_grad by exact Hk. cbn zeta.
    cbn [LMSPDHG.z LMSPDHG.w_lm]. rewrite Hz. unfold LMSPDHG.dz_grad.
    rewrite (LMInvariant.gadjoint_sub c Hwf) by assumption.
    pose proof (LMInvariant.wf_gadjoint c Hwf _ Hw Hrw) as Lb.
    pose proof (LMInvariant.wf_gadjoint c Hwf _ Hw' Hrw') as Lb'.
    set (F := fold_left _ _ z0) in *.
    set (b := gadjoint (LMSPDHG.op_G c) (LMSPDHG.w_lm s)) in *.
    set (b' := gadjoint (LMSPDHG.op_G c) (LMSPDHG.w_plus c s)) in *.
    apply arr_ext.
    + unfold vadd, vsub. rewrite !length_zipWith. lia.
    + intros j Hj. unfold vadd, vsub in Hj. rewrite !length_zipWith in Hj.
      unfold vadd, vsub.
      repeat (rewrite at_zipWith; rewrite ?length_zipWith; try lia).
      lra.
Qed.

Lemma lm_inner_loop_tracks ks s :
  LMInvariant.shaped c s -> LMInvariant.z_tracks_duals c s ->
  LMInvariant.z_tracks_duals c (LMSPDHG.inner_loop c ks s).
Proof.
  revert s; induction ks as [|k ks IH]; intros s Hs Hz; simpl; auto.
  apply IH; [now apply (lm_shaped_step c Hwf) | now apply lm_step_tracks].
Qed.

End LMTracking.

(** X15.  In LM-SPDHG the running sum [z] is the adjoint image of the
    current dual variables:
    [z = adjoint_ones + sum_k A_k^T ((ys[k] - 1) / mu[sl_k]) + grad^T w_lm]
    holds after the initialisation, every block step keeps it, and so it
    holds after any block sequence and after any number of epochs, whatever
    the generator draws.  Arithmetic is exact; the adjoints are additive and
    all arrays have the shapes of the problem. *)
Theorem lm_z_is_adjoint_of_duals (c : LMSPDHG.config) (x_mlem : arr) :
  LMInvariant.well_formed c ->
  length x_mlem = LMSPDHG.n_img c ->
  (forall s k, LMInvariant.shaped c s -> LMInvariant.z_tracks_duals c s ->
               LMInvariant.z_tracks_duals c (LMSPDHG.step c s k))
  /\ (forall subset_sequence,
        let s := LMSPDHG.inner_loop c subset_sequence
                   (LMSPDHG.init c x_mlem) in
        LMSPDHG.z s = LMInvariant.z_of_duals c s)
  /\ (forall (rnd : LMSPDHG.NpRandom) (g : LMSPDHG.rng_state rnd) n,
        let s := snd (LMSPDHG.run rnd n c (g, LMSPDHG.init c x_mlem)) in
        LMSPDHG.z s = LMInvariant.z_of_duals c s).
Proof.
  intros Hwf Hx.
  assert (Hall : forall ks,
            LMInvariant.z_tracks_duals c
              (LMSPDHG.inner_loop c ks (LMSPDHG.init c x_mlem))).
  { intros ks. apply (lm_inner_loop_tracks c Hwf).
    - now apply lm_shaped_init.
    - apply lm_init_tracks. }
  split; [|split].
  - intros s k. now apply lm_step_tracks.
  - intros ks. apply Hall.
  - intros rnd g n. cbn zeta. rewrite lm_run_drawn. apply Hall.
Qed.

Lemma toy_lm_well_formed : LMInvariant.well_formed Toy.lm_config.
Proof.
  constructor; simpl; auto.
  - intros [|[|k]] v Hk Hv; unfold LMSPDHG.num_subsets in Hk; simpl in Hk;
      try lia; exact Hv.
  - intros [|[|k]] v Hk Hv; unfold LMSPDHG.num_subsets in Hk; simpl in Hk;
      try lia; exact Hv.
  - intros [|[|k]] Hk; unfold LMSPDHG.num_subsets in Hk; simpl in Hk;
      try lia; reflexivity.
  - intros [|[|k]] Hk; unfold LMSPDHG.num_subsets in Hk; simpl in Hk;
      try lia; reflexivity.
  - intros v Hv. split; [reflexivity | repeat constructor; exact Hv].
  - intros [|r [|q f]] Hl Hr; try discriminate. simpl. now inversion Hr.
  - intros [|[|k]] a b Hk Ha Hb; unfold LMSPDHG.num_subsets in Hk;
      simpl in Hk; try lia; reflexivity.
  - intros [|r [|q f]] [|r' [|q' g]] Hl Hr Hl' Hr'; try discriminate.
    reflexivity.
Qed.

Lemma lm_z_is_adjoint_of_duals_witness :
  let s := LMSPDHG.inner_loop Toy.lm_config [2; 0; 3; 1]%nat
             (LMSPDHG.init Toy.lm_config [1]) in
  LMSPDHG.z s = LMInvariant.z_of_duals Toy.lm_config s.
Proof.
  refine (proj1 (proj2 (lm_z_is_adjoint_of_duals Toy.lm_config [1] _ _))
            [2; 0; 3; 1]%nat).
  - exact toy_lm_well_formed.
  - reflexivity.
Defined.

(** ** Shapes and attenuation *)

(** X16.  Both loops keep the shapes of their variables: on a problem whose
    operators and arrays have consistent shapes, after any number of PDHG
    iterations, and after any block sequence of LM-SPDHG, the image, the
    dual variables and the running sums have the shapes they were created
    with (no element-wise operation meets operands of different shapes). *)
Theorem loops_keep_shapes :
  (forall c m x_mlem n,
      PDHG.well_formed c m -> length x_mlem = PDHG.n_img c ->
      PDHG.shaped c m (PDHG.run n c (PDHG.init c x_mlem)))
  /\
  (forall c x_mlem subset_sequence,
      LMInvariant.well_formed c -> length x_mlem = LMSPDHG.n_img c ->
      LMInvariant.shaped c
        (LMSPDHG.inner_loop c subset_sequence (LMSPDHG.init c x_mlem))).
Proof.
  split.
  - intros c m x_mlem n Hwf Hx. apply (pdhg_shaped_run c m Hwf).
    now apply pdhg_shaped_init.
  - intros c x_mlem ks Hwf Hx. apply (lm_shaped_inner_loop c Hwf).
    now apply lm_shaped_init.
Qed.

Lemma loops_keep_shapes_witness :
  PDHG.shaped Toy.pdhg_config 2
    (PDHG.run 3 Toy.pdhg_config (PDHG.init Toy.pdhg_config Toy.x_mlem))
  /\ LMInvariant.shaped Toy.lm_config
       (LMSPDHG.inner_loop Toy.lm_config [2; 0; 3; 1]%nat
          (LMSPDHG.init Toy.lm_config [1])).
Proof.
  split.
  - exact (proj1 loops_keep_shapes Toy.pdhg_config 2%nat Toy.x_mlem 3%nat
             toy_pdhg_well_formed eq_refl).
  - exact (proj2 loops_keep_shapes Toy.lm_config [1] [2; 0; 3; 1]%nat
             toy_lm_well_formed eq_refl).
Defined.

Lemma x_att_nonneg x_true :
  Forall (fun v => 0 <= v) (Simulation.x_att x_true).
Proof.
  unfold Simulation.x_att, smulv, Simulation.astype_float, vgts.
  rewrite !map_map. apply Forall_forall. intros v Hv.
  apply in_map_iff in Hv. destruct Hv as (u & <- & _).
  destruct (Rltb 0 u); lra.
Qed.

(** X17.  The simulated attenuation factors are genuine attenuations: for a
    projector that sends non-negative images to non-negative projections,
    every entry of [att_sino = exp(-proj(x_att))] lies in (0, 1], and the
    attenuation image itself only takes the values 0 and 0.01. *)
Theorem attenuation_factors_in_unit_interval
    (proj : LinearOperator) (x_true : arr) :
  (forall v, Forall (fun t => 0 <= t) v ->
             Forall (fun t => 0 <= t) (apply proj v)) ->
  Forall (fun v => 0 < v <= 1) (Simulation.att_sino proj x_true)
  /\ Forall (fun v => v = 0 \/ v = 0.01) (Simulation.x_att x_true).
Proof.
  intros Hproj. split.
  - unfold Simulation.att_sino, Simulation.vexp, Simulation.vneg.
    rewrite map_map. apply Forall_map.
    eapply Forall_impl; [|apply Hproj, x_att_nonneg].
    intros v Hv. simpl in *. split; [apply exp_pos|].
    pose proof (exp_ineq1_le v) as H1. pose proof (exp_pos v) as H2.
    rewrite exp_Ropp.
    apply (Rmult_le_reg_r (exp v)); [exact H2|].
    rewrite Rinv_l by lra. lra.
  - unfold Simulation.x_att, smulv, Simulation.astype_float, vgts.
    rewrite !map_map. apply Forall_forall. intros v Hv.
    apply in_map_iff in Hv. destruct Hv as (u & <- & _).
    destruct (Rltb 0 u); [right | left]; lra.
Qed.

Lemma attenuation_factors_in_unit_interval_witness :
  Forall (fun v => 0 < v <= 1) (Simulation.att_sino Toy.id_op [0; 5]).
Proof.
  apply (attenuation_factors_in_unit_interval Toy.id_op [0; 5]).
  intros v Hv. exact Hv.
Defined.

(** * Step sizes with zero sensitivities *)

Section IeeeFacts.

Import Ieee.

Lemma xdiv_nonzero c v : v <> 0 -> xdiv c v = Fin (c / v).
Proof. intros H. unfold xdiv. now rewrite (proj2 (Reqb_false v 0) H). Qed.

Lemma xdiv_zero_positive c : 0 < c -> xdiv c 0 = PInf.
Proof.
  intros H. unfold xdiv.
  rewrite (proj2 (Reqb_true 0 0) eq_refl).
  now rewrite (proj2 (Rltb_true 0 c) H).
Qed.

Lemma xmin_Fin a b : xmin (Fin a) (Fin b) = Fin (Rmin a b).
Proof.
  unfold xmin, xltb, Rmin.
  destruct (Rltb b a) eqn:E; destruct (Rle_dec a b); auto.
  - apply Rltb_true in E. lra.
  - apply Rltb_false in E. f_equal. lra.
Qed.

Lemma sdivv_Fin c a :
  Forall (fun v => v <> 0) a -> Ieee.sdivv c a = map Fin (Arr.sdivv c a).
Proof.
  intros H. unfold Ieee.sdivv, Arr.sdivv. rewrite map_map.
  induction H as [|v a Hv Ha IH]; simpl; auto.
  now rewrite IH, xdiv_nonzero.
Qed.

Lemma nth_where_x c a b j :
  (j < length c)%nat -> (j < length a)%nat -> (j < length b)%nat ->
  nth j (Ieee.where_ c a b) NaN
  = if nth j c false then nth j a NaN else nth j b NaN.
Proof.
  revert a b j; induction c as [|t c IH]; intros [|u a] [|v b] [|j];
    simpl; try lia; auto.
  intros Hc Ha Hb; apply IH; lia.
Qed.

Lemma nth_sdivv_x c a j :
  (j < length a)%nat -> nth j (Ieee.sdivv c a) NaN = xdiv c (at_ a j).
Proof.
  intros Hj. unfold Ieee.sdivv, at_.
  rewrite (nth_indep _ NaN (xdiv c 0)) by (rewrite length_map; exact Hj).
  apply map_nth.
Qed.

(** The dual step never meets a zero divisor: its quotients are those of
    the real-valued cell. *)
Lemma dual_step_finite gamma rho op n S_A :
  Forall (fun v => 0 <= v) (apply op (ones n)) ->
  StepSize.dual_step gamma rho op n = Some S_A ->
  Ieee.dual_step gamma rho op n = Some (map Fin S_A).
Proof.
  intros Hnn. unfold StepSize.dual_step, Ieee.dual_step.
  destruct (StepSize.replace_zeros (apply op (ones n))) as [tmp|] eqn:E;
    [|discriminate].
  intros [= <-]. f_equal. apply sdivv_Fin.
  pose proof (replace_zeros_positive _ _ Hnn E) as Hpos.
  eapply Forall_impl; [|exact Hpos]. intros v Hv. simpl in Hv. lra.
Qed.

(** One voxel of [T = xp.where(T_A < T_G, T_A, xp.full(in_shape, T_G))]. *)
Lemma T_x_voxel gamma rho op_G_norm op n n_data j :
  0 < gamma -> 0 < rho -> 0 < op_G_norm ->
  Forall (fun v => 0 <= v) (adjoint op (ones n_data)) ->
  length (adjoint op (ones n_data)) = n -> (j < n)%nat ->
  let sens := at_ (adjoint op (ones n_data)) j in
  let T_G := StepSize.T_G gamma rho op_G_norm in
  exists t,
    nth j (Ieee.T n (Ieee.T_A gamma rho op n_data)
             (Ieee.T_G gamma rho op_G_norm)) NaN = Fin t
    /\ 0 < t /\ t <= T_G
    /\ (sens = 0 ->
        nth j (Ieee.T_A gamma rho op n_data) NaN = PInf /\ t = T_G)
    /\ (sens <> 0 ->
        t = at_ (StepSize.T n (StepSize.T_A gamma rho op n_data) T_G) j).
Proof.
  intros Hg Hr Hn Hnn Hlen Hj. cbn zeta.
  assert (Hc : 0 < 1 / gamma * rho).
  { apply Rmult_lt_0_compat; [apply Rdiv_lt_0_compat; lra | exact Hr]. }
  pose proof (T_G_positive gamma rho op_G_norm Hg Hr Hn) as HTG.
  assert (ETG : Ieee.T_G gamma rho op_G_norm
                = Fin (StepSize.T_G gamma rho op_G_norm)).
  { unfold Ieee.T_G, StepSize.T_G. apply xdiv_nonzero. lra. }
  pose proof (at_Forall _ _ j Hnn ltac:(lia)) as Hs. simpl in Hs.
  unfold Ieee.T. rewrite nth_where_x;
    [| unfold Ieee.T_A, Ieee.sdivv; rewrite !length_map; lia
     | unfold Ieee.T_A, Ieee.sdivv; rewrite length_map; lia
     | rewrite repeat_length; exact Hj].
  rewrite (nth_indep _ false (xltb NaN (Ieee.T_G gamma rho op_G_norm)))
    by (unfold Ieee.T_A, Ieee.sdivv; rewrite !length_map; lia).
  rewrite (map_nth (fun a => xltb a (Ieee.T_G gamma rho op_G_norm))).
  rewrite nth_repeat_lt by exact Hj.
  unfold Ieee.T_A. rewrite nth_sdivv_x by lia. rewrite ETG.
  destruct (Req_dec_T (at_ (adjoint op (ones n_data)) j) 0) as [E0|Hne].
  - rewrite E0, xdiv_zero_positive by exact Hc. simpl.
    exists (StepSize.T_G gamma rho op_G_norm).
    repeat split; auto; try lra; try (intros H; now elim H).
  - rewrite xdiv_nonzero by exact Hne.
    set (a := 1 / gamma * rho / at_ (adjoint op (ones n_data)) j).
    assert (Ha : 0 < a) by (apply Rdiv_lt_0_compat; [exact Hc | lra]).
    assert (EA : at_ (StepSize.T_A gamma rho op n_data) j = a).
    { unfold StepSize.T_A, StepSize.T_A_divisor, Arr.sdivv.
      now rewrite at_map by lia. }
    assert (ET : at_ (StepSize.T n (StepSize.T_A gamma rho op n_data)
                        (StepSize.T_G gamma rho op_G_norm)) j
                 = Rmin a (StepSize.T_G gamma rho op_G_norm)).
    { rewrite at_T; [now rewrite EA | exact Hj |].
      unfold StepSize.T_A, StepSize.T_A_divisor, Arr.sdivv.
      rewrite length_map. lia. }
    exists (Rmin a (StepSize.T_G gamma rho op_G_norm)).
    split; [|split; [now apply Rmin_glb_lt
                    |split; [apply Rmin_r|split; [contradiction|now symmetry]]]].
    simpl. unfold Rmin.
    destruct (Rltb a (StepSize.T_G gamma rho op_G_norm)) eqn:E;
      destruct (Rle_dec a (StepSize.T_G gamma rho op_G_norm)); auto.
    + apply Rltb_true in E. lra.
    + apply Rltb_false in E. f_equal. lra.
Qed.

End IeeeFacts.

Section IeeeListmode.

Import Ieee.

Lemma xmin_positive_or_inf a b :
  positive_or_inf a -> positive_or_inf b -> positive_or_inf (xmin a b).
Proof.
  destruct a as [x| | |], b as [y| | |]; simpl; try tauto.
  intros Hx Hy. destruct (Rltb y x); simpl; auto.
Qed.

Lemma fold_xmin_positive_or_inf l a :
  positive_or_inf a -> Forall positive_or_inf l ->
  positive_or_inf (fold_left xmin l a).
Proof.
  intros Ha Hl; revert a Ha. induction Hl as [|b l Hb Hl IH]; intros a Ha;
    simpl; auto.
  apply IH. now apply xmin_positive_or_inf.
Qed.

Lemma xmin_with_finite x T_G :
  positive_or_inf x -> 0 < T_G ->
  exists t, xmin x (Fin T_G) = Fin t /\ 0 < t /\ t <= T_G.
Proof.
  intros Hx HT. destruct x as [a| | |]; simpl in Hx; try tauto.
  - rewrite xmin_Fin. exists (Rmin a T_G).
    split; [reflexivity|]. split; [now apply Rmin_glb_lt | apply Rmin_r].
  - simpl. exists T_G. repeat split; auto; lra.
Qed.

Lemma column_min_last col T_G :
  Forall positive_or_inf col -> 0 < T_G ->
  exists t, column_min (col ++ [Fin T_G]) = Fin t /\ 0 < t /\ t <= T_G.
Proof.
  intros Hc HT. destruct Hc as [|a col Ha Hc]; simpl.
  - exists T_G. repeat split; auto; lra.
  - rewrite fold_left_app. simpl. apply xmin_with_finite; auto.
    now apply fold_xmin_positive_or_inf.
Qed.

Lemma column_min_Fin a l :
  column_min (map Fin (a :: l)) = Fin (fold_left Rmin l a).
Proof.
  cbn [map column_min].
  revert a; induction l as [|b l IH]; intros a; cbn [map fold_left]; auto.
  now rewrite xmin_Fin, IH.
Qed.

Lemma nth_fold_zipWith_xmin n (f : list (list xreal)) r j :
  Forall (fun q => length q = n) f -> length r = n -> (j < n)%nat ->
  nth j (fold_left (zipWith xmin) f r) NaN
  = fold_left xmin (map (fun q => nth j q NaN) f) (nth j r NaN).
Proof.
  intros Hf; revert r; induction Hf as [|q f Hq Hf IH]; intros r Hr Hj; simpl;
    auto.
  rewrite IH by (rewrite ?length_zipWith; lia).
  now rewrite (nth_zipWith _ _ _ xmin r q j NaN NaN NaN) by lia.
Qed.

Lemma nth_min_axis0_x n (f : list (list xreal)) j :
  Forall (fun q => length q = n) f -> (j < n)%nat ->
  f <> [] ->
  nth j (Ieee.min_axis0 f) NaN = column_min (map (fun q => nth j q NaN) f).
Proof.
  intros Hf Hj Hne. destruct Hf as [|r f Hr Hf]; [congruence|].
  simpl. now apply (nth_fold_zipWith_xmin n).
Qed.

Lemma at_min_axis0_column n (f : list (list R)) j :
  rows_of n f -> (j < n)%nat -> f <> [] ->
  at_ (Arr.min_axis0 f) j
  = match map (fun q => at_ q j) f with
    | [] => 0
    | a :: l => fold_left Rmin l a
    end.
Proof.
  intros Hf Hj Hne. destruct Hf as [|r f Hr Hf]; [congruence|].
  simpl. now apply (at_fold_zipWith_Rmin n).
Qed.

Variables (gamma rho op_G_norm : R) (ops : list LinearOperator) (mu : arr).
Variable n : nat.

(** The adjoint sensitivity that row [k] of [T_A_lm] divides by. *)
Let sens (k : nat) : arr :=
  adjoint (nth k ops LMSPDHG.no_op)
          (Arr.sdivv 1 (slice_from k (length ops) mu)).

Let numerator : R := rho * StepSize.p_a (length ops) / gamma.

Hypothesis Hgamma : 0 < gamma.
Hypothesis Hrho : 0 < rho.
Hypothesis Hnorm : 0 < op_G_norm.
Hypothesis Hsens : forall k, (k < length ops)%nat ->
  length (sens k) = n /\ Forall (fun v => 0 <= v) (sens k).

Lemma numerator_positive : (0 < length ops)%nat -> 0 < numerator.
Proof.
  intros Hl. unfold numerator. apply Rdiv_lt_0_compat; [|exact Hgamma].
  apply Rmult_lt_0_compat; [exact Hrho | now apply p_a_positive].
Qed.

Lemma rows_x_shape :
  Forall (fun q => length q = n)
         (Ieee.T_A_lm_rows gamma rho ops mu ++ [repeat (Ieee.T_G gamma rho op_G_norm) n]).
Proof.
  apply Forall_app. split.
  - unfold Ieee.T_A_lm_rows. apply Forall_map. apply Forall_forall.
    intros k Hk. apply in_seq in Hk.
    unfold Ieee.T_A_lm_row, Ieee.sdivv. rewrite length_map.
    apply (Hsens k). lia.
  - repeat constructor. apply repeat_length.
Qed.

Lemma rows_r_shape :
  rows_of n (LMSPDHG.T_A_lm_rows gamma rho ops mu).
Proof.
  unfold rows_of, LMSPDHG.T_A_lm_rows. apply Forall_map. apply Forall_forall.
  intros k Hk. apply in_seq in Hk.
  unfold StepSize.T_A_lm_row, StepSize.T_A_lm_divisor, Arr.sdivv at 1.
  rewrite length_map. apply (Hsens k). lia.
Qed.

Lemma column_x (j : nat) :
  (j < n)%nat ->
  map (fun q => nth j q NaN)
      (Ieee.T_A_lm_rows gamma rho ops mu
       ++ [repeat (Ieee.T_G gamma rho op_G_norm) n])
  = map (fun k => xdiv numerator (at_ (sens k) j)) (seq 0 (length ops))
    ++ [Fin (StepSize.T_G gamma rho op_G_norm)].
Proof.
  intros Hj. rewrite map_app. f_equal.
  - unfold Ieee.T_A_lm_rows. rewrite map_map. apply map_ext_in.
    intros k Hk. apply in_seq in Hk. unfold Ieee.T_A_lm_row.
    rewrite nth_sdivv_x; [reflexivity|].
    destruct (Hsens k ltac:(lia)) as [Hl _]. unfold sens in Hl. lia.
  - simpl. rewrite nth_repeat_lt by exact Hj. f_equal.
    unfold Ieee.T_G, StepSize.T_G. apply xdiv_nonzero. lra.
Qed.

Lemma column_r (j : nat) :
  (j < n)%nat ->
  map (fun q => at_ q j)
      (LMSPDHG.T_A_lm_rows gamma rho ops mu
       ++ [full n (StepSize.T_G gamma rho op_G_norm)])
  = map (fun k => numerator / at_ (sens k) j) (seq 0 (length ops))
    ++ [StepSize.T_G gamma rho op_G_norm].
Proof.
  intros Hj. rewrite map_app. f_equal.
  - unfold LMSPDHG.T_A_lm_rows. rewrite map_map. apply map_ext_in.
    intros k Hk. apply in_seq in Hk.
    unfold StepSize.T_A_lm_row, StepSize.T_A_lm_divisor.
    unfold Arr.sdivv at 1. rewrite at_map; [reflexivity|].
    destruct (Hsens k ltac:(lia)) as [Hl _]. unfold sens in Hl. lia.
  - simpl. now rewrite at_full.
Qed.

(** One voxel of [T_lm = xp.min(T_A_lm, axis=0)]. *)
Lemma T_lm_x_voxel (j : nat) :
  (j < n)%nat ->
  let T_G := StepSize.T_G gamma rho op_G_norm in
  exists t,
    nth j (Ieee.T_lm n (Ieee.T_A_lm_rows gamma rho ops mu)
             (Ieee.T_G gamma rho op_G_norm)) NaN = Fin t
    /\ 0 < t /\ t <= T_G
    /\ ((forall k, (k < length ops)%nat -> at_ (sens k) j <> 0) ->
        t = at_ (StepSize.T_lm n (LMSPDHG.T_A_lm_rows gamma rho ops mu) T_G)
                j).
Proof.
  intros Hj. cbn zeta.
  pose proof (T_G_positive gamma rho op_G_norm Hgamma Hrho Hnorm) as HTG.
  unfold Ieee.T_lm.
  rewrite (nth_min_axis0_x n);
    [| apply rows_x_shape | exact Hj
     | intros E; apply app_eq_nil in E; destruct E; discriminate].
  rewrite column_x by exact Hj.
  destruct (column_min_last
              (map (fun k => xdiv numerator (at_ (sens k) j))
                   (seq 0 (length ops)))
              (StepSize.T_G gamma rho op_G_norm)) as (t & Et & Ht0 & HtG);
    [| exact HTG |].
  { apply Forall_map. apply Forall_forall. intros k Hk. apply in_seq in Hk.
    destruct (Hsens k ltac:(lia)) as [Hl Hnn].
    pose proof (at_Forall _ _ j Hnn ltac:(lia)) as H0. simpl in H0.
    assert (Hnum : 0 < numerator) by (apply numerator_positive; lia).
    destruct (Req_dec_T (at_ (sens k) j) 0) as [E0|Hne].
    - rewrite E0, xdiv_zero_positive by exact Hnum. exact I.
    - rewrite xdiv_nonzero by exact Hne. simpl.
      apply Rdiv_lt_0_compat; [exact Hnum | lra]. }
  exists t. split; [exact Et|]. split; [exact Ht0|]. split; [exact HtG|].
  intros Hnz. unfold StepSize.T_lm, StepSize.T_A_lm.
  rewrite (at_min_axis0_column n);
    [| apply rows_of_app; [apply rows_r_shape
                          | repeat constructor; apply length_full]
     | exact Hj
     | intros E; apply app_eq_nil in E; destruct E; discriminate].
  rewrite column_r by exact Hj.
  assert (Ecol : map (fun k => xdiv numerator (at_ (sens k) j))
                     (seq 0 (length ops))
                 ++ [Fin (StepSize.T_G gamma rho op_G_norm)]
                 = map Fin
                     (map (fun k => numerator / at_ (sens k) j)
                          (seq 0 (length ops))
                      ++ [StepSize.T_G gamma rho op_G_norm])).
  { rewrite map_app, map_map. f_equal. apply map_ext_in.
    intros k Hk. apply in_seq in Hk. apply xdiv_nonzero. apply Hnz. lia. }
  rewrite Ecol in Et.
  destruct (map (fun k => numerator / at_ (sens k) j) (seq 0 (length ops))
            ++ [StepSize.T_G gamma rho op_G_norm]) as [|a l] eqn:El.
  - apply app_eq_nil in El. destruct El; discriminate.
  - rewrite column_min_Fin in Et. now injection Et.
Qed.

Lemma fold_xmin_all_inf (l : list nat) T_G :
  fold_left xmin (map (fun _ => PInf) l ++ [Fin T_G]) PInf = Fin T_G.
Proof. induction l as [|k l IH]; simpl; auto. Qed.

(** A zero sensitivity gives an infinite entry in its row of [T_A_lm]. *)
Lemma row_x_zero (k j : nat) :
  (k < length ops)%nat -> (j < n)%nat -> at_ (sens k) j = 0 ->
  nth j (nth k (Ieee.T_A_lm_rows gamma rho ops mu) []) NaN = PInf.
Proof.
  intros Hk Hj E0. unfold Ieee.T_A_lm_rows.
  rewrite (nth_indep _ []
             (Ieee.T_A_lm_row gamma rho (StepSize.p_a (length ops))
                (nth 0%nat ops LMSPDHG.no_op) (slice_from 0 (length ops) mu)))
    by (rewrite length_map, length_seq; exact Hk).
  rewrite (map_nth (fun k =>
             Ieee.T_A_lm_row gamma rho (StepSize.p_a (length ops))
               (nth k ops LMSPDHG.no_op) (slice_from k (length ops) mu))).
  rewrite seq_nth by exact Hk. cbn [Nat.add].
  unfold Ieee.T_A_lm_row. rewrite nth_sdivv_x.
  - fold (sens k). rewrite E0. apply xdiv_zero_positive.
    apply numerator_positive. lia.
  - destruct (Hsens k Hk) as [Hl _]. unfold sens in Hl. lia.
Qed.

(** Where every subset has zero sensitivity, [T_lm] is [T_G]. *)
Lemma T_lm_x_all_zero (j : nat) :
  (j < n)%nat ->
  (forall k, (k < length ops)%nat -> at_ (sens k) j = 0) ->
  nth j (Ieee.T_lm n (Ieee.T_A_lm_rows gamma rho ops mu)
           (Ieee.T_G gamma rho op_G_norm)) NaN
  = Fin (StepSize.T_G gamma rho op_G_norm).
Proof.
  intros Hj Hz. unfold Ieee.T_lm.
  rewrite (nth_min_axis0_x n);
    [| apply rows_x_shape | exact Hj
     | intros E; apply app_eq_nil in E; destruct E; discriminate].
  rewrite column_x by exact Hj.
  rewrite (map_ext_in _ (fun _ => PInf)).
  2:{ intros k Hk. apply in_seq in Hk. rewrite Hz by lia.
      apply xdiv_zero_positive. apply numerator_positive. lia. }
  destruct (seq 0 (length ops)) as [|k l]; [reflexivity|].
  cbn [map app column_min]. apply fold_xmin_all_inf.
Qed.

End IeeeListmode.

Lemma nth_S_A_lm gamma rho ops n Ss k :
  StepSize.S_A_lm gamma rho ops n = Some Ss -> (k < length ops)%nat ->
  StepSize.dual_step gamma rho (nth k ops LMSPDHG.no_op) n
  = Some (nth k Ss []).
Proof.
  revert Ss k; induction ops as [|op ops IH]; intros Ss k; simpl.
  - intros _ Hk. lia.
  - destruct (StepSize.dual_step gamma rho op n) as [S_k|] eqn:E;
      [|discriminate].
    destruct (StepSize.S_A_lm gamma rho ops n) as [rest|]; [|discriminate].
    intros [= <-] Hk. destruct k as [|k]; [exact E|].
    simpl. apply IH; [reflexivity | lia].
Qed.

(** C5, amended.  In the step-size cells every zero entry of an operator
    applied to the all-ones image is replaced by the smallest positive entry
    of that array before the quotient is taken (the replacement succeeds as
    soon as one entry is positive).  The adjoint sensitivities are divided by
    as computed, without replacement: where one is zero the per-operator
    step [T_A] (or [T_A_lm[k]]) is [+inf], and the pointwise minimum with
    [T_G] discards it.  So, for positive [gamma], [rho] and operator norm and
    non-negative sensitivities, every entry of the dual steps [S_A] and
    [S_A_lm[k]] and every entry of the combined primal steps [T] and [T_lm]
    is finite and strictly positive, never [inf] or [nan]; at a voxel whose
    adjoint sensitivities are all non-zero it is the value of the
    real-valued cell, and at a voxel of zero sensitivity [T] is [T_G]. *)
Theorem step_sizes_finite_and_positive :
  (forall tmp tmp',
      StepSize.replace_zeros tmp = Some tmp' ->
      exists m,
        0 < m /\ In m tmp /\ (forall v, In v tmp -> 0 < v -> m <= v)
        /\ length tmp' = length tmp
        /\ forall j, (j < length tmp)%nat ->
             at_ tmp' j = if Reqb (at_ tmp j) 0 then m else at_ tmp j)
  /\
  (forall tmp, Exists (fun v => 0 < v) tmp ->
               exists tmp', StepSize.replace_zeros tmp = Some tmp')
  /\
  (forall gamma rho beta op_G_norm op G n n_data ndim cont d c,
      PDHG.setup gamma rho beta op_G_norm op G n n_data ndim cont d = Some c ->
      0 < gamma * rho ->
      Forall (fun v => 0 <= v) (apply op (ones n)) ->
      Forall (fun v => 0 < v) (PDHG.S_A c)
      /\ Ieee.dual_step gamma rho op n = Some (map Ieee.Fin (PDHG.S_A c)))
  /\
  (forall gamma rho beta op_G_norm ops G n ndim cl mu ao c,
      LMSPDHG.setup gamma rho beta op_G_norm ops G n ndim cl mu ao = Some c ->
      0 < gamma * rho ->
      (forall op, In op ops -> Forall (fun v => 0 <= v) (apply op (ones n))) ->
      Forall (Forall (fun v => 0 < v)) (LMSPDHG.S_A_lm c)
      /\ forall k, (k < length ops)%nat ->
           Ieee.dual_step gamma rho (nth k ops LMSPDHG.no_op) n
           = Some (map Ieee.Fin (LMSPDHG.S_k c k)))
  /\
  (forall gamma rho beta op_G_norm op G n n_data ndim cont d c j,
      PDHG.setup gamma rho beta op_G_norm op G n n_data ndim cont d = Some c ->
      0 < gamma -> 0 < rho -> 0 < op_G_norm ->
      Forall (fun v => 0 <= v) (adjoint op (ones n_data)) ->
      length (adjoint op (ones n_data)) = n -> (j < n)%nat ->
      exists t,
        nth j (Ieee.T n (Ieee.T_A gamma rho op n_data)
                 (Ieee.T_G gamma rho op_G_norm)) Ieee.NaN = Ieee.Fin t
        /\ 0 < t /\ t <= StepSize.T_G gamma rho op_G_norm
        /\ (at_ (adjoint op (ones n_data)) j = 0 ->
            nth j (Ieee.T_A gamma rho op n_data) Ieee.NaN = Ieee.PInf
            /\ t = StepSize.T_G gamma rho op_G_norm)
        /\ (at_ (adjoint op (ones n_data)) j <> 0 -> t = at_ (PDHG.T c) j))
  /\
  (forall gamma rho beta op_G_norm ops G n ndim cl mu ao c j,
      LMSPDHG.setup gamma rho beta op_G_norm ops G n ndim cl mu ao = Some c ->
      0 < gamma -> 0 < rho -> 0 < op_G_norm ->
      Forall (fun v => 0 < v) mu ->
      (forall k, (k < length ops)%nat ->
         length (adjoint (nth k ops LMSPDHG.no_op)
                   (sdivv 1 (slice_from k (length ops) mu))) = n
         /\ Forall (fun v => 0 <= v)
                   (adjoint (nth k ops LMSPDHG.no_op)
                      (sdivv 1 (slice_from k (length ops) mu)))) ->
      (j < n)%nat ->
      exists t,
        nth j (Ieee.T_lm n (Ieee.T_A_lm_rows gamma rho ops mu)
                 (Ieee.T_G gamma rho op_G_norm)) Ieee.NaN = Ieee.Fin t
        /\ 0 < t /\ t <= StepSize.T_G gamma rho op_G_norm
        /\ (forall k, (k < length ops)%nat ->
               at_ (adjoint (nth k ops LMSPDHG.no_op)
                      (sdivv 1 (slice_from k (length ops) mu))) j = 0 ->
               nth j (nth k (Ieee.T_A_lm_rows gamma rho ops mu) []) Ieee.NaN
               = Ieee.PInf)
        /\ ((forall k, (k < length ops)%nat ->
               at_ (adjoint (nth k ops LMSPDHG.no_op)
                      (sdivv 1 (slice_from k (length ops) mu))) j = 0) ->
            t = StepSize.T_G gamma rho op_G_norm)
        /\ ((forall k, (k < length ops)%nat ->
               at_ (adjoint (nth k ops LMSPDHG.no_op)
                      (sdivv 1 (slice_from k (length ops) mu))) j <> 0) ->
            t = at_ (LMSPDHG.T_lm c) j)).
Proof.
  split; [exact replace_zeros_spec|].
  split; [exact replace_zeros_succeeds|].
  split.
  { intros gamma rho beta op_G_norm op G n n_data ndim cont d c Hc Hgr Hnn.
    apply pdhg_setup_S_A in Hc. split.
    - now apply (dual_step_positive gamma rho op n).
    - now apply dual_step_finite. }
  split.
  { intros gamma rho beta op_G_norm ops G n ndim cl mu ao c Hc Hgr Hnn.
    apply lm_setup_S_A_lm in Hc. split.
    - now apply (S_A_lm_positive gamma rho ops n).
    - intros k Hk. unfold LMSPDHG.S_k. apply dual_step_finite.
      + apply Hnn. now apply nth_In.
      + now apply nth_S_A_lm. }
  split.
  { intros gamma rho beta op_G_norm op G n n_data ndim cont d c j
           Hc Hg Hr Hn Hnn Hlen Hj.
    rewrite (pdhg_setup_T _ _ _ _ _ _ _ _ _ _ _ _ Hc).
    now apply T_x_voxel. }
  { intros gamma rho beta op_G_norm ops G n ndim cl mu ao c j
           Hc Hg Hr Hn _ Hsens Hj.
    rewrite (lm_setup_T _ _ _ _ _ _ _ _ _ _ _ _ Hc).
    destruct (T_lm_x_voxel gamma rho op_G_norm ops mu n Hg Hr Hn Hsens j Hj)
      as (t & Et & Ht0 & HtG & Hnz).
    exists t. split; [exact Et|]. split; [exact Ht0|]. split; [exact HtG|].
    split; [|split; [|exact Hnz]].
    - intros k Hk E0.
      now apply (row_x_zero gamma rho ops mu n Hg Hr Hsens).
    - intros Hz.
      pose proof (T_lm_x_all_zero gamma rho op_G_norm ops mu n Hg Hr Hn Hsens
                    j Hj Hz) as E.
      rewrite Et in E. now injection E. }
Qed.

Lemma step_sizes_finite_and_positive_witness :
  (exists c, Blind.pdhg_setup = Some c
     /\ Forall (fun v => 0 < v) (PDHG.S_A c)
     /\ exists t,
          nth 1 (Ieee.T 2 (Ieee.T_A 2 0.5 Toy.first_voxel_op 1)
                   (Ieee.T_G 2 0.5 1)) Ieee.NaN = Ieee.Fin t
          /\ 0 < t /\ t <= StepSize.T_G 2 0.5 1
          /\ (at_ (adjoint Toy.first_voxel_op (ones 1)) 1 = 0 ->
              nth 1 (Ieee.T_A 2 0.5 Toy.first_voxel_op 1) Ieee.NaN
              = Ieee.PInf
              /\ t = StepSize.T_G 2 0.5 1)
          /\ (at_ (adjoint Toy.first_voxel_op (ones 1)) 1 <> 0 ->
              t = at_ (PDHG.T c) 1))
  /\
  (exists c, Blind.lm_setup = Some c
     /\ Forall (Forall (fun v => 0 < v)) (LMSPDHG.S_A_lm c)
     /\ exists t,
          nth 1 (Ieee.T_lm 2 (Ieee.T_A_lm_rows 2 0.5 [Toy.first_voxel_op] [1])
                   (Ieee.T_G 2 0.5 1)) Ieee.NaN = Ieee.Fin t
          /\ 0 < t /\ t <= StepSize.T_G 2 0.5 1
          /\ t = StepSize.T_G 2 0.5 1).
Proof.
  destruct step_sizes_finite_and_positive as (_ & _ & H3 & H4 & H5 & H6).
  assert (E1 : Blind.pdhg_setup
               = PDHG.setup 2 0.5 1 1 Toy.first_voxel_op Toy.one_row_op
                   2 1 1 [1] [2]) by reflexivity.
  assert (E2 : Blind.lm_setup
               = LMSPDHG.setup 2 0.5 1 1 [Toy.first_voxel_op] Toy.one_row_op
                   2 1 [1] [1] [1; 0]) by reflexivity.
  split.
  - destruct Blind.pdhg_setup as [c|] eqn:Ec.
    2:{ exfalso. revert E1. unfold PDHG.setup, StepSize.dual_step,
          StepSize.replace_zeros. simpl. rcmp. simpl. discriminate. }
    symmetry in E1. exists c. split; [reflexivity|]. split.
    + apply (proj1 (H3 _ _ _ _ _ _ _ _ _ _ _ _ E1 ltac:(lra)
                       ltac:(simpl; repeat constructor; lra))).
    + apply (H5 _ _ _ _ _ _ _ _ _ _ _ c 1%nat E1); try lra;
        [simpl; repeat constructor; lra | reflexivity | lia].
  - destruct Blind.lm_setup as [c|] eqn:Ec.
    2:{ exfalso. revert E2. unfold LMSPDHG.setup, StepSize.S_A_lm,
          StepSize.dual_step, StepSize.replace_zeros. simpl. rcmp. simpl.
        discriminate. }
    symmetry in E2. exists c. split; [reflexivity|]. split.
    + apply (proj1 (H4 _ _ _ _ _ _ _ _ _ _ _ _ E2 ltac:(lra)
                       ltac:(intros op [<-|[]]; simpl;
                             repeat constructor; lra))).
    + destruct (H6 _ _ _ _ _ _ 2%nat _ _ _ _ c 1%nat E2) as (t & Ht);
        try lra; try lia.
      * repeat constructor; lra.
      * intros [|k] Hk; simpl in Hk; [|lia]. simpl.
        split; [reflexivity | repeat constructor; lra].
      * destruct Ht as (Et & Ht0 & HtG & _ & Hz & _).
        exists t. split; [exact Et|]. split; [exact Ht0|].
        split; [exact HtG|]. apply Hz.
        intros [|k] Hk; simpl in Hk; [reflexivity | lia].
Defined.

(** ** The zero dual step *)

Lemma pdhg_reachable_y_le_1 (c : PDHG.config) (x_mlem : arr) (n : nat) :
  Forall (fun v => 0 <= v) (PDHG.S_A c) ->
  Forall (fun v => 0 <= v) (PDHG.d c) ->
  Forall (fun v => 0 < v)
         (vadd (apply (PDHG.pet_lin_op c) (smulv 1 x_mlem))
               (PDHG.contamination c)) ->
  Forall (fun v => v <= 1) (PDHG.y (PDHG.run n c (PDHG.init c x_mlem))).
Proof.
  intros HS Hd He. destruct n as [|n].
  - cbn [PDHG.run PDHG.init PDHG.y]. now apply initial_dual_le_1.
  - rewrite pdhg_run_S, pdhg_y_step. unfold PDHG.y_plus.
    now apply prox_poisson_dual_le_1.
Qed.

Lemma lm_reachable_ys_le_1 (c : LMSPDHG.config) (x_mlem : arr)
    (subset_sequence : list nat) (i : nat) :
  Forall (Forall (fun v => 0 <= v)) (LMSPDHG.S_A_lm c) ->
  Forall (fun v => 0 <= v) (LMSPDHG.mu c) ->
  (forall k, (k < LMSPDHG.num_subsets c)%nat ->
     Forall (fun v => 0 < v)
            (vadd (apply (LMSPDHG.lm_op c k) (smulv 1 x_mlem))
                  (LMSPDHG.contamination_sl c k))) ->
  Forall (fun v => v <= 1)
         (LMSPDHG.ys_k
            (LMSPDHG.inner_loop c subset_sequence (LMSPDHG.init c x_mlem)) i).
Proof.
  intros HS Hmu He.
  apply lm_ys_le_1_inner_loop; auto. clear i. intros i.
  unfold LMSPDHG.ys_k, LMSPDHG.init; cbn [LMSPDHG.ys].
  destruct (Nat.lt_ge_cases i (LMSPDHG.num_subsets c)) as [Hi|Hi].
  - set (f := fun k : nat => ssubv 1 _).
    rewrite (nth_indep _ [] (f 0%nat))
      by (rewrite length_map, length_seq; exact Hi).
    rewrite (map_nth f), seq_nth by exact Hi. unfold f. simpl.
    apply initial_dual_le_1; [|now apply He].
    unfold LMSPDHG.mu_sl. now apply Forall_slice_from.
  - rewrite nth_overflow by (rewrite length_map, length_seq; exact Hi).
    constructor.
Qed.

Lemma toy_pdhg_zero_step_well_formed :
  PDHG.well_formed Toy.pdhg_config_zero_step 2.
Proof.
  constructor; simpl; auto.
  - intros v Hv. split; [reflexivity | repeat constructor; exact Hv].
  - intros [|r [|q f]] Hl Hr; try discriminate. simpl.
    now inversion Hr.
  - intros [|r [|q f]] [|r' [|q' g]] Hl Hr Hl' Hr'; try discriminate.
    reflexivity.
Qed.

(** C6.  The Poisson data conjugate prox with step [S = 0] is the identity
    on every dual value that the loop hands to it.  As a function,
    [prox (y) = y] when [S = 0] for every [y <= 1] and every count [d].  In
    the PDHG loop, started from its initialisation with non-negative steps
    and counts and a positive initial expectation, at a bin [j] with
    [S_A[j] = 0] the array handed to the prox has the entry [y[j]] itself,
    that entry is at most 1, the prox returns it unchanged, and so [y[j]] is
    the same after the iteration.  The same holds for the data block [k] of
    LM-SPDHG at an entry with [S_A_lm[k][j] = 0], after any block
    sequence. *)
Theorem poisson_prox_zero_step_is_identity :
  (forall y d : R, y <= 1 -> poisson_prox_spec y 0 d = y)
  /\
  (forall (c : PDHG.config) (m : nat) (x_mlem : arr) (n j : nat),
      PDHG.well_formed c m ->
      length x_mlem = PDHG.n_img c ->
      Forall (fun v => 0 <= v) (PDHG.S_A c) ->
      Forall (fun v => 0 <= v) (PDHG.d c) ->
      Forall (fun v => 0 < v)
             (vadd (apply (PDHG.pet_lin_op c) (smulv 1 x_mlem))
                   (PDHG.contamination c)) ->
      (j < m)%nat ->
      at_ (PDHG.S_A c) j = 0 ->
      let s := PDHG.run n c (PDHG.init c x_mlem) in
      at_ (PDHG.y_candidate c s) j = at_ (PDHG.y s) j
      /\ at_ (PDHG.y_candidate c s) j <= 1
      /\ at_ (prox_poisson_dual (PDHG.y_candidate c s) (PDHG.S_A c) (PDHG.d c))
             j
         = at_ (PDHG.y_candidate c s) j
      /\ at_ (PDHG.y (PDHG.step c s)) j = at_ (PDHG.y s) j)
  /\
  (forall (c : LMSPDHG.config) (x_mlem : arr) (subset_sequence : list nat)
          (k j : nat),
      Forall (Forall (fun v => 0 <= v)) (LMSPDHG.S_A_lm c) ->
      Forall (fun v => 0 <= v) (LMSPDHG.mu c) ->
      (forall i, (i < LMSPDHG.num_subsets c)%nat ->
         Forall (fun v => 0 < v)
                (vadd (apply (LMSPDHG.lm_op c i) (smulv 1 x_mlem))
                      (LMSPDHG.contamination_sl c i))) ->
      let s := LMSPDHG.inner_loop c subset_sequence (LMSPDHG.init c x_mlem) in
      (j < length (LMSPDHG.y_candidate c s k))%nat ->
      (j < length (LMSPDHG.S_k c k))%nat ->
      (j < length (LMSPDHG.mu_sl c k))%nat ->
      at_ (LMSPDHG.S_k c k) j = 0 ->
      at_ (LMSPDHG.y_candidate c s k) j = at_ (LMSPDHG.ys_k s k) j
      /\ at_ (LMSPDHG.y_candidate c s k) j <= 1
      /\ at_ (prox_poisson_dual (LMSPDHG.y_candidate c s k)
                (LMSPDHG.S_k c k) (LMSPDHG.mu_sl c k)) j
         = at_ (LMSPDHG.y_candidate c s k) j).
Proof.
  split.
  { intros y d Hy. rewrite poisson_prox_spec_S0. unfold Rmin.
    destruct (Rle_dec y 1); lra. }
  split.
  2:{ intros c x_mlem ks k j HS Hmu He s Hyc HSk Hmk H0.
      assert (Hc : at_ (LMSPDHG.y_candidate c s k) j
                   = at_ (LMSPDHG.ys_k s k) j).
      { revert Hyc. unfold LMSPDHG.y_candidate. unfold vadd at 1 3.
        rewrite length_zipWith. intros Hyc.
        rewrite at_zipWith by lia.
        rewrite at_vmul_zero by exact H0. ring. }
      assert (Hle : at_ (LMSPDHG.ys_k s k) j <= 1).
      { apply (at_Forall (fun v => v <= 1)).
        - now apply lm_reachable_ys_le_1.
        - revert Hyc. unfold LMSPDHG.y_candidate. unfold vadd at 1.
          rewrite length_zipWith. lia. }
      split; [exact Hc|]. split; [lra|].
      rewrite at_prox_poisson_dual by assumption.
      rewrite H0, poisson_prox_spec_S0. unfold Rmin.
      destruct (Rle_dec (at_ (LMSPDHG.y_candidate c s k) j) 1); lra. }
  intros c m x_mlem n j Hwf Hx HS Hd He Hj H0 s.
  assert (Hsh : PDHG.shaped c m s).
  { apply pdhg_shaped_run; [exact Hwf|]. now apply pdhg_shaped_init. }
  assert (Hle : at_ (PDHG.y s) j <= 1).
  { pose proof (pdhg_reachable_y_le_1 c x_mlem n HS Hd He) as Hall.
    destruct Hsh as (_ & Hy & _).
    apply (at_Forall (fun v => v <= 1)); [exact Hall | fold s; lia]. }
  assert (Hxn : length (PDHG.x_next c s) = PDHG.n_img c)
    by now apply (pdhg_length_x_next c m Hwf).
  assert (Hly : length (PDHG.y s) = m) by apply Hsh.
  assert (Hlc : length (PDHG.y_candidate c s) = m).
  { unfold PDHG.y_candidate, vadd, vmul. rewrite !length_zipWith.
    rewrite (PDHG.wf_S_A c m Hwf), (PDHG.wf_apply c m Hwf _ Hxn),
      (PDHG.wf_contamination c m Hwf), Hly. lia. }
  assert (Hc : at_ (PDHG.y_candidate c s) j = at_ (PDHG.y s) j).
  { unfold PDHG.y_candidate. unfold vadd at 1. rewrite at_zipWith.
    - rewrite at_vmul_zero by exact H0. ring.
    - lia.
    - unfold vmul, vadd. rewrite !length_zipWith.
      rewrite (PDHG.wf_S_A c m Hwf), (PDHG.wf_apply c m Hwf _ Hxn),
        (PDHG.wf_contamination c m Hwf). lia. }
  assert (Hp : at_ (PDHG.y_plus c s) j = at_ (PDHG.y_candidate c s) j).
  { rewrite pdhg_y_step_zero_step;
      [| lia | rewrite (PDHG.wf_S_A c m Hwf); lia
       | rewrite (PDHG.wf_d c m Hwf); lia | exact H0].
    unfold Rmin. destruct (Rle_dec (at_ (PDHG.y_candidate c s) j) 1); lra. }
  split; [exact Hc|]. split; [lra|]. split; [exact Hp|].
  rewrite pdhg_y_step, Hp. exact Hc.
Qed.

Lemma poisson_prox_zero_step_is_identity_witness :
  let c := Toy.pdhg_config_zero_step in
  let s := PDHG.run 2 c (PDHG.init c Toy.x_mlem) in
  at_ (prox_poisson_dual (PDHG.y_candidate c s) (PDHG.S_A c) (PDHG.d c)) 0
  = at_ (PDHG.y_candidate c s) 0
  /\ at_ (PDHG.y (PDHG.step c s)) 0 = at_ (PDHG.y s) 0
  /\ poisson_prox_spec (1 / 3) 0 2 = 1 / 3.
Proof.
  destruct poisson_prox_zero_step_is_identity as (Hf & Hl & _).
  pose proof (Hl Toy.pdhg_config_zero_step 2%nat Toy.x_mlem 2%nat 0%nat
                toy_pdhg_zero_step_well_formed eq_refl) as H.
  cbv zeta in *.
  destruct H as (_ & _ & H3 & H4).
  - simpl. repeat constructor; lra.
  - simpl. repeat constructor; lra.
  - simpl. repeat constructor; lra.
  - simpl. lia.
  - reflexivity.
  - split; [exact H3|]. split; [exact H4|]. apply Hf. lra.
Defined.
